(** * dolphin-cli: the name transforms and the source patchers of [create-page]

    A shallow embedding of the parts of the command-line generator that do
    more than write a template to disk:

    - the three name transforms ([toPascalCase], [toCamelCase],
      [toScreamingSnakeCase]) and the validation prologue of the
      [create-page] action (src/commands/create-page.ts);
    - the patchers of existing files: [updateViteConfig] (utils/vite),
      [updateMainServer] with [addApiEndpoint] and [addWebhookEndpoint]
      (utils/endpoints), [addToSchema] (utils/schema), [addRoutesToIndex],
      [addUserShardFunctions] and the dashboard flow
      [createDashboardPageFlow] with its schema step
      (src/commands/create-page.ts);
    - the static flow of [create-page], [createPricingAbstractions]
      (utils/abstractions), the error report of the [init] action and
      [addFeedUserShardFunctions].

    Text is a list of 8-bit characters.  The JavaScript string primitives
    the program calls are written out in [Module Js] with the index
    conventions of the language (-1 for "not found", negative [slice]
    arguments counted from the end).  Regular expressions are run by a
    small backtracking matcher over a syntax tree, so every regular
    expression literal of the source appears below as data.  Effects (the
    file system, the console, the spinner, the prompt, exceptions and
    [process.exit]) live in one state-and-outcome monad. *)

From Stdlib Require Import Ascii String List ZArith Lia Bool.
From stdpp Require Import base option list gmap strings.

Local Open Scope Z_scope.

(** Text: the code units of a JavaScript string, restricted to 8 bits. *)
Abbreviation text := (list ascii).

Definition str (s : string) : text := list_ascii_of_string s.

(** The double quote, kept out of string literals. *)
Definition dq : text := [ascii_of_nat 34].

(* ================================================================== *)
(** * JavaScript string primitives *)
(* ================================================================== *)

Module Js.

(** Character classes.  [isSpace] is the class [\s] and the set removed by
    [trim]: TAB, LF, VT, FF, CR, SPACE and NBSP (the members below 256). *)
Definition code (c : ascii) : nat := nat_of_ascii c.

Definition inRange (lo hi : nat) (c : ascii) : bool :=
  (Nat.leb lo (code c)) && (Nat.leb (code c) hi).

Definition isSpace (c : ascii) : bool :=
  inRange 9 13 c || Nat.eqb (code c) 32 || Nat.eqb (code c) 160.

Definition isLower (c : ascii) : bool := inRange 97 122 c.
Definition isUpper (c : ascii) : bool := inRange 65 90 c.
Definition isDigit (c : ascii) : bool := inRange 48 57 c.

Definition isChar (x : ascii) (c : ascii) : bool := Ascii.eqb c x.

(** [toUpperCase] on one character; letters outside a-z are left alone
    (the program only upper-cases validated ASCII identifiers). *)
Definition upperChar (c : ascii) : ascii :=
  if isLower c then ascii_of_nat (code c - 32) else c.

Definition toUpperCase (s : text) : text := map upperChar s.

(** [s.startsWith(p)] *)
Fixpoint startsWith (s p : text) {struct p} : bool :=
  match p, s with
  | [], _ => true
  | _ :: _, [] => false
  | b :: p', a :: s' => Ascii.eqb a b && startsWith s' p'
  end.

(** Position of the first occurrence of [p] in [s]. *)
Fixpoint find (s p : text) : option nat :=
  if startsWith s p then Some 0%nat
  else match s with
       | [] => None
       | _ :: s' => S <$> find s' p
       end.

(** Position of the last occurrence of [p] in [s]. *)
Fixpoint findLast (s p : text) : option nat :=
  match s with
  | [] => if startsWith [] p then Some 0%nat else None
  | _ :: s' =>
      match findLast s' p with
      | Some i => Some (S i)
      | None => if startsWith s p then Some 0%nat else None
      end
  end.

(** [s.includes(p)] *)
Definition includes (s p : text) : bool :=
  match find s p with Some _ => true | None => false end.

Definition toIndex (o : option nat) : Z :=
  match o with Some i => Z.of_nat i | None => -1 end.

(** [s.indexOf(p)], [s.indexOf(p, from)] and [s.lastIndexOf(p)].  A start
    position below 0 counts as 0 and one beyond the end as the length. *)
Definition indexOf (s p : text) : Z := toIndex (find s p).

Definition indexOfFrom (s p : text) (from : Z) : Z :=
  let k := Z.to_nat (Z.min (Z.max from 0) (Z.of_nat (length s))) in
  toIndex ((fun i => (k + i)%nat) <$> find (drop k s) p).

Definition lastIndexOf (s p : text) : Z := toIndex (findLast s p).

(** [s.slice(a, b)] and [s.slice(a)]: a negative argument counts from the
    end of the string. *)
Definition clampIndex (len : nat) (i : Z) : nat :=
  if i <? 0 then Z.to_nat (Z.max (Z.of_nat len + i) 0)
  else Z.to_nat (Z.min i (Z.of_nat len)).

Definition slice (s : text) (a b : Z) : text :=
  let from := clampIndex (length s) a in
  let to := clampIndex (length s) b in
  take (to - from) (drop from s).

Definition sliceFrom (s : text) (a : Z) : text :=
  drop (clampIndex (length s) a) s.

(** [s.charAt(i)]: the one-character string at [i], or the empty string. *)
Definition charAt (s : text) (i : nat) : text :=
  match s !! i with Some c => [c] | None => [] end.

(** [s.trimStart()], [s.trimEnd()] and [s.trim()]. *)
Fixpoint trimStart (s : text) : text :=
  match s with
  | c :: s' => if isSpace c then trimStart s' else s
  | [] => []
  end.

Definition trimEnd (s : text) : text := rev (trimStart (rev s)).

Definition trim (s : text) : text := trimEnd (trimStart s).

Definition endsWith (s p : text) : bool := startsWith (rev s) (rev p).

(** [s.split(sep)] for a one-character separator: the result always has at
    least one piece. *)
Fixpoint split (sep : ascii) (s : text) : list text :=
  match s with
  | [] => [[]]
  | c :: s' =>
      if Ascii.eqb c sep then [] :: split sep s'
      else match split sep s' with
           | piece :: rest => (c :: piece) :: rest
           | [] => [[c]]
           end
  end.

(** [pieces.join(sep)] *)
Fixpoint join (sep : text) (pieces : list text) : text :=
  match pieces with
  | [] => []
  | [p] => p
  | p :: rest => p ++ sep ++ join sep rest
  end.

(** [list.includes(x)] on an array of strings. *)
Definition arrayIncludes (l : list text) (x : text) : bool :=
  existsb (fun y => bool_decide (y = x)) l.

(** The replacement-string expansion of [String.prototype.replace]
    (GetSubstitution).  Every [replace] call of the program has a pattern
    without capture groups, so [$1]..[$99] and [$<] stay literal; the
    special forms are [$$], [$&], [$`] and [$']. *)
Fixpoint expand (repl matched before after : text) : text :=
  match repl with
  | [] => []
  | c :: t =>
      if negb (isChar "$" c) then c :: expand t matched before after
      else match t with
           | [] => [c]
           | d :: u =>
               if isChar "$" d then c :: expand u matched before after
               else if isChar "&" d then matched ++ expand u matched before after
               else if isChar "`" d then before ++ expand u matched before after
               else if isChar "'" d then after ++ expand u matched before after
               else c :: d :: expand u matched before after
           end
  end.

(** [s.replace(pattern, repl)] with a string pattern: the first occurrence
    only. *)
Definition replace (s pattern repl : text) : text :=
  match find s pattern with
  | None => s
  | Some i =>
      let before := take i s in
      let after := drop (i + length pattern) s in
      before ++ expand repl pattern before after ++ after
  end.

End Js.

(* ================================================================== *)
(** * Regular expressions *)
(* ================================================================== *)

(** A backtracking matcher in continuation-passing style, with the
    priorities of the language: the left alternative first, greedy
    repetition, and a repetition step that consumes nothing is given up.
    None of the program's expressions carries the [m] or [i] flag, so [^]
    and [$] are the two ends of the input. *)
Module Re.

Inductive regex : Type :=
| Empty
| Chr (p : ascii -> bool)
| Seq (r1 r2 : regex)
| Alt (r1 r2 : regex)
| Star (r : regex)
| Group (r : regex)
| Bol
| Eol.

(** The matcher state: the position, the input left to read, and the
    extent of the capture group (the program's expressions have at most
    one). *)
Record mstate : Type := MState
  { pos : nat; rest : text; cap : option (nat * nat) }.

Definition advance (s : mstate) (t : text) : mstate :=
  {| pos := S (pos s); rest := t; cap := cap s |}.

Definition capture (from : nat) (s : mstate) : mstate :=
  {| pos := pos s; rest := rest s; cap := Some (from, pos s) |}.

Definition orElse {A} (x y : option A) : option A :=
  match x with Some _ => x | None => y end.

(** Greedy repetition of a matcher [step]: one more round first, the
    continuation second.  A round must move the position forward, so the
    input left to read bounds the number of rounds. *)
Fixpoint loop (step : (mstate -> option mstate) -> mstate -> option mstate)
  (k : mstate -> option mstate) (fuel : nat) (s : mstate) : option mstate :=
  match fuel with
  | O => k s
  | S fuel' =>
      orElse
        (step (fun s' => if Nat.ltb (pos s) (pos s')
                         then loop step k fuel' s' else None) s)
        (k s)
  end.

Fixpoint run (r : regex) (k : mstate -> option mstate) (s : mstate)
  : option mstate :=
  match r with
  | Empty => k s
  | Chr p =>
      match rest s with
      | c :: t => if p c then k (advance s t) else None
      | [] => None
      end
  | Seq r1 r2 => run r1 (run r2 k) s
  | Alt r1 r2 => orElse (run r1 k s) (run r2 k s)
  | Star r1 => loop (run r1) k (S (length (rest s))) s
  | Group r1 => run r1 (fun s' => k (capture (pos s) s')) s
  | Bol => if Nat.eqb (pos s) 0 then k s else None
  | Eol => match rest s with [] => k s | _ :: _ => None end
  end.

(** Derived forms. *)
Definition Plus (r : regex) : regex := Seq r (Star r).
Definition Opt (r : regex) : regex := Alt r Empty.

Fixpoint Lit (s : text) : regex :=
  match s with
  | [] => Empty
  | c :: s' => Seq (Chr (Js.isChar c)) (Lit s')
  end.

Definition oneOf (l : text) (c : ascii) : bool :=
  existsb (fun x => Ascii.eqb c x) l.

Definition noneOf (l : text) (c : ascii) : bool := negb (oneOf l c).

(** The first match, scanning start positions from the left: the start
    position and the final matcher state. *)
Fixpoint scan (r : regex) (from : nat) (s : text) : option (nat * mstate) :=
  match run r Some {| pos := from; rest := s; cap := None |} with
  | Some m => Some (from, m)
  | None =>
      match s with
      | [] => None
      | _ :: s' => scan r (S from) s'
      end
  end.

(** The result of [s.match(r)] for an expression without the [g] flag:
    the index, the matched text and the text of group 1 (empty when the
    expression has no group). *)
Record found : Type := Found
  { index : nat; whole : text; group1 : text }.

Definition subtext (s : text) (from to : nat) : text :=
  take (to - from) (drop from s).

Definition exec (r : regex) (s : text) : option found :=
  match scan r 0 s with
  | None => None
  | Some (i, m) =>
      Some {| index := i;
              whole := subtext s i (pos m);
              group1 := match cap m with
                        | Some (a, b) => subtext s a b
                        | None => []
                        end |}
  end.

(** [r.test(s)] *)
Definition test (r : regex) (s : text) : bool :=
  match scan r 0 s with Some _ => true | None => false end.

(** [s.replace(r, repl)] for an expression without the [g] flag: the
    first match is replaced by the expansion of [repl]. *)
Definition replace (s : text) (r : regex) (repl : text) : text :=
  match scan r 0 s with
  | None => s
  | Some (i, m) =>
      let before := take i s in
      let after := drop (pos m) s in
      before ++ Js.expand repl (subtext s i (pos m)) before after ++ after
  end.

(** The relational reading of an expression: [reaches r s s'] when [r]
    can take the matcher from state [s] to state [s']. *)
Inductive reaches : regex -> mstate -> mstate -> Prop :=
| reach_empty s : reaches Empty s s
| reach_chr p s c t :
    rest s = c :: t -> p c = true -> reaches (Chr p) s (advance s t)
| reach_seq r1 r2 s s' s'' :
    reaches r1 s s' -> reaches r2 s' s'' -> reaches (Seq r1 r2) s s''
| reach_alt_l r1 r2 s s' : reaches r1 s s' -> reaches (Alt r1 r2) s s'
| reach_alt_r r1 r2 s s' : reaches r2 s s' -> reaches (Alt r1 r2) s s'
| reach_star_stop r s : reaches (Star r) s s
| reach_star_step r s s' s'' :
    reaches r s s' -> reaches (Star r) s' s'' -> reaches (Star r) s s''
| reach_group r s s' :
    reaches r s s' -> reaches (Group r) s (capture (pos s) s')
| reach_bol s : pos s = 0%nat -> reaches Bol s s
| reach_eol s : rest s = [] -> reaches Eol s s.

(** The expression without its capture groups. *)
Fixpoint plain (r : regex) : regex :=
  match r with
  | Seq r1 r2 => Seq (plain r1) (plain r2)
  | Alt r1 r2 => Alt (plain r1) (plain r2)
  | Star r1 => Star (plain r1)
  | Group r1 => plain r1
  | _ => r
  end.

(** Notions for the proofs about the matcher: a matcher step that only
    finds paths of [reaches], and matcher states, results and
    continuations that agree up to the capture. *)
Definition sound (r : regex)
  (step : (mstate -> option mstate) -> mstate -> option mstate) : Prop :=
  forall k s x, step k s = Some x -> exists s', reaches r s s' /\ k s' = Some x.

Definition same (s s' : mstate) : Prop :=
  pos s = pos s' /\ rest s = rest s'.

Definition sameO (x y : option mstate) : Prop :=
  match x, y with
  | Some a, Some b => same a b
  | None, None => True
  | _, _ => False
  end.

Definition alike (k k' : mstate -> option mstate) : Prop :=
  forall s s', same s s' -> sameO (k s) (k' s').

End Re.

(* ================================================================== *)
(** * Name transforms (create-page.ts) *)
(* ================================================================== *)

(** A value or a thrown [Error] with its message. *)
Inductive except (A : Type) : Type :=
| Value (a : A)
| Raised (msg : text).
Arguments Value {A} a.
Arguments Raised {A} msg.

Definition bindE {A B} (x : except A) (f : A -> except B) : except B :=
  match x with
  | Value a => f a
  | Raised m => Raised m
  end.

(** [parts.map(f)] for a callback that may throw: the parts are visited
    from the left, with their index, and the first throw ends the map. *)
Fixpoint mapE {A B} (f : nat -> A -> except B) (i : nat) (l : list A)
  : except (list B) :=
  match l with
  | [] => Value []
  | x :: l' =>
      bindE (f i x) (fun y =>
      bindE (mapE f (S i) l') (fun ys => Value (y :: ys)))
  end.

Definition lowerOrDigit (c : ascii) : bool := Js.isLower c || Js.isDigit c.

(** [/^[a-z0-9]+$/] *)
Definition re_part : Re.regex :=
  Re.Seq Re.Bol (Re.Seq (Re.Plus (Re.Chr lowerOrDigit)) Re.Eol).

Definition nonEmpty (part : text) : bool :=
  negb (Nat.eqb (length part) 0).

Definition invalidPart (part : text) : text :=
  str "Invalid name part " ++ dq ++ part ++ dq ++
  str ": must contain only lowercase letters and numbers".

(** [part.charAt(0).toUpperCase() + part.slice(1)] *)
Definition capitalize (part : text) : text :=
  Js.toUpperCase (Js.charAt part 0) ++ Js.sliceFrom part 1.

(** The callbacks of the two [map] calls. *)
Definition pascalPart (part : text) : except text :=
  if negb (Re.test re_part part) then Raised (invalidPart part)
  else Value (capitalize part).

Definition camelPart (index : nat) (part : text) : except text :=
  if negb (Re.test re_part part) then Raised (invalidPart part)
  else if Nat.eqb index 0 then Value part
  else Value (capitalize part).

Definition toPascalCase (name : text) : except text :=
  if Nat.eqb (length name) 0 then
    Raised (str "Invalid name: must be a non-empty string")
  else
    let parts := List.filter nonEmpty (Js.split "-" name) in
    if Nat.eqb (length parts) 0 then
      Raised (str "Invalid name: contains only hyphens")
    else
      bindE (mapE (fun _ => pascalPart) 0 parts)
            (fun mapped => Value (Js.join [] mapped)).

Definition toCamelCase (name : text) : except text :=
  if Nat.eqb (length name) 0 then
    Raised (str "Invalid name: must be a non-empty string")
  else
    let parts := List.filter nonEmpty (Js.split "-" name) in
    if Nat.eqb (length parts) 0 then
      Raised (str "Invalid name: contains only hyphens")
    else
      bindE (mapE camelPart 0 parts)
            (fun mapped => Value (Js.join [] mapped)).

(** [name.toUpperCase().replace(/-/g, "_")] *)
Definition toScreamingSnakeCase (name : text) : text :=
  map (fun c => if Js.isChar "-" c then "_"%char else c) (Js.toUpperCase name).

(* ================================================================== *)
(** * Effects: file system, console, spinner, prompt *)
(* ================================================================== *)

(** The file system maps a path, as the program spells it, to a regular
    file with its content or to a directory.  Paths are compared as text
    and are relative to the working directory:
    [path.join(process.cwd(), f)] is the key [f] for a fixed path [f],
    which has no segment to normalise, and the key [Path.fromCwd f] where
    a part of [f] is an argument of the program. *)
Inductive node : Type :=
| File (content : text)
| Dir.

(** What an invocation does that can be observed, in order. *)
Inductive event : Type :=
| ConsoleLog (msg : text)
| ConsoleWarn (msg : text)
| ConsoleError (msg : text)
| SpinnerStart (msg : text)
| SpinnerText (msg : text)
| SpinnerSucceed (msg : text)
| SpinnerWarn (msg : text)
| SpinnerFail (msg : text)
| Prompt (msg : text)
| FsPathExists (path : text)
| FsReadFile (path : text)
| FsWriteFile (path : text) (content : text)
| FsOutputFile (path : text) (content : text).

Record world : Type := World
  { files : gmap text node;
    answers : list bool;
    trace : list event }.

(** How a computation ends: with a value, with a thrown error, or with
    [process.exit(code)], which no [catch] intercepts. *)
Inductive outcome (A : Type) : Type :=
| Done (a : A)
| Thrown (msg : text)
| Exited (code : Z).
Arguments Done {A} a.
Arguments Thrown {A} msg.
Arguments Exited {A} code.

Definition M (A : Type) : Type := world -> outcome A * world.

Definition ret {A} (a : A) : M A := fun w => (Done a, w).

Definition bind {A B} (m : M A) (f : A -> M B) : M B :=
  fun w =>
    match m w with
    | (Done a, w') => f a w'
    | (Thrown e, w') => (Thrown e, w')
    | (Exited c, w') => (Exited c, w')
    end.

Notation "x <- m ;; k" := (bind m (fun x => k))
  (at level 20, m at level 99, k at level 200, only parsing).
Notation "m ;; k" := (bind m (fun _ => k))
  (at level 100, k at level 200, only parsing, right associativity).

Definition throw {A} (msg : text) : M A := fun w => (Thrown msg, w).

Definition exit {A} (code : Z) : M A := fun w => (Exited code, w).

(** [try { body } catch (error) { handler(error) }] *)
Definition tryCatch {A} (body : M A) (handler : text -> M A) : M A :=
  fun w =>
    match body w with
    | (Thrown e, w') => handler e w'
    | r => r
    end.

Definition liftE {A} (x : except A) : M A :=
  match x with
  | Value a => ret a
  | Raised msg => throw msg
  end.

Definition emit (e : event) : M unit :=
  fun w => (Done tt, {| files := files w; answers := answers w;
                        trace := trace w ++ [e] |}).

Definition setFiles (f : gmap text node) : M unit :=
  fun w => (Done tt, {| files := f; answers := answers w; trace := trace w |}).

Definition getFiles : M (gmap text node) := fun w => (Done (files w), w).

(** [fs.pathExists(p)] *)
Definition pathExists (p : text) : M bool :=
  emit (FsPathExists p) ;;
  f <- getFiles ;;
  ret (bool_decide (is_Some (f !! p))).

(** [fs.readFile(p, "utf8")] *)
Definition readFile (p : text) : M text :=
  emit (FsReadFile p) ;;
  f <- getFiles ;;
  match f !! p with
  | Some (File c) => ret c
  | Some Dir => throw (str "EISDIR: illegal operation on a directory, read")
  | None => throw (str "ENOENT: no such file or directory, open")
  end.

(** [fs.writeFile(p, c)]: the file is replaced as a whole.  The directory
    that holds [p] is taken to exist, as it does at every call of the
    program, which writes back a file it has just read. *)
Definition writeFile (p c : text) : M unit :=
  emit (FsWriteFile p c) ;;
  f <- getFiles ;;
  match f !! p with
  | Some Dir => throw (str "EISDIR: illegal operation on a directory, open")
  | _ => setFiles (<[p := File c]> f)
  end.

(** The directories above a path: every proper prefix that ends before
    a slash, the root excepted. *)
Fixpoint ancestorsFrom (seen : text) (p : text) : list text :=
  match p with
  | [] => []
  | c :: p' =>
      if Js.isChar "/" c && negb (Nat.eqb (length seen) 0)
      then seen :: ancestorsFrom (seen ++ [c]) p'
      else ancestorsFrom (seen ++ [c]) p'
  end.

Definition ancestors (p : text) : list text := ancestorsFrom [] p.

Definition isFile (f : gmap text node) (p : text) : bool :=
  match f !! p with Some (File _) => true | _ => false end.

Definition mkdirs (dirs : list text) (f : gmap text node) : gmap text node :=
  foldr (fun d acc => <[d := Dir]> acc) f dirs.

(** [fs.outputFile(p, c)]: like [writeFile], after creating the missing
    directories above [p]. *)
Definition outputFile (p c : text) : M unit :=
  emit (FsOutputFile p c) ;;
  f <- getFiles ;;
  if existsb (isFile f) (ancestors p) then
    throw (str "ENOTDIR: not a directory, mkdir")
  else
    match f !! p with
    | Some Dir => throw (str "EISDIR: illegal operation on a directory, open")
    | _ => setFiles (<[p := File c]> (mkdirs (ancestors p) f))
    end.

(** [prompts({type: "confirm", ...})]: the next answer of the user; no
    answer counts as a refusal. *)
Definition confirm (msg : text) : M bool :=
  emit (Prompt msg) ;;
  fun w =>
    match answers w with
    | a :: rest => (Done a, {| files := files w; answers := rest;
                              trace := trace w |})
    | [] => (Done false, w)
    end.

(** The world after more events, and after a file has been stored. *)
Definition logged (w : world) (evs : list event) : world :=
  {| files := files w; answers := answers w; trace := trace w ++ evs |}.

Definition stored (w : world) (p c : text) : world :=
  {| files := <[p := File c]> (files w); answers := answers w;
     trace := trace w |}.

(** [if (cond) { console.error(msg); process.exit(1); }] *)
Definition failIf (cond : bool) (msg : text) : M unit :=
  if cond then emit (ConsoleError msg) ;; exit 1 else ret tt.

(** The line feed. *)
Definition lf : ascii := ascii_of_nat 10.

Definition nl : text := [lf].

(* ================================================================== *)
(** * utils/vite: [updateViteConfig] *)
(* ================================================================== *)

(** The expression of the [match] call: [input:], any white space, an
    opening brace, the group of the characters up to the next closing
    brace, and that brace (flag [s], which changes nothing here). *)
Definition re_input : Re.regex :=
  Re.Seq (Re.Lit (str "input:"))
  (Re.Seq (Re.Star (Re.Chr Js.isSpace))
  (Re.Seq (Re.Lit (str "{"))
  (Re.Seq (Re.Group (Re.Star (Re.Chr (Re.noneOf (str "}")))))
          (Re.Lit (str "}"))))).

(** The expression of the [replace] call: the same without the group. *)
Definition re_input_plain : Re.regex :=
  Re.Seq (Re.Lit (str "input:"))
  (Re.Seq (Re.Star (Re.Chr Js.isSpace))
  (Re.Seq (Re.Lit (str "{"))
  (Re.Seq (Re.Star (Re.Chr (Re.noneOf (str "}"))))
          (Re.Lit (str "}"))))).

Definition viteConfigPath : text := str "vite.config.ts".

Definition newEntry (pageName : text) : text :=
  str "        " ++ pageName ++ str ": resolve(__dirname, " ++ dq ++
  str "src/client/" ++ pageName ++ str "/index.html" ++ dq ++ str "),".

(** The text written back once the mapping has been found and holds no
    entry for the page. *)
Definition withNewEntry (pageName content inputContent : text) : text :=
  let updatedInput := Js.trimEnd inputContent ++ nl ++ newEntry pageName in
  Re.replace content re_input_plain
    (str "input: {" ++ updatedInput ++ nl ++ str "      }").

Definition noMappingWarning : text :=
  str "Could not find rollupOptions.input in vite.config.ts. Please manually add the page.".

Definition updateViteConfig (pageName : text) : M unit :=
  found <- pathExists viteConfigPath ;;
  if negb found then
    emit (ConsoleWarn (str "vite.config.ts not found. Please manually add the page to your Vite configuration."))
  else
    content <- readFile viteConfigPath ;;
    match Re.exec re_input content with
    | Some inputMatch =>
        let inputContent := Re.group1 inputMatch in
        if negb (Js.includes inputContent (pageName ++ str ":")) then
          writeFile viteConfigPath (withNewEntry pageName content inputContent)
        else ret tt
    | None => emit (ConsoleWarn noMappingWarning)
    end.

(* ================================================================== *)
(** * utils/endpoints: [updateMainServer] *)
(* ================================================================== *)

Definition serverFile : text := str "src/server/index.ts".

Definition isWebhook (routeName : text) : bool :=
  Js.includes routeName (str "webhook").

Definition routerName (routeName : text) : text :=
  if isWebhook routeName then str "webhookRouter"
  else routeName ++ str "Router".

Definition importStatement (routeName : text) : text :=
  str "import { " ++ routerName routeName ++ str " } from './" ++
  (if isWebhook routeName then routeName else str "api/" ++ routeName) ++
  str "';".

Definition mountStatement (routeName : text) : text :=
  str "app.route('/', " ++ routerName routeName ++ str ");".

(** "Add import": after the line of the last [import ]. *)
Definition addImport (routeName content : text) : text :=
  if negb (Js.includes content (importStatement routeName)) then
    let lastImportIndex := Js.lastIndexOf content (str "import ") in
    let nextLineIndex := Js.indexOfFrom content nl lastImportIndex in
    Js.slice content 0 (nextLineIndex + 1) ++ importStatement routeName ++
    nl ++ Js.sliceFrom content (nextLineIndex + 1)
  else content.

(** "Add router mount": before the first [app.listen], when there is one. *)
Definition addMount (routeName content : text) : text :=
  if negb (Js.includes content (mountStatement routeName)) then
    let listenIndex := Js.indexOf content (str "app.listen") in
    if negb (listenIndex =? -1) then
      Js.slice content 0 listenIndex ++ mountStatement routeName ++ nl ++ nl ++
      Js.sliceFrom content listenIndex
    else content
  else content.

Definition updateMainServer (routeName : text) : M unit :=
  found <- pathExists serverFile ;;
  if negb found then
    emit (ConsoleWarn (str "Warning: " ++ serverFile ++
            str " not found. Please manually import and mount the router."))
  else
    content <- readFile serverFile ;;
    writeFile serverFile (addMount routeName (addImport routeName content)).

(** [path.join(process.cwd(), f)] for a path [f] made from an argument,
    with the slash as the separator.
    [path.join] normalises what it joins: it drops the empty segments and
    the segments [.], and a segment [..] cancels the segment before it.
    The key is the normalised path relative to the working directory; a
    path that leaves the working directory keeps its leading [..]
    segments (the working directory is taken to lie deep enough for
    them).  The paths given here end with a file name, so the slash that
    [path.join] keeps at the end of a path does not arise. *)
Module Path.

Definition isSegment (s : text) (seg : string) : bool :=
  bool_decide (s = str seg).

(** [kept] holds the segments read so far, the last one first. *)
Fixpoint normalizeFrom (kept segments : list text) : list text :=
  match segments with
  | [] => rev kept
  | s :: rest =>
      if Nat.eqb (length s) 0 || isSegment s "." then normalizeFrom kept rest
      else if isSegment s ".." then
        match kept with
        | [] => normalizeFrom [s] rest
        | top :: below =>
            if isSegment top ".." then normalizeFrom (s :: kept) rest
            else normalizeFrom below rest
        end
      else normalizeFrom (s :: kept) rest
  end.

Definition fromCwd (f : text) : text :=
  Js.join (str "/") (normalizeFrom [] (Js.split "/" f)).

End Path.

Definition addApiEndpoint (name content : text) : M unit :=
  let endpointFile := str "src/server/api/" ++ name ++ str ".ts" in
  outputFile (Path.fromCwd endpointFile) content ;;
  updateMainServer name.

Definition addWebhookEndpoint (provider content : text) : M unit :=
  let webhookFile := str "src/server/webhooks/" ++ provider ++ str ".ts" in
  outputFile (Path.fromCwd webhookFile) content ;;
  updateMainServer (str "webhooks/" ++ provider).

(* ================================================================== *)
(** * utils/schema: [addToSchema] *)
(* ================================================================== *)

Inductive schemaType : Type := main | sharded.

Definition schemaFile (type : schemaType) : text :=
  match type with
  | main => str "src/server/db/schema.ts"
  | sharded => str "src/server/db/sharded-schema.ts"
  end.

Definition baseSchema : text :=
  str "import { sqliteTable, text, integer, real, blob } from " ++ dq ++
  str "drizzle-orm/sqlite-core" ++ dq ++ str ";
import { sql } from " ++ dq ++ str "drizzle-orm" ++ dq ++ str ";

".

Definition addToSchema (type : schemaType) (content : text) : M unit :=
  found <- pathExists (schemaFile type) ;;
  existingContent <- (if found then readFile (schemaFile type)
                      else ret baseSchema) ;;
  outputFile (schemaFile type) (existingContent ++ nl ++ content).

(* ================================================================== *)
(** * commands/create-page: the route patcher *)
(* ================================================================== *)

Definition seqs (l : list Re.regex) : Re.regex := foldr Re.Seq Re.Empty l.

Definition space : Re.regex := Re.Chr Js.isSpace.
Definition quote : Re.regex := Re.Chr (Re.oneOf (dq ++ str "'")).
Definition notBrace : Re.regex := Re.Chr (Re.noneOf (str "}")).

(** [/import\s+{([^}]+)}\s+from\s+[QQ]hono\/utils\/http-status[QQ];?/]
    where [QQ] stands for the class of the two quote characters. *)
Definition re_statusImport : Re.regex :=
  seqs [Re.Lit (str "import"); Re.Plus space; Re.Lit (str "{");
        Re.Group (Re.Plus notBrace); Re.Lit (str "}"); Re.Plus space;
        Re.Lit (str "from"); Re.Plus space; quote;
        Re.Lit (str "hono/utils/http-status"); quote;
        Re.Opt (Re.Lit (str ";"))].

(** [/import {([^}]+)} from [QQ]@shared\/types\/request-response-schemas[QQ];/] *)
Definition re_schemasImport : Re.regex :=
  seqs [Re.Lit (str "import {"); Re.Group (Re.Plus notBrace);
        Re.Lit (str "} from "); quote;
        Re.Lit (str "@shared/types/request-response-schemas"); quote;
        Re.Lit (str ";")].

(** [/,\s*$/] *)
Definition re_trailingComma : Re.regex :=
  seqs [Re.Lit (str ","); Re.Star space; Re.Eol].

Definition statusCode : text := str "ContentfulStatusCode".

Definition loadResponseSchema (capitalizedName : text) : text :=
  str "Load" ++ capitalizedName ++ str "ResponseSchema".

Definition statusImportLine : text :=
  str "import { ContentfulStatusCode } from " ++ dq ++
  str "hono/utils/http-status" ++ dq ++ str ";" ++ nl.

(** "Add ContentfulStatusCode import if not present" *)
Definition addStatusImport (routesContent updatedContent : text) : text :=
  if negb (Js.includes routesContent statusCode) then
    match Re.exec re_statusImport updatedContent with
    | None =>
        let firstImportEnd :=
          Js.indexOfFrom updatedContent nl
            (Js.indexOf updatedContent (str "import")) in
        if negb (firstImportEnd =? -1) then
          Js.slice updatedContent 0 (firstImportEnd + 1) ++
          statusImportLine ++
          Js.sliceFrom updatedContent (firstImportEnd + 1)
        else updatedContent
    | Some contentfulImportMatch =>
        let existingImports := Js.trim (Re.group1 contentfulImportMatch) in
        if negb (Js.includes existingImports statusCode) then
          let newImports :=
            Re.replace existingImports re_trailingComma [] ++
            str ", ContentfulStatusCode" in
          Js.replace updatedContent (Re.whole contentfulImportMatch)
            (str "import { " ++ newImports ++ str " } from " ++ dq ++
             str "hono/utils/http-status" ++ dq ++ str ";")
        else updatedContent
    end
  else updatedContent.

Definition schemaImportsAppended (capitalizedName cleanedImports : text) : text :=
  cleanedImports ++ str ",
  " ++ loadResponseSchema capitalizedName ++ str ",
  Save" ++ capitalizedName ++ str "RequestSchema,
  Save" ++ capitalizedName ++ str "ResponseSchema".

Definition schemaImportStatement (newImports : text) : text :=
  str "import {" ++ newImports ++ str "
} from " ++ dq ++ str "@shared/types/request-response-schemas" ++ dq ++ str ";".

Definition schemaImportToAdd (capitalizedName : text) : text :=
  str "import {
  " ++ loadResponseSchema capitalizedName ++ str ",
  Save" ++ capitalizedName ++ str "RequestSchema,
  Save" ++ capitalizedName ++ str "ResponseSchema,
} from " ++ dq ++ str "@shared/types/request-response-schemas" ++ dq ++ str ";
".

(** "Add schema imports if not present" *)
Definition addSchemaImports (capitalizedName routesContent updatedContent : text)
  : text :=
  if negb (Js.includes routesContent (loadResponseSchema capitalizedName)) then
    match Re.exec re_schemasImport routesContent with
    | Some importMatch =>
        let existingImports := Js.trim (Re.group1 importMatch) in
        let cleanedImports := Re.replace existingImports re_trailingComma [] in
        let newImports := schemaImportsAppended capitalizedName cleanedImports in
        Js.replace updatedContent (Re.whole importMatch)
          (schemaImportStatement newImports)
    | None =>
        let firstImportIndex := Js.indexOf updatedContent (str "import") in
        if negb (firstImportIndex =? -1) then
          Js.slice updatedContent 0 firstImportIndex ++
          schemaImportToAdd capitalizedName ++
          Js.sliceFrom updatedContent firstImportIndex
        else updatedContent
    end
  else updatedContent.

Definition routesToAdd (name capitalizedName : text) : text :=
  str "
// " ++ capitalizedName ++ str " endpoints
app.get(" ++ dq ++ str "/api/" ++ name ++ str "/load" ++ dq ++ str ", async (c) => {
  const user = await getAuthenticatedUser(c);
  if (!user) {
    return sendError(c, 401, " ++ dq ++ str "Unauthorized" ++ dq ++ str ");
  }

  const shardId = c.env.USER_SHARD.idFromName(user.id);
  const userShard = c.env.USER_SHARD.get(shardId);

  const result = await userShard.load" ++ capitalizedName ++ str "(user.id);

  if (" ++ dq ++ str "error" ++ dq ++ str " in result) {
    return sendError(c, 500, result.error);
  }

  return send(c, " ++ loadResponseSchema capitalizedName ++ str ", result, 200);
});

app.post(
  " ++ dq ++ str "/api/" ++ name ++ str "/save" ++ dq ++ str ",
  zValidator(" ++ dq ++ str "json" ++ dq ++ str ", Save" ++ capitalizedName ++ str "RequestSchema),
  async (c) => {
    try {
      const user = await getAuthenticatedUser(c);
      if (!user) {
        return sendError(c, 401, " ++ dq ++ str "Unauthorized" ++ dq ++ str ");
      }

      const { events } = c.req.valid(" ++ dq ++ str "json" ++ dq ++ str ");

      const shardId = c.env.USER_SHARD.idFromName(user.id);
      const userShard = c.env.USER_SHARD.get(shardId);

      const result = await userShard.save" ++ capitalizedName ++ str "(user.id, events);
      if (" ++ dq ++ str "error" ++ dq ++ str " in result) {
        return sendError(c, result.statusCode as ContentfulStatusCode, result.error);
      }

      return send(c, Save" ++ capitalizedName ++ str "ResponseSchema, result, 200);
    } catch (error) {
      console.error(" ++ dq ++ str "Error saving " ++ name ++ str ":" ++ dq ++ str ", error);
      return sendError(c, 500, " ++ dq ++ str "Internal server error" ++ dq ++ str ");
    }
  }
);
".

Definition catchall : text := str "app.get(" ++ dq ++ str "*" ++ dq.

(** "Find the 404 catchall route and add routes before it", else before
    the last [export default], else at the end. *)
Definition insertRoutes (name capitalizedName updatedContent : text) : text :=
  let catchallIndex := Js.indexOf updatedContent catchall in
  if negb (catchallIndex =? -1) then
    Js.slice updatedContent 0 catchallIndex ++
    routesToAdd name capitalizedName ++ nl ++
    Js.sliceFrom updatedContent catchallIndex
  else
    let exportDefaultIndex :=
      Js.lastIndexOf updatedContent (str "export default") in
    if negb (exportDefaultIndex =? -1) then
      Js.slice updatedContent 0 exportDefaultIndex ++
      routesToAdd name capitalizedName ++ nl ++
      Js.sliceFrom updatedContent exportDefaultIndex
    else
      updatedContent ++ routesToAdd name capitalizedName.

(** The text [addRoutesToIndex] writes back for the text it has read. *)
Definition patchRoutes (name capitalizedName routesContent : text) : text :=
  insertRoutes name capitalizedName
    (addSchemaImports capitalizedName routesContent
       (addStatusImport routesContent routesContent)).

Definition addRoutesToIndex (name routesPath : text) : M unit :=
  emit (SpinnerStart (str "Adding routes to index.ts...")) ;;
  capitalizedName <- liftE (toPascalCase name) ;;
  found <- pathExists routesPath ;;
  if negb found then
    emit (SpinnerWarn (str "Routes file not found at " ++ routesPath ++
                       str ", skipping route generation"))
  else
    routesContent <- readFile routesPath ;;
    writeFile routesPath (patchRoutes name capitalizedName routesContent) ;;
    emit (SpinnerSucceed (str "Added routes to index.ts")).

(* ================================================================== *)
(** * commands/create-page: the UserShard patcher *)
(* ================================================================== *)

(** [/import (?:type )?{([^}]+)} from [QQ]@shared\/types\/request-response-schemas[QQ];/] *)
Definition re_shardSchemasImport : Re.regex :=
  seqs [Re.Lit (str "import "); Re.Opt (Re.Lit (str "type "));
        Re.Lit (str "{"); Re.Group (Re.Plus notBrace);
        Re.Lit (str "} from "); quote;
        Re.Lit (str "@shared/types/request-response-schemas"); quote;
        Re.Lit (str ";")].

(** [/import (?:type )?{([^}]+)} from [QQ]@shared\/types\/${camelName}Events[QQ];/]:
    a regular expression literal, in which nothing is interpolated: the
    dollar sign is the end-of-input assertion and the braces and the word
    [camelName] are ordinary characters. *)
Definition re_eventsImport : Re.regex :=
  seqs [Re.Lit (str "import "); Re.Opt (Re.Lit (str "type "));
        Re.Lit (str "{"); Re.Group (Re.Plus notBrace);
        Re.Lit (str "} from "); quote;
        Re.Lit (str "@shared/types/"); Re.Eol;
        Re.Lit (str "{camelName}Events"); quote;
        Re.Lit (str ";")].

Definition schemasModule : text := str "@shared/types/request-response-schemas".

Definition shardImportToAdd (capitalizedName : text) : text :=
  str "import { ErrorResponse, Load" ++ capitalizedName ++ str "Response, Save" ++ capitalizedName ++ str "Response } from " ++ dq ++ str "@shared/types/request-response-schemas" ++ dq ++ str ";" ++ nl.

(** "Add imports from request-response-schemas" *)
Definition addShardSchemaImports (capitalizedName updatedContent : text) : text :=
  if negb (Js.includes updatedContent
             (str "Load" ++ capitalizedName ++ str "Response")) then
    match Re.exec re_shardSchemasImport updatedContent with
    | Some importMatch =>
        let existingImports := Js.trim (Re.group1 importMatch) in
        let existingImportsList := map Js.trim (Js.split "," existingImports) in
        let importsToAdd :=
          [str "Load" ++ capitalizedName ++ str "Response";
           str "Save" ++ capitalizedName ++ str "Response"] in
        let importsToAdd :=
          if negb (Js.arrayIncludes existingImportsList (str "ErrorResponse"))
          then str "ErrorResponse" :: importsToAdd else importsToAdd in
        let newImportsList :=
          List.filter (fun imp => negb (Js.arrayIncludes existingImportsList imp))
                      importsToAdd in
        if Nat.ltb 0 (length newImportsList) then
          let cleanedImports := Re.replace existingImports re_trailingComma [] in
          let newImports :=
            cleanedImports ++ str ", " ++ Js.join (str ", ") newImportsList in
          Js.replace updatedContent (Re.whole importMatch)
            (str "import { " ++ newImports ++ str " } from " ++ dq ++
             schemasModule ++ dq ++ str ";")
        else updatedContent
    | None =>
        let firstImportIndex := Js.indexOf updatedContent (str "import") in
        if negb (firstImportIndex =? -1) then
          Js.slice updatedContent 0 firstImportIndex ++
          shardImportToAdd capitalizedName ++
          Js.sliceFrom updatedContent firstImportIndex
        else updatedContent
    end
  else updatedContent.

Definition eventNames (capitalizedName : text) : text :=
  capitalizedName ++ str "Event, " ++ capitalizedName ++ str "Change, " ++
  capitalizedName ++ str "EventResult, handle" ++ capitalizedName ++
  str "Change".

(** "Add imports from events file" *)
Definition addShardEventImports (capitalizedName camelName updatedContent : text)
  : text :=
  if negb (Js.includes updatedContent (capitalizedName ++ str "Event")) then
    match Re.exec re_eventsImport updatedContent with
    | Some eventsImportMatch =>
        let existingImports := Js.trim (Re.group1 eventsImportMatch) in
        let cleanedImports := Re.replace existingImports re_trailingComma [] in
        let newImports := cleanedImports ++ str ", " ++ eventNames capitalizedName in
        Js.replace updatedContent (Re.whole eventsImportMatch)
          (str "import { " ++ newImports ++ str " } from " ++ dq ++
           str "@shared/types/" ++ camelName ++ str "Events" ++ dq ++ str ";")
    | None =>
        let schemasImportIndex := Js.indexOf updatedContent schemasModule in
        if negb (schemasImportIndex =? -1) then
          let lineEndIndex := Js.indexOfFrom updatedContent nl schemasImportIndex in
          let importToAdd :=
            nl ++ str "import { " ++ eventNames capitalizedName ++
            str " } from " ++ dq ++ str "@shared/types/" ++ camelName ++
            str "Events" ++ dq ++ str ";" in
          Js.slice updatedContent 0 lineEndIndex ++ importToAdd ++
          Js.sliceFrom updatedContent lineEndIndex
        else updatedContent
    end
  else updatedContent.

Definition functionsToAdd (name capitalizedName : text) : text :=
  str "
  async load" ++ capitalizedName ++ str "(userId: string): Promise<Load" ++ capitalizedName ++ str "Response | ErrorResponse> {
    try {
      // TODO: Implement load logic for " ++ name ++ str "
      // Example: Query your schema tables and return data
      const data = {
        // Add your data loading logic here
      };

      return {
        data,
        // Add other response fields as needed
      } as Load" ++ capitalizedName ++ str "Response;
    } catch (error) {
      console.error(" ++ dq ++ str "Error loading " ++ name ++ str ":" ++ dq ++ str ", error);
      return {
        error: " ++ dq ++ str "Failed to load " ++ name ++ dq ++ str ",
        success: false,
        statusCode: 500,
      };
    }
  }

  async save" ++ capitalizedName ++ str "(
    userId: string,
    events: " ++ capitalizedName ++ str "Event[]
  ): Promise<Save" ++ capitalizedName ++ str "Response | ErrorResponse> {
    try {
      const results: " ++ capitalizedName ++ str "EventResult[] = [];
      let processedCount = 0;

      for (const event of events) {
        try {
          // Server adds persistence metadata
          const change: " ++ capitalizedName ++ str "Change = {
            ...event,
            id: crypto.randomUUID(),
            timestamp: Date.now(),
            description: `${event.type} event`,
          };

          const result = await handle" ++ capitalizedName ++ str "Change(
            this.env.DB,
            this.shardDb,
            change
          );

          if (result.success && result.result) {
            results.push(result.result);
            processedCount++;
          }
        } catch (error) {
          console.error(" ++ dq ++ str "Error processing " ++ name ++ str " event:" ++ dq ++ str ", error, event);
        }
      }

      return {
        success: true,
        processedCount,
        totalChanges: events.length,
        results,
      } as Save" ++ capitalizedName ++ str "Response;
    } catch (error) {
      console.error(" ++ dq ++ str "Error saving " ++ name ++ str ":" ++ dq ++ str ", error);
      return {
        error: " ++ dq ++ str "Failed to save " ++ name ++ str " changes" ++ dq ++ str ",
        success: false,
        statusCode: 500,
      };
    }
  }
".

(** "Find the last method in the class and add our functions before the
    closing brace" *)
Definition insertFunctions (name capitalizedName updatedContent : text) : text :=
  let lastBraceIndex := Js.lastIndexOf updatedContent (str "}") in
  if negb (lastBraceIndex =? -1) then
    Js.slice updatedContent 0 lastBraceIndex ++
    functionsToAdd name capitalizedName ++ nl ++
    Js.sliceFrom updatedContent lastBraceIndex
  else updatedContent.

Definition patchUserShard (name capitalizedName camelName userShardContent : text)
  : text :=
  insertFunctions name capitalizedName
    (addShardEventImports capitalizedName camelName
       (addShardSchemaImports capitalizedName userShardContent)).

Definition addUserShardFunctions (name userShardPath : text) : M unit :=
  emit (SpinnerStart (str "Adding UserShard functions...")) ;;
  capitalizedName <- liftE (toPascalCase name) ;;
  camelName <- liftE (toCamelCase name) ;;
  found <- pathExists userShardPath ;;
  if negb found then
    emit (SpinnerWarn (str "UserShard file not found at " ++ userShardPath ++
                       str ", skipping UserShard generation"))
  else
    userShardContent <- readFile userShardPath ;;
    writeFile userShardPath
      (patchUserShard name capitalizedName camelName userShardContent) ;;
    emit (SpinnerSucceed (str "Added UserShard functions")).

(* ================================================================== *)
(** * commands/create-page: the schema step of the dashboard flow *)
(* ================================================================== *)

Definition typesToAppend (capitalizedName camelName : text) : text :=
  str "
// " ++ capitalizedName ++ str " API Types
import type { " ++ capitalizedName ++ str "Event, " ++ capitalizedName ++ str "EventResult } from " ++ dq ++ str "./" ++ camelName ++ str "Events" ++ dq ++ str ";

export const Load" ++ capitalizedName ++ str "RequestSchema = z.object({});

export const " ++ loadResponseSchema capitalizedName ++ str " = z.object({
  data: z.any(), // Update this with your specific data schema
  // Add your response properties here
});

export const Save" ++ capitalizedName ++ str "RequestSchema = z.object({
  events: z.array(z.custom<" ++ capitalizedName ++ str "Event>()),
});

export const Save" ++ capitalizedName ++ str "ResponseSchema = z.object({
  success: z.boolean(),
  processedCount: z.number(),
  totalChanges: z.number(),
  results: z.array(z.custom<" ++ capitalizedName ++ str "EventResult>()),
});

export type Load" ++ capitalizedName ++ str "Request = z.infer<typeof Load" ++ capitalizedName ++ str "RequestSchema>;
export type Load" ++ capitalizedName ++ str "Response = z.infer<typeof " ++ loadResponseSchema capitalizedName ++ str ">;
export type Save" ++ capitalizedName ++ str "Request = z.infer<typeof Save" ++ capitalizedName ++ str "RequestSchema>;
export type Save" ++ capitalizedName ++ str "Response = z.infer<typeof Save" ++ capitalizedName ++ str "ResponseSchema>;".

(** The file created when there is no schemas file yet: the preamble and
    the types of the page. *)
Definition schemasPreamble : text :=
  str "import { z } from " ++ dq ++ str "zod" ++ dq ++ str ";

export const ErrorResponseSchema = z.object({
  success: z.literal(false),
  error: z.string(),
  statusCode: z.number(),
});

export type ErrorResponse = z.infer<typeof ErrorResponseSchema>;
".

Definition schemasContent (capitalizedName camelName : text) : text :=
  schemasPreamble ++ typesToAppend capitalizedName camelName.

(** "Append types to schemas file" (step 8) *)
Definition appendTypesToSchemas (capitalizedName camelName schemasPath : text)
  : M unit :=
  found <- pathExists schemasPath ;;
  if found then
    existingContent <- readFile schemasPath ;;
    let updatedContent := existingContent ++ typesToAppend capitalizedName camelName in
    writeFile schemasPath updatedContent ;;
    emit (SpinnerText (str "Created API client and updated schemas"))
  else
    outputFile schemasPath (schemasContent capitalizedName camelName) ;;
    emit (SpinnerText (str "Created API client and schemas file")).

(* ================================================================== *)
(** * commands/create-page: the flows and the command action *)
(* ================================================================== *)

(** The template text of the client files, which no patcher reads, and
    the two flows that only write templates, are taken as given. *)
Record catalog : Type := Catalog
  { indexHtml : text -> text;
    indexTsx : text -> text;
    mainComponent : text -> text -> text -> text;
    contextFile : text -> text -> text -> text;
    eventProcessor : text -> text -> text -> text;
    apiClientFile : text -> text -> text -> text -> text;
    autosaveService : text -> text -> text;
    undoRedoService : text -> text;
    eventsContent : text -> text -> text -> text;
    integrationInfo : text -> text -> list text;
    createStaticPageFlow : text -> M unit;
    createFeedPageFlow : text -> text -> text -> text -> M unit }.

Record options : Type := Options
  { type : text;
    schemas : text;
    routes : text;
    userShard : text;
    yes : bool }.

Fixpoint logAll (msgs : list text) : M unit :=
  match msgs with
  | [] => ret tt
  | m :: rest => emit (ConsoleLog m) ;; logAll rest
  end.

Section Generator.

Variable tpl : catalog.

Definition createEventsFile (name : text) : M unit :=
  emit (SpinnerStart (str "Creating events file...")) ;;
  capitalizedName <- liftE (toPascalCase name) ;;
  camelName <- liftE (toCamelCase name) ;;
  let snakeName := toScreamingSnakeCase name in
  outputFile (str "shared/types/" ++ camelName ++ str "Events.ts")
    (eventsContent tpl capitalizedName camelName snakeName) ;;
  emit (SpinnerSucceed (str "Created events file")).

Definition createDashboardPageFlow
  (name schemasPath routesPath userShardPath : text) : M unit :=
  capitalizedName <- liftE (toPascalCase name) ;;
  camelName <- liftE (toCamelCase name) ;;
  let pageDir := str "src/client/" ++ name ++ str "/" in
  (* Steps 1 to 3 *)
  emit (SpinnerStart (str "Creating dashboard page structure...")) ;;
  outputFile (pageDir ++ str "index.html") (indexHtml tpl capitalizedName) ;;
  outputFile (pageDir ++ str "index.tsx") (indexTsx tpl capitalizedName) ;;
  outputFile (pageDir ++ capitalizedName ++ str ".tsx")
    (mainComponent tpl name capitalizedName camelName) ;;
  outputFile (pageDir ++ capitalizedName ++ str ".tsx")
    (mainComponent tpl name capitalizedName camelName) ;;
  emit (SpinnerSucceed (str "Created main component")) ;;
  (* Steps 4 and 5 *)
  emit (SpinnerStart (str "Creating context and views...")) ;;
  outputFile (pageDir ++ capitalizedName ++ str "Context.tsx")
    (contextFile tpl name capitalizedName camelName) ;;
  outputFile (pageDir ++ camelName ++ str "EventProcessor.ts")
    (eventProcessor tpl name capitalizedName camelName) ;;
  emit (SpinnerSucceed (str "Created context, event processor, and views")) ;;
  (* Step 7 *)
  emit (SpinnerStart (str "Updating vite.config.ts...")) ;;
  updateViteConfig name ;;
  emit (SpinnerSucceed (str "Updated vite.config.ts")) ;;
  (* Step 8 *)
  emit (SpinnerStart (str "Creating API client and updating types...")) ;;
  outputFile (pageDir ++ capitalizedName ++ str "ApiClient.ts")
    (apiClientFile tpl name capitalizedName camelName schemasPath) ;;
  appendTypesToSchemas capitalizedName camelName schemasPath ;;
  emit (SpinnerSucceed (str "Created API client and updated types")) ;;
  (* Step 9 *)
  emit (SpinnerStart (str "Creating AutosaveService...")) ;;
  outputFile (pageDir ++ capitalizedName ++ str "AutosaveService.ts")
    (autosaveService tpl capitalizedName camelName) ;;
  emit (SpinnerSucceed (str "Created AutosaveService")) ;;
  (* Step 10 *)
  emit (SpinnerStart (str "Creating UndoRedoService...")) ;;
  outputFile (pageDir ++ capitalizedName ++ str "UndoRedoService.ts")
    (undoRedoService tpl capitalizedName) ;;
  emit (SpinnerSucceed (str "Created UndoRedoService")) ;;
  (* Steps 11 to 14 *)
  addRoutesToIndex name routesPath ;;
  addUserShardFunctions name userShardPath ;;
  createEventsFile name ;;
  emit (SpinnerStart (str "Updating vite.config.ts...")) ;;
  updateViteConfig name ;;
  emit (SpinnerSucceed (str "Updated vite.config.ts")) ;;
  (* the notes printed for the server *)
  emit (SpinnerStart (str "Creating API integration info...")) ;;
  logAll (integrationInfo tpl name capitalizedName) ;;
  emit (SpinnerSucceed (str "API integration info created")).

Definition reservedKeywords : list text :=
  map str
    ["abstract"; "arguments"; "await"; "boolean"; "break"; "byte"; "case";
     "catch"; "char"; "class"; "const"; "continue"; "debugger"; "default";
     "delete"; "do"; "double"; "else"; "enum"; "eval"; "export"; "extends";
     "false"; "final"; "finally"; "float"; "for"; "function"; "goto"; "if";
     "implements"; "import"; "in"; "instanceof"; "int"; "interface"; "let";
     "long"; "native"; "new"; "null"; "package"; "private"; "protected";
     "public"; "return"; "short"; "static"; "super"; "switch";
     "synchronized"; "this"; "throw"; "throws"; "transient"; "true"; "try";
     "typeof"; "var"; "void"; "volatile"; "while"; "with"; "yield"]%string.

Definition reservedNames : list text :=
  map str ["index"; "default"; "constructor"; "prototype"]%string.

Definition nameChar (c : ascii) : bool :=
  Js.isLower c || Js.isDigit c || Js.isChar "-" c.

(** [/^[a-z][a-z0-9-]*$/] *)
Definition re_shape : Re.regex :=
  seqs [Re.Bol; Re.Chr Js.isLower; Re.Star (Re.Chr nameChar); Re.Eol].

(** [/\s/] *)
Definition re_space : Re.regex := space.

Definition pagePath (name : text) : text := str "src/client/" ++ name.

(** The checks of the action, from the first to the collision guard. *)
Definition validate (name : text) : M unit :=
  failIf (Nat.eqb (length name) 0 || Nat.eqb (length (Js.trim name)) 0)
    (str "Page name cannot be empty") ;;
  failIf (Re.test re_space name)
    (str "Page name cannot contain spaces or whitespace") ;;
  failIf (negb (Re.test re_shape name))
    (str "Page name must start with a letter and contain only lowercase letters, numbers, and hyphens") ;;
  failIf (Js.includes name (str "--"))
    (str "Page name cannot contain consecutive hyphens") ;;
  failIf (Js.startsWith name (str "-") || Js.endsWith name (str "-"))
    (str "Page name cannot start or end with a hyphen") ;;
  failIf (Js.arrayIncludes reservedKeywords name)
    (str "Page name " ++ dq ++ name ++ dq ++
     str " is a reserved JavaScript/TypeScript keyword") ;;
  failIf (Js.arrayIncludes reservedNames name)
    (str "Page name " ++ dq ++ name ++ dq ++
     str " is a reserved name and might cause conflicts") ;;
  tryCatch
    (liftE (toPascalCase name) ;; liftE (toCamelCase name) ;; ret tt)
    (fun error =>
       emit (ConsoleError (str "Invalid page name: " ++ error)) ;; exit 1) ;;
  found <- pathExists (pagePath name) ;;
  failIf found
    (str "Page " ++ dq ++ name ++ dq ++ str " already exists at " ++
     pagePath name).

Definition isType (o : options) (t : string) : bool :=
  bool_decide (type o = str t).

Definition generate (name : text) (o : options) : M unit :=
  tryCatch
    ((if isType o "static" then createStaticPageFlow tpl name
      else if isType o "feed" then
        createFeedPageFlow tpl name (schemas o) (routes o) (userShard o)
      else
        createDashboardPageFlow name (schemas o) (routes o) (userShard o)) ;;
     emit (ConsoleLog (nl ++ Js.toUpperCase (Js.charAt (type o) 0) ++
                       Js.sliceFrom (type o) 1 ++ str " page " ++ dq ++
                       name ++ dq ++ str " created successfully!" ++ nl)) ;;
     emit (ConsoleLog (str "Next steps:")) ;;
     emit (ConsoleLog (str "1. Navigate to http://localhost:3000/" ++ name)) ;;
     emit (ConsoleLog (str "2. Customize the page content")) ;;
     if isType o "dashboard" then
       emit (ConsoleLog (str "3. Update the load endpoint in your server")) ;;
       emit (ConsoleLog (str "4. Add change event handlers if needed")) ;;
       emit (ConsoleLog (str "5. Customize the views and context as needed"))
     else ret tt)
    (fun error =>
       emit (SpinnerFail (str "Page creation failed")) ;;
       emit (ConsoleError (str "Error: " ++ error)) ;;
       exit 1).

(** The action of the [create-page] command.  Colour codes and the
    pictographs of the console messages are left out. *)
Definition createPage (name : text) (o : options) : M unit :=
  emit (ConsoleLog (nl ++ str "Creating " ++ type o ++ str " page: " ++
                    name ++ nl)) ;;
  validate name ;;
  proceed <- (if negb (yes o) then
                confirm (str "Create a " ++ type o ++ str " page at " ++
                         pagePath name ++ str "?")
              else ret true) ;;
  if negb proceed then
    emit (ConsoleLog (str "Page creation cancelled"))
  else generate name o.

End Generator.

(** The first complaint of the checks that do not touch the file system,
    in the order of [validate]; [None] for a name that passes them. *)
Definition nameProblem (name : text) : option text :=
  if Nat.eqb (length name) 0 || Nat.eqb (length (Js.trim name)) 0 then
    Some (str "Page name cannot be empty")
  else if Re.test re_space name then
    Some (str "Page name cannot contain spaces or whitespace")
  else if negb (Re.test re_shape name) then
    Some (str "Page name must start with a letter and contain only lowercase letters, numbers, and hyphens")
  else if Js.includes name (str "--") then
    Some (str "Page name cannot contain consecutive hyphens")
  else if Js.startsWith name (str "-") || Js.endsWith name (str "-") then
    Some (str "Page name cannot start or end with a hyphen")
  else if Js.arrayIncludes reservedKeywords name then
    Some (str "Page name " ++ dq ++ name ++ dq ++
          str " is a reserved JavaScript/TypeScript keyword")
  else if Js.arrayIncludes reservedNames name then
    Some (str "Page name " ++ dq ++ name ++ dq ++
          str " is a reserved name and might cause conflicts")
  else
    match toPascalCase name, toCamelCase name with
    | Raised error, _ => Some (str "Invalid page name: " ++ error)
    | Value _, Raised error => Some (str "Invalid page name: " ++ error)
    | Value _, Value _ => None
    end.

Definition banner (name : text) (o : options) : text :=
  nl ++ str "Creating " ++ type o ++ str " page: " ++ name ++ nl.

Definition collision (name : text) : text :=
  str "Page " ++ dq ++ name ++ dq ++ str " already exists at " ++
  pagePath name.

(* ================================================================== *)
(** * commands/create-page: the static flow *)
(* ================================================================== *)

Module Static.

(** [createStaticPageFlow]; the text of the page, which depends on the
    PascalCase name only, is taken as given. *)
Definition createStaticPageFlow (staticHtml : text -> text) (name : text) : M unit :=
  emit (SpinnerStart (str "Creating static HTML page...")) ;;
  capitalizedName <- liftE (toPascalCase name) ;;
  outputFile (str "src/client/" ++ name ++ str "/index.html")
    (staticHtml capitalizedName) ;;
  emit (SpinnerSucceed (str "Created static HTML page")) ;;
  emit (SpinnerStart (str "Updating vite.config.ts...")) ;;
  updateViteConfig name ;;
  emit (SpinnerSucceed (str "Updated vite.config.ts")).

End Static.

(* ================================================================== *)
(** * utils/abstractions: [createPricingAbstractions] *)
(* ================================================================== *)

Definition abstractionsFile : text := str "src/server/pricing/index.ts".

Definition pricingIndexContent : text :=
  str "export { check, track, changeSubscription, tiers } from './index';".

(** The second [outputFile] names the file by its relative path, which
    is the path of the first. *)
Definition createPricingAbstractions (content : text) : M unit :=
  outputFile abstractionsFile content ;;
  outputFile (str "src/server/pricing/index.ts") pricingIndexContent.

(* ================================================================== *)
(** * commands/init: what the [catch] block reports *)
(* ================================================================== *)

(** The console lines of the [catch] block of the [init] action, for an
    error with the given [message] ([None] when the error has none);
    [shown] is the rendering of the error itself, printed when the message
    is missing or empty. *)
Definition reportInitError (message : option text) (shown : text) : list event :=
  let mentions (part : string) :=
    match message with
    | Some m => Js.includes m (str part)
    | None => false
    end in
  if mentions "git" then
    [ConsoleError (nl ++ str "Error: Git is not installed or not in PATH");
     ConsoleError (str "Please install git and try again: https://git-scm.com/downloads")]
  else if mentions "npm" then
    [ConsoleError (nl ++ str "Error: npm is not installed or not in PATH");
     ConsoleError (str "Please install Node.js and npm: https://nodejs.org/")]
  else if mentions "Could not resolve host" then
    [ConsoleError (nl ++ str "Error: Unable to connect to GitHub");
     ConsoleError (str "Please check your internet connection and try again")]
  else
    [ConsoleError (str "Error: " ++
       match message with
       | Some (c :: m) => c :: m
       | _ => shown
       end)].

(* ================================================================== *)
(** * commands/create-page: the UserShard patcher of the feed flow *)
(* ================================================================== *)

(** [new RegExp(`import (?:type )?{([^}]+)} from [QQ]@shared\\/types\\/${camelName}Events[QQ];`)]:
    a template string, so that [camelName] is part of the pattern.  It is
    read as a literal: [toCamelCase] gives letters and digits only for
    every name the action accepts, and these stand for themselves. *)
Definition re_feedEventsImport (camelName : text) : Re.regex :=
  seqs [Re.Lit (str "import "); Re.Opt (Re.Lit (str "type "));
        Re.Lit (str "{"); Re.Group (Re.Plus notBrace);
        Re.Lit (str "} from "); quote;
        Re.Lit (str "@shared/types/" ++ camelName ++ str "Events"); quote;
        Re.Lit (str ";")].

(** "Add imports from events file" *)
Definition addFeedShardEventImports (capitalizedName camelName updatedContent : text)
  : text :=
  if negb (Js.includes updatedContent (capitalizedName ++ str "Event")) then
    match Re.exec (re_feedEventsImport camelName) updatedContent with
    | Some eventsImportMatch =>
        let existingImports := Js.trim (Re.group1 eventsImportMatch) in
        let cleanedImports := Re.replace existingImports re_trailingComma [] in
        let newImports := cleanedImports ++ str ", " ++ eventNames capitalizedName in
        Js.replace updatedContent (Re.whole eventsImportMatch)
          (str "import { " ++ newImports ++ str " } from " ++ dq ++
           str "@shared/types/" ++ camelName ++ str "Events" ++ dq ++ str ";")
    | None =>
        let schemasImportIndex := Js.indexOf updatedContent schemasModule in
        if negb (schemasImportIndex =? -1) then
          let lineEndIndex := Js.indexOfFrom updatedContent nl schemasImportIndex in
          let importToAdd :=
            nl ++ str "import { " ++ eventNames capitalizedName ++
            str " } from " ++ dq ++ str "@shared/types/" ++ camelName ++
            str "Events" ++ dq ++ str ";" in
          Js.slice updatedContent 0 lineEndIndex ++ importToAdd ++
          Js.sliceFrom updatedContent lineEndIndex
        else updatedContent
    end
  else updatedContent.

Definition feedFunctionsToAdd (name capitalizedName : text) : text :=
  str "
  async load" ++ capitalizedName ++ str "(
    userId: string,
    continuationToken?: string
  ): Promise<Load" ++ capitalizedName ++ str "Response | ErrorResponse> {
    try {
      // TODO: Implement your feed algorithm here
      return {
        feedData: [],
        continuationToken: undefined,
      };
    } catch (error) {
      console.error(" ++ dq ++ str "Error loading " ++ name ++ str ":" ++ dq ++ str ", error);
      return {
        error: " ++ dq ++ str "Failed to load " ++ name ++ dq ++ str ",
        success: false,
        statusCode: 500,
      };
    }
  }

  async save" ++ capitalizedName ++ str "(
    userId: string,
    events: " ++ capitalizedName ++ str "Event[]
  ): Promise<Save" ++ capitalizedName ++ str "Response | ErrorResponse> {
    try {
      const results: " ++ capitalizedName ++ str "EventResult[] = [];
      let processedCount = 0;

      for (const event of events) {
        try {
          // Server adds persistence metadata
          const change: " ++ capitalizedName ++ str "Change = {
            ...event,
            id: crypto.randomUUID(),
            timestamp: Date.now(),
            description: `${event.type} event`,
          };

          const result = await handle" ++ capitalizedName ++ str "Change(
            this.env.DB,
            this.shardDb,
            change
          );

          if (result.success && result.result) {
            results.push(result.result);
            processedCount++;
          }
        } catch (error) {
          console.error(" ++ dq ++ str "Error processing feed event:" ++ dq ++ str ", error, event);
        }
      }

      return {
        success: true,
        processedCount,
        totalChanges: events.length,
        results,
      } as Save" ++ capitalizedName ++ str "Response;
    } catch (error) {
      console.error(" ++ dq ++ str "Error saving feed:" ++ dq ++ str ", error);
      return {
        error: " ++ dq ++ str "Failed to save feed changes" ++ dq ++ str ",
        success: false,
        statusCode: 500,
      };
    }
  }
".

Definition insertFeedFunctions (name capitalizedName updatedContent : text) : text :=
  let lastBraceIndex := Js.lastIndexOf updatedContent (str "}") in
  if negb (lastBraceIndex =? -1) then
    Js.slice updatedContent 0 lastBraceIndex ++
    feedFunctionsToAdd name capitalizedName ++ nl ++
    Js.sliceFrom updatedContent lastBraceIndex
  else updatedContent.

Definition patchFeedUserShard (name capitalizedName camelName userShardContent : text)
  : text :=
  insertFeedFunctions name capitalizedName
    (addFeedShardEventImports capitalizedName camelName
       (addShardSchemaImports capitalizedName userShardContent)).

Definition addFeedUserShardFunctions (name userShardPath : text) : M unit :=
  emit (SpinnerStart (str "Adding UserShard functions...")) ;;
  capitalizedName <- liftE (toPascalCase name) ;;
  camelName <- liftE (toCamelCase name) ;;
  found <- pathExists userShardPath ;;
  if negb found then
    emit (SpinnerWarn (str "UserShard file not found at " ++ userShardPath ++
                       str ", skipping UserShard generation"))
  else
    userShardContent <- readFile userShardPath ;;
    writeFile userShardPath
      (patchFeedUserShard name capitalizedName camelName userShardContent) ;;
    emit (SpinnerSucceed (str "Added UserShard functions")).

(* ================================================================== *)
(** * Notions and sample data for the statements *)
(* ================================================================== *)

Definition okPart (part : text) : Prop :=
  part <> [] /\ forallb lowerOrDigit part = true.

Definition alnum (c : ascii) : bool :=
  Js.isLower c || Js.isDigit c || Js.isUpper c.

Definition special (c : ascii) : bool :=
  Js.isChar "$" c || Js.isChar "&" c || Js.isChar "`" c || Js.isChar "'" c.


Definition routesDone (w : world) (routesPath updated : text) : world :=
  logged (stored (logged w [SpinnerStart (str "Adding routes to index.ts...");
                            FsPathExists routesPath;
                            FsReadFile routesPath;
                            FsWriteFile routesPath updated])
                 routesPath updated)
         [SpinnerSucceed (str "Added routes to index.ts")].

(** A small routes file with a catch-all route. *)
Definition sampleRoutes : text :=
  str "import { Hono } from 'hono';
const app = new Hono();
app.get(" ++ dq ++ str "*" ++ dq ++ str ", (c) => c.notFound());
export default app;
".

(** A routes file with neither a catch-all route nor a default export. *)
Definition bareRoutes : text :=
  str "import { Hono } from 'hono';
const app = new Hono();
".

Definition routesFile : text := str "src/index.ts".

Definition worldWith (path content : text) : world :=
  {| files := {[ path := File content ]}; answers := []; trace := [] |}.

Definition fileOf (w : world) (path : text) : text :=
  match files w !! path with Some (File c) => c | _ => [] end.

Definition isWarning (e : event) : bool :=
  match e with
  | ConsoleWarn _ | SpinnerWarn _ => true
  | _ => false
  end.

(** [t] is a piece of [s]. *)
Definition within (t s : text) : Prop := exists p q, s = p ++ t ++ q.

Definition statusTail : text :=
  str " ContentfulStatusCode } from " ++ dq ++ str "hono/utils/http-status" ++ dq.

Definition schemasTail : text :=
  str "} from " ++ dq ++ str "@shared/types/request-response-schemas" ++ dq.

Definition statusStatement (kept : text) : text :=
  str "import { " ++ (kept ++ str ", ContentfulStatusCode") ++ str " } from " ++
  dq ++ str "hono/utils/http-status" ++ dq ++ str ";".

Definition ident (l cap r : text) : text := str "  " ++ l ++ cap ++ r.

(** The configuration file of the repository's test project
    (test/vite.config.ts). *)
Definition testViteConfig : text :=
  str "import { defineConfig } from " ++ dq ++ str "vite" ++ dq ++ str ";
import solid from " ++ dq ++ str "vite-plugin-solid" ++ dq ++ str ";
import { resolve } from " ++ dq ++ str "path" ++ dq ++ str ";

export default defineConfig({
  plugins: [solid()],
  appType: " ++ dq ++ str "mpa" ++ dq ++ str ",
  root: " ++ dq ++ str "src/client" ++ dq ++ str ",
  publicDir: " ++ dq ++ str "../../public" ++ dq ++ str ",
  build: {
    outDir: " ++ dq ++ str "../../dist/client" ++ dq ++ str ",
    emptyOutDir: true,
    target: " ++ dq ++ str "esnext" ++ dq ++ str ",
    rollupOptions: {
      input: {
        main: resolve(__dirname, " ++ dq ++ str "src/client/index.html" ++ dq ++ str "),
      },
    },
  },
  resolve: {
    alias: {
      " ++ dq ++ str "~" ++ dq ++ str ": resolve(__dirname, " ++ dq ++ str "./src" ++ dq ++ str "),
      " ++ dq ++ str "@shared" ++ dq ++ str ": resolve(__dirname, " ++ dq ++ str "./shared" ++ dq ++ str "),
    },
  },
  server: {
    host: true,
    port: 3000,
    strictPort: true,
  },
  esbuild: {
    jsx: " ++ dq ++ str "preserve" ++ dq ++ str ",
    jsxImportSource: " ++ dq ++ str "solid-js" ++ dq ++ str ",
  },
});".

(** A configuration without a mapping. *)
Definition plainViteConfig : text :=
  str "import { defineConfig } from " ++ dq ++ str "vite" ++ dq ++ str ";
export default defineConfig({ plugins: [] });
".

(** A server entry file that mounts nothing and does not listen. *)
Definition sampleServer : text :=
  str "import { Hono } from 'hono';
const app = new Hono();
export default app;
".

(** A catalog with empty templates and flows that do nothing. *)
Definition emptyCatalog : catalog :=
  {| indexHtml := fun _ => [];
     indexTsx := fun _ => [];
     mainComponent := fun _ _ _ => [];
     contextFile := fun _ _ _ => [];
     eventProcessor := fun _ _ _ => [];
     apiClientFile := fun _ _ _ _ => [];
     autosaveService := fun _ _ => [];
     undoRedoService := fun _ => [];
     eventsContent := fun _ _ _ => [];
     integrationInfo := fun _ _ => [];
     createStaticPageFlow := fun _ => ret tt;
     createFeedPageFlow := fun _ _ _ _ => ret tt |}.

Definition defaultOptions : options :=
  {| type := str "dashboard";
     schemas := str "shared/types/request-response-schemas.ts";
     routes := str "src/index.ts";
     userShard := str "src/durable-objects/user-shard/UserShard.ts";
     yes := true |}.

Definition emptyWorld : world :=
  {| files := ∅; answers := []; trace := [] |}.

Definition worldWithDir (path : text) : world :=
  {| files := {[ path := Dir ]}; answers := []; trace := [] |}.

(** The dollar sign matters for the appending at the end of the file: in
    this routes file, without catch-all route and without default export,
    the import list holds a replacement pattern; its expansion brings the
    words export and default together, and the route block is inserted
    before them. *)
Definition trapRoutes : text :=
  str " default app;
import {export$`} from " ++ dq ++ str "@shared/types/request-response-schemas" ++ dq ++ str ";
".

(** An expression without the two assertions [^] and [$]: what it matches
    does not depend on where the text stands. *)
Fixpoint unanchored (r : Re.regex) : bool :=
  match r with
  | Re.Seq r1 r2 | Re.Alt r1 r2 => unanchored r1 && unanchored r2
  | Re.Star r1 | Re.Group r1 => unanchored r1
  | Re.Bol | Re.Eol => false
  | _ => true
  end.

(** The checks of [validate] that can reject a name which the others
    accept: the shape, the double hyphen, the hyphen at the end and the
    two lists of reserved words. *)
Definition acceptable (name : text) : bool :=
  Re.test re_shape name &&
  negb (Js.includes name (str "--")) &&
  negb (Js.endsWith name (str "-")) &&
  negb (Js.arrayIncludes reservedKeywords name) &&
  negb (Js.arrayIncludes reservedNames name).

(** The character of [toScreamingSnakeCase] for a character of the name. *)
Definition snakeChar (c : ascii) : ascii :=
  if Js.isChar "-" (Js.upperChar c) then "_"%char else Js.upperChar c.

(** The text that [addToSchema] starts from: the content of the schema
    file, or the base schema when there is no such file. *)
Definition schemaBefore (w : world) (type : schemaType) : text :=
  match files w !! schemaFile type with
  | Some (File existingContent) => existingContent
  | _ => baseSchema
  end.

Definition otherSchema (type : schemaType) : schemaType :=
  match type with main => sharded | sharded => main end.


(** The world after [addUserShardFunctions] has patched the file. *)
Definition shardDone (w : world) (userShardPath updated : text) : world :=
  logged (stored (logged w [SpinnerStart (str "Adding UserShard functions...");
                            FsPathExists userShardPath;
                            FsReadFile userShardPath;
                            FsWriteFile userShardPath updated])
                 userShardPath updated)
         [SpinnerSucceed (str "Added UserShard functions")].

(** The import line of the events module that the UserShard patcher
    adds. *)
Definition eventsImportLine (capitalizedName camelName : text) : text :=
  str "import { " ++ eventNames capitalizedName ++ str " } from " ++ dq ++
  str "@shared/types/" ++ camelName ++ str "Events" ++ dq ++ str ";".

(** The options of an invocation without [--yes]. *)
Definition askingOptions : options :=
  {| type := str "dashboard";
     schemas := str "shared/types/request-response-schemas.ts";
     routes := str "src/index.ts";
     userShard := str "src/durable-objects/user-shard/UserShard.ts";
     yes := false |}.

(** The options of an invocation with the type of the README, which is
    none of the three that the action knows. *)
Definition dynamicOptions : options :=
  {| type := str "dynamic";
     schemas := str "shared/types/request-response-schemas.ts";
     routes := str "src/index.ts";
     userShard := str "src/durable-objects/user-shard/UserShard.ts";
     yes := true |}.

(** A configuration whose mapping has an entry for user-profile. *)
Definition profileViteConfig : text :=
  str "export default defineConfig({
  build: {
    rollupOptions: {
      input: {
        main: resolve(__dirname, " ++ dq ++ str "src/client/index.html" ++ dq ++ str "),
        user-profile: resolve(__dirname, " ++ dq ++ str "src/client/user-profile/index.html" ++ dq ++ str "),
      },
    },
  },
});".

(** The matches of the mapping expression in the two configurations. *)
Definition profileViteMatch : Re.found :=
  Eval vm_compute in
    match Re.exec re_input profileViteConfig with
    | Some m => m
    | None => Re.Found 0 [] []
    end.

Definition testViteMatch : Re.found :=
  Eval vm_compute in
    match Re.exec re_input testViteConfig with
    | Some m => m
    | None => Re.Found 0 [] []
    end.

(** A server file that listens. *)
Definition listeningServer : text :=
  str "import { Hono } from 'hono';
const app = new Hono();
app.listen(3000);
".

(** A server file of one line, without an import. *)
Definition bareServer : text := str "const app = 1;".

(** A small UserShard file. *)
Definition sampleShard : text :=
  str "import { DurableObject } from " ++ dq ++ str "cloudflare:workers" ++ dq ++ str ";
export class UserShard extends DurableObject {
}
".

(** A UserShard file with an import from the schemas module. *)
Definition importingShard : text :=
  str "import { ErrorResponse } from " ++ dq ++ schemasModule ++ dq ++ str ";
export class UserShard {
}
".

Definition sampleStaticHtml (capitalizedName : text) : text :=
  str "<title>" ++ capitalizedName ++ str " - Template</title>".

(** A routes file with an import from the status module. *)
Definition statusRoutes : text :=
  str "import { Hono } from " ++ dq ++ str "hono" ++ dq ++ str ";
import { StatusCode, } from " ++ dq ++ str "hono/utils/http-status" ++ dq ++ str ";
const app = new Hono();
export default app;
".

(** A routes file with the status name and an import from the schemas
    module. *)
Definition schemaRoutes : text :=
  str "import { ContentfulStatusCode } from " ++ dq ++ str "hono/utils/http-status" ++ dq ++ str ";
import { ErrorResponseSchema } from " ++ dq ++ str "@shared/types/request-response-schemas" ++ dq ++ str ";
export default app;
".

(** A UserShard file with a type-only import from the schemas module. *)
Definition typedShard : text :=
  str "import type { ErrorResponse, SaveUserProfileResponse } from " ++ dq ++
  schemasModule ++ dq ++ str ";
export class UserShard {
}
".

(** A UserShard file with an import from the events file of the page. *)
Definition feedShard : text :=
  str "import { feedHelper } from " ++ dq ++ str "@shared/types/userProfileEvents" ++ dq ++ str ";
export class UserShard {
}
".

Definition firstMatch (r : Re.regex) (s : text) : Re.found :=
  match Re.exec r s with
  | Some m => m
  | None => Re.Found 0 [] []
  end.

Definition statusRoutesMatch : Re.found :=
  Eval vm_compute in firstMatch re_statusImport statusRoutes.

Definition schemaRoutesMatch : Re.found :=
  Eval vm_compute in firstMatch re_schemasImport schemaRoutes.

Definition typedShardMatch : Re.found :=
  Eval vm_compute in firstMatch re_shardSchemasImport typedShard.

Definition feedShardMatch : Re.found :=
  Eval vm_compute in
    firstMatch (re_feedEventsImport (str "userProfile")) feedShard.

(** The fixed words of the import statement of [updateMainServer],
    between the characters that separate them. *)
Definition importWords : list text :=
  map str ["import"; "{"; "webhookRouter"; "outer"; "}"; "from"; ".";
           "api"; ";"]%string.



(** A text without a replacement pattern of [replace]: no dollar sign
    in it is followed by one of the characters that make the forms [$$],
    [$&], [$`] and [$']. *)
Fixpoint noPattern (l : text) : bool :=
  match l with
  | [] => true
  | c :: t =>
      negb (Js.isChar "$" c &&
            match t with d :: _ => special d | [] => false end) &&
      noPattern t
  end.

(** A routes file with neither a catch-all route nor a default export,
    with imports from the two modules and with a template literal. *)
Definition templateRoutes : text :=
  str "import { StatusCode } from " ++ dq ++ str "hono/utils/http-status" ++ dq ++ str ";
import { ErrorResponseSchema } from " ++ dq ++ str "@shared/types/request-response-schemas" ++ dq ++ str ";
const app = new Hono();
app.get(" ++ dq ++ str "/hello" ++ dq ++ str ", (c) => c.text(`Hello ${c.req.query(" ++ dq ++ str "name" ++ dq ++ str ")}`));
".

Definition templateStatusMatch : Re.found :=
  Eval vm_compute in firstMatch re_statusImport templateRoutes.

Definition templateSchemasMatch : Re.found :=
  Eval vm_compute in firstMatch re_schemasImport templateRoutes.








(* ================================================================== *)
(** * Facts *)
(* ================================================================== *)

(* ================================================================== *)
(** * Facts on the string primitives *)
(* ================================================================== *)

Section JsFacts.

Implicit Types s p a b u v : text.

Lemma eqb_true (x y : ascii) : Ascii.eqb x y = true <-> x = y.
Proof. apply Ascii.eqb_eq. Qed.

Lemma startsWith_app p q : Js.startsWith (p ++ q) p = true.
Proof.
  induction p as [|c p IH]; simpl; [done|].
  by rewrite Ascii.eqb_refl, IH.
Qed.

Lemma startsWith_true s p :
  Js.startsWith s p = true -> exists q, s = p ++ q.
Proof.
  revert s; induction p as [|c p IH]; intros s H; simpl in *.
  - by exists s.
  - destruct s as [|d s]; [done|].
    apply andb_true_iff in H as [Hd Hs].
    apply Ascii.eqb_eq in Hd as ->.
    destruct (IH _ Hs) as [q ->]. by exists q.
Qed.

Lemma startsWith_iff s p :
  Js.startsWith s p = true <-> exists q, s = p ++ q.
Proof.
  split; [apply startsWith_true|]. intros [q ->]. apply startsWith_app.
Qed.

Lemma startsWith_nil s : Js.startsWith s [] = true.
Proof. by destruct s. Qed.

(** [find] returns the length of the shortest prefix after which [p]
    starts. *)
Lemma find_Some s p i :
  Js.find s p = Some i ->
  exists q, s = take i s ++ p ++ q /\ (i <= length s)%nat.
Proof.
  revert i; induction s as [|c s IH]; intros i; simpl.
  - destruct (Js.startsWith [] p) eqn:E; [|done].
    intros [= <-]. apply startsWith_true in E as [q E]. exists q.
    split; [done | simpl; lia].
  - destruct (Js.startsWith (c :: s) p) eqn:E.
    + intros [= <-]. apply startsWith_true in E as [q E]. exists q.
      split; [done | lia].
    + destruct (Js.find s p) as [j|] eqn:F; simpl; [|done].
      intros [= <-]. destruct (IH j eq_refl) as (q & Hq & Hj).
      exists q. simpl. split; [by rewrite <- Hq | lia].
Qed.

Lemma find_app a p b : is_Some (Js.find (a ++ p ++ b) p).
Proof.
  induction a as [|c a IH]; simpl.
  - destruct (p ++ b) eqn:E; simpl.
    + destruct p; [done | done].
    + rewrite <- E. rewrite startsWith_app. by eexists.
  - destruct (Js.startsWith _ _); [by eexists|].
    destruct IH as [j ->]. by eexists.
Qed.

Lemma find_None s p :
  Js.find s p = None <-> forall a b, s <> a ++ p ++ b.
Proof.
  split.
  - intros H a b ->. destruct (find_app a p b) as [j Hj]. congruence.
  - intros H. destruct (Js.find s p) as [i|] eqn:E; [|done].
    apply find_Some in E as (q & E & _). by destruct (H _ _ E).
Qed.

Lemma includes_true s p :
  Js.includes s p = true <-> exists a b, s = a ++ p ++ b.
Proof.
  unfold Js.includes. split.
  - destruct (Js.find s p) as [i|] eqn:E; [|done]. intros _.
    apply find_Some in E as (q & E & _). eauto.
  - intros (a & b & ->). by destruct (find_app a p b) as [j ->].
Qed.

Lemma includes_false s p :
  Js.includes s p = false <-> forall a b, s <> a ++ p ++ b.
Proof.
  rewrite <- find_None. unfold Js.includes.
  destruct (Js.find s p); split; congruence.
Qed.

Lemma includes_refl p : Js.includes p p = true.
Proof. apply includes_true. exists [], []. by rewrite app_nil_r. Qed.

Lemma includes_app_l s t p :
  Js.includes s p = true -> Js.includes (s ++ t) p = true.
Proof.
  rewrite !includes_true. intros (a & b & ->). exists a, (b ++ t).
  by rewrite <- !app_assoc.
Qed.

Lemma includes_app_r s t p :
  Js.includes t p = true -> Js.includes (s ++ t) p = true.
Proof.
  rewrite !includes_true. intros (a & b & ->). exists (s ++ a), b.
  by rewrite <- !app_assoc.
Qed.

Lemma includes_trans s m p :
  Js.includes s m = true -> Js.includes m p = true -> Js.includes s p = true.
Proof.
  rewrite !includes_true. intros (a & b & ->) (c & d & ->).
  exists (a ++ c), (d ++ b). by rewrite <- !app_assoc.
Qed.

(** A text without an occurrence has none in its parts. *)
Lemma includes_false_app s t p :
  Js.includes (s ++ t) p = false ->
  Js.includes s p = false /\ Js.includes t p = false.
Proof.
  intros H. split.
  - destruct (Js.includes s p) eqn:E; [|done].
    by rewrite (includes_app_l _ t _ E) in H.
  - destruct (Js.includes t p) eqn:E; [|done].
    by rewrite (includes_app_r s _ _ E) in H.
Qed.

(** An occurrence cannot span a character that the pattern lacks. *)
Lemma occurrence_split (x : ascii) u v a p b :
  x ∉ p -> u ++ x :: v = a ++ p ++ b ->
  (exists a' b', u = a' ++ p ++ b') \/ (exists a' b', v = a' ++ p ++ b').
Proof.
  intros Hx E. apply app_eq_inv in E as [(k & Hu & Hk)|(k & Ha & Hk)].
  - symmetry in Hk. apply app_eq_inv in Hk as [(k' & Hp & Hv)|(k' & Hp & Hv)].
    + left. exists a, k'. by subst.
    + destruct k' as [|y k'].
      * left. exists a, []. rewrite app_nil_r in *. by subst.
      * simpl in Hv. injection Hv as <- _. subst p.
        destruct Hx. apply elem_of_app. right. left.
  - destruct k as [|y k].
    + simpl in Hk. destruct p as [|y p].
      * right. exists [], v. done.
      * simpl in Hk. injection Hk as -> _. destruct Hx. left.
    + simpl in Hk. injection Hk as _ ->. right. by exists k, b.
Qed.

Lemma includes_split_at (x : ascii) u v p :
  x ∉ p ->
  Js.includes (u ++ x :: v) p = Js.includes u p || Js.includes v p.
Proof.
  intros Hx. apply eq_true_iff_eq.
  rewrite orb_true_iff, !includes_true. split.
  - intros (a & b & E). by apply (occurrence_split x u v a p b).
  - intros [(a & b & ->)|(a & b & ->)].
    + exists a, (b ++ x :: v). by rewrite <- !app_assoc.
    + exists (u ++ x :: a), b. by rewrite <- !app_assoc.
Qed.

End JsFacts.

Ltac find_piece :=
  first
    [ apply includes_refl
    | solve [vm_compute; reflexivity]
    | apply includes_app_l; first [apply includes_refl | solve [vm_compute; reflexivity]]
    | apply includes_app_r; find_piece ].

(* ================================================================== *)
(** * Facts on the matcher *)
(* ================================================================== *)

Section ReFacts.

Import Re.

Lemma orElse_Some {A} (x y : option A) (r : A) :
  orElse x y = Some r -> x = Some r \/ (x = None /\ y = Some r).
Proof. destruct x; simpl; intros H; [left | right]; done. Qed.

(** ** Soundness: a match found by [run] is a path of [reaches]. *)

Lemma loop_sound r step k :
  sound r step ->
  forall fuel s x, loop step k fuel s = Some x ->
    exists s', reaches (Star r) s s' /\ k s' = Some x.
Proof.
  intros Hstep. induction fuel as [|fuel IH]; intros s x; simpl.
  - intros H. exists s. split; [apply reach_star_stop | done].
  - intros H. apply orElse_Some in H as [H|[_ H]].
    + apply Hstep in H as (s1 & Hr & H).
      destruct (Nat.ltb (pos s) (pos s1)); [|done].
      apply IH in H as (s2 & Hr2 & H). exists s2. split; [|done].
      by apply reach_star_step with s1.
    + exists s. split; [apply reach_star_stop | done].
Qed.

Lemma run_sound r : sound r (run r).
Proof.
  induction r as [|p|r1 IH1 r2 IH2|r1 IH1 r2 IH2|r1 IH1|r1 IH1| |];
    intros k s x; simpl.
  - intros H. exists s. split; [apply reach_empty | done].
  - destruct (rest s) as [|c t] eqn:E; [done|].
    destruct (p c) eqn:Hp; [|done]. intros H.
    exists (advance s t). split; [by apply reach_chr with c | done].
  - intros H. apply IH1 in H as (s1 & Hr1 & H).
    apply IH2 in H as (s2 & Hr2 & H). exists s2. split; [|done].
    by apply reach_seq with s1.
  - intros H. apply orElse_Some in H as [H|[_ H]].
    + apply IH1 in H as (s1 & Hr & H). exists s1.
      split; [by apply reach_alt_l | done].
    + apply IH2 in H as (s1 & Hr & H). exists s1.
      split; [by apply reach_alt_r | done].
  - intros H. by apply (loop_sound r1 (run r1) k IH1 (S (length (rest s)))).
  - intros H. apply IH1 in H as (s1 & Hr & H).
    exists (capture (pos s) s1). split; [by apply reach_group | done].
  - destruct (Nat.eqb (pos s) 0) eqn:E; [|done]. intros H.
    apply Nat.eqb_eq in E. exists s. split; [by apply reach_bol | done].
  - destruct (rest s) eqn:E; [|done]. intros H.
    exists s. split; [by apply reach_eol | done].
Qed.

(** A path reads a piece of the input and moves the position by its
    length. *)
Lemma reaches_rest r s s' :
  reaches r s s' ->
  exists w, rest s = w ++ rest s' /\ pos s' = (pos s + length w)%nat.
Proof.
  induction 1 as [s|p s c t E Hp|r1 r2 s s1 s2 _ IH1 _ IH2|r1 r2 s s1 _ IH
                 |r1 r2 s s1 _ IH|r s|r s s1 s2 _ IH1 _ IH2|r s s1 _ IH
                 |s E|s E].
  - exists []. simpl. split; [done | lia].
  - exists [c]. simpl. split; [done | lia].
  - destruct IH1 as (w1 & E1 & P1), IH2 as (w2 & E2 & P2).
    exists (w1 ++ w2). rewrite E1, E2, <- app_assoc, length_app.
    split; [done | lia].
  - done.
  - done.
  - exists []. simpl. split; [done | lia].
  - destruct IH1 as (w1 & E1 & P1), IH2 as (w2 & E2 & P2).
    exists (w1 ++ w2). rewrite E1, E2, <- app_assoc, length_app.
    split; [done | lia].
  - destruct IH as (w & E & P). exists w. simpl. done.
  - exists []. simpl. split; [done | lia].
  - exists []. simpl. split; [done | lia].
Qed.

(** ** The scan *)

Lemma scan_Some r i s j m :
  scan r i s = Some (j, m) ->
  exists pre t, s = pre ++ t /\ j = (i + length pre)%nat /\
    run r Some {| pos := j; rest := t; cap := None |} = Some m.
Proof.
  revert i; induction s as [|c s IH]; intros i; simpl.
  - destruct (run r Some _) as [m'|] eqn:E; [|done].
    intros [= <- <-]. exists [], []. simpl. rewrite Nat.add_0_r. done.
  - destruct (run r Some _) as [m'|] eqn:E.
    + intros [= <- <-]. exists [], (c :: s). simpl. rewrite Nat.add_0_r. done.
    + intros H. apply IH in H as (pre & t & -> & -> & H).
      exists (c :: pre), t. simpl. split; [done|]. split; [lia | done].
Qed.

(** The text of a match: the input is the text before, the match, and
    the text after. *)
Lemma scan_extent r s j m :
  scan r 0 s = Some (j, m) ->
  exists mid, s = take j s ++ mid ++ drop (pos m) s /\
    (j <= length s)%nat /\ pos m = (j + length mid)%nat /\
    subtext s j (pos m) = mid /\ rest m = drop (pos m) s /\
    reaches r {| pos := j; rest := drop j s; cap := None |} m.
Proof.
  intros H. apply scan_Some in H as (pre & t & -> & -> & H).
  apply run_sound in H as (s' & Hr & [= ->]).
  destruct (reaches_rest _ _ _ Hr) as (w & E & P). simpl in *.
  exists w. subst t. rewrite P.
  assert (Hd : drop (length pre + length w) (pre ++ w ++ rest m) = rest m).
  { rewrite app_assoc, <- length_app. apply drop_app_length. }
  rewrite Hd, take_app_length, drop_app_length. unfold subtext.
  rewrite drop_app_length.
  replace (length pre + length w - length pre)%nat with (length w) by lia.
  rewrite take_app_length, length_app.
  repeat split; try done; try lia.
Qed.

(** ** Capture groups do not change what is matched. *)

Lemma sameO_orElse x x' y y' :
  sameO x x' -> sameO y y' -> sameO (orElse x y) (orElse x' y').
Proof. destruct x, x'; simpl; done. Qed.

Lemma loop_plain step step' k k' :
  (forall k k', alike k k' -> alike (step k) (step' k')) ->
  alike k k' ->
  forall fuel, alike (loop step k fuel) (loop step' k' fuel).
Proof.
  intros Hstep Hk. induction fuel as [|fuel IH]; intros s s' Hs; simpl.
  - by apply Hk.
  - apply sameO_orElse; [|by apply Hk].
    apply Hstep; [|done]. intros s1 s1' [Hp Hr]. destruct Hs as [Hp0 Hr0].
    rewrite Hp, Hp0. destruct (Nat.ltb _ _); [|done]. by apply IH.
Qed.

Lemma run_plain r k k' : alike k k' -> alike (run r k) (run (plain r) k').
Proof.
  revert k k'.
  induction r as [|p|r1 IH1 r2 IH2|r1 IH1 r2 IH2|r1 IH1|r1 IH1| |];
    intros k k' Hk s s' Hs; simpl.
  - by apply Hk.
  - pose proof Hs as [Hp Hr]. rewrite Hr. destruct (rest s') as [|c t]; [done|].
    destruct (p c); [|done]. apply Hk. split; simpl; [by rewrite Hp | done].
  - apply IH1; [|done]. by apply IH2.
  - apply sameO_orElse; [by apply IH1 | by apply IH2].
  - pose proof Hs as [Hp Hr].
    change (sameO (loop (run r1) k (S (length (rest s))) s)
                  (loop (run (plain r1)) k' (S (length (rest s'))) s')).
    rewrite Hr. apply loop_plain; [apply IH1 | done | done].
  - apply IH1; [|done]. intros s1 s1' [Hp1 Hr1]. apply Hk. by split.
  - pose proof Hs as [Hp Hr]. rewrite Hp. destruct (Nat.eqb _ _); [|done].
    by apply Hk.
  - pose proof Hs as [Hp Hr]. rewrite Hr. destruct (rest s'); [|done].
    by apply Hk.
Qed.

Lemma scan_plain r i s :
  match scan r i s, scan (plain r) i s with
  | Some (a, m), Some (b, m') => a = b /\ pos m = pos m'
  | None, None => True
  | _, _ => False
  end.
Proof.
  revert i; induction s as [|c s IH]; intros i; simpl.
  - assert (H : sameO (run r Some (MState i [] None))
                      (run (plain r) Some (MState i [] None))).
    { apply run_plain; [by intros a b E | done]. }
    destruct (run r Some _), (run (plain r) Some _); simpl in H; try done.
    by destruct H.
  - assert (H : sameO (run r Some (MState i (c :: s) None))
                      (run (plain r) Some (MState i (c :: s) None))).
    { apply run_plain; [by intros a b E | done]. }
    destruct (run r Some _), (run (plain r) Some _); simpl in H; try done.
    + by destruct H.
    + apply IH.
Qed.

(** ** Reading the paths of the building blocks *)

Lemma reaches_Lit l s s' :
  reaches (Lit l) s s' ->
  rest s = l ++ rest s' /\ pos s' = (pos s + length l)%nat /\ cap s' = cap s.
Proof.
  revert s; induction l as [|c l IH]; intros s H; simpl in H.
  - inversion H; subst. simpl. repeat split; lia.
  - inversion H as [| |? ? ? s1 ? H1 H2| | | | | | |]; subst.
    inversion H1 as [|? ? d t E Hd| | | | | | | |]; subst.
    apply Ascii.eqb_eq in Hd as ->.
    apply IH in H2 as (E2 & P2 & C2). simpl in *.
    rewrite E, E2, P2, C2. repeat split; lia.
Qed.

Lemma reaches_star_chr p s s' :
  reaches (Star (Chr p)) s s' ->
  exists w, rest s = w ++ rest s' /\ forallb p w = true /\
    pos s' = (pos s + length w)%nat /\ cap s' = cap s.
Proof.
  remember (Star (Chr p)) as r eqn:Er. intros H.
  induction H as [| | | | |r s|r s s1 s2 H1 _ H2 IH2| | |]; try done.
  - exists []. simpl. repeat split; lia.
  - injection Er as ->.
    inversion H1 as [|? ? c t E Hc| | | | | | | |]; subst.
    destruct (IH2 eq_refl) as (w & E2 & F & P & C). simpl in *.
    exists (c :: w). simpl. rewrite E, E2, Hc, F, P, C. repeat split; lia.
Qed.

End ReFacts.

Section NameFacts.

Import Re.

Lemma reaches_seq_inv r1 r2 s s2 :
  reaches (Seq r1 r2) s s2 -> exists s1, reaches r1 s s1 /\ reaches r2 s1 s2.
Proof. inversion 1; subst; eauto. Qed.

Lemma reaches_chr_inv p s s' :
  reaches (Chr p) s s' ->
  exists c t, rest s = c :: t /\ p c = true /\ s' = advance s t.
Proof. inversion 1; subst; eauto. Qed.

Lemma reaches_empty_inv s s' : reaches Empty s s' -> s' = s.
Proof. by inversion 1. Qed.

Lemma reaches_bol_inv s s' : reaches Bol s s' -> s' = s /\ pos s = 0%nat.
Proof. by inversion 1. Qed.

Lemma reaches_eol_inv s s' : reaches Eol s s' -> s' = s /\ rest s = [].
Proof. by inversion 1. Qed.

Lemma reaches_group_inv r s s2 :
  reaches (Group r) s s2 ->
  exists s1, reaches r s s1 /\ s2 = capture (pos s) s1.
Proof. inversion 1; subst; eauto. Qed.

Lemma test_scan r s :
  test r s = true -> exists j m, scan r 0 s = Some (j, m).
Proof.
  unfold test. destruct (scan r 0 s) as [[j m]|]; [eauto | done].
Qed.

(** What the shape check accepts. *)
Lemma shape_inv x :
  test re_shape x = true ->
  exists c t, x = c :: t /\ Js.isLower c = true /\ forallb nameChar t = true.
Proof.
  intros H. apply test_scan in H as (j & m & H).
  apply scan_extent in H as (mid & _ & _ & _ & _ & _ & H).
  unfold re_shape, seqs in H. simpl in H.
  apply reaches_seq_inv in H as (s1 & H1 & H).
  apply reaches_bol_inv in H1 as [-> Hj]. simpl in Hj. subst j.
  apply reaches_seq_inv in H as (s2 & H2 & H).
  apply reaches_chr_inv in H2 as (c & t & E & Hc & ->). simpl in E.
  apply reaches_seq_inv in H as (s3 & H3 & H).
  apply reaches_star_chr in H3 as (w & Ew & Hw & _ & _). simpl in Ew.
  apply reaches_seq_inv in H as (s4 & H4 & H).
  apply reaches_eol_inv in H4 as [-> E3].
  rewrite E3, app_nil_r in Ew. subst w.
  rewrite drop_0 in E. by exists c, t.
Qed.

Lemma loop_S step k fuel s :
  loop step k (S fuel) s =
  orElse (step (fun s' => if Nat.ltb (pos s) (pos s')
                          then loop step k fuel s' else None) s) (k s).
Proof. reflexivity. Qed.

Lemma run_chr_cons p k s c t :
  rest s = c :: t -> p c = true -> run (Chr p) k s = k (advance s t).
Proof. intros E H. simpl. by rewrite E, H. Qed.

Lemma run_chr_nil p k s : rest s = [] -> run (Chr p) k s = None.
Proof. intros E. simpl. by rewrite E. Qed.

Lemma run_eol_nil k s : rest s = [] -> run Eol k s = k s.
Proof. intros E. simpl. by rewrite E. Qed.

(** The repetition of a character class, followed by the end of the
    input, succeeds on an input made of the class. *)
Lemma loop_chr_all p fuel s :
  (length (rest s) < fuel)%nat -> forallb p (rest s) = true ->
  is_Some (loop (run (Chr p)) (run Eol Some) fuel s).
Proof.
  revert s; induction fuel as [|fuel IH]; intros s Hf Hp; [lia|].
  rewrite loop_S. destruct (rest s) as [|c t] eqn:E.
  - rewrite run_chr_nil, run_eol_nil by done. by eexists.
  - simpl in Hp. apply andb_true_iff in Hp as [Hc Ht].
    rewrite (run_chr_cons _ _ _ c t) by done.
    replace (Nat.ltb (pos s) (pos (advance s t))) with true
      by (symmetry; apply Nat.ltb_lt; simpl; lia).
    destruct (IH (advance s t)) as [m ->]; [simpl in *; lia | done |].
    by eexists.
Qed.

Lemma part_accepted part :
  part <> [] -> forallb lowerOrDigit part = true -> test re_part part = true.
Proof.
  intros Hne Hp. destruct part as [|c t]; [done|].
  simpl in Hp. apply andb_true_iff in Hp as [Hc Ht].
  unfold test.
  assert (E : is_Some (run re_part Some (MState 0 (c :: t) None))).
  { unfold re_part, Plus.
    change (is_Some (run (Chr lowerOrDigit)
                       (run (Star (Chr lowerOrDigit)) (run Eol Some))
                       (MState 0 (c :: t) None))).
    rewrite (run_chr_cons _ _ _ c t) by done.
    apply loop_chr_all; [simpl; lia | done]. }
  destruct E as [m E]. simpl. simpl in E. by rewrite E.
Qed.

(** ** Characters *)

Lemma upper_of_lower c : Js.isLower c = true -> Js.isUpper (Js.upperChar c) = true.
Proof.
  destruct c as [[] [] [] [] [] [] [] []]; vm_compute; congruence.
Qed.

Lemma lowerOrDigit_not_hyphen c : lowerOrDigit c = true -> c <> "-"%char.
Proof. intros H ->. by vm_compute in H. Qed.

Lemma upperChar_not_hyphen c :
  lowerOrDigit c = true -> Js.upperChar c <> "-"%char.
Proof.
  destruct c as [[] [] [] [] [] [] [] []]; vm_compute; congruence.
Qed.

Lemma nameChar_cases c :
  nameChar c = true -> c = "-"%char \/ lowerOrDigit c = true.
Proof.
  unfold nameChar, lowerOrDigit, Js.isChar.
  destruct (Js.isLower c), (Js.isDigit c); simpl; auto.
  intros H. left. by apply Ascii.eqb_eq.
Qed.

(** ** Pieces *)

Lemma split_nonempty sep x : Js.split sep x <> [].
Proof.
  destruct x as [|c x]; simpl; [done|].
  destruct (Ascii.eqb c sep); [done|]. by destruct (Js.split sep x).
Qed.

Lemma split_cons_other sep c t :
  Ascii.eqb c sep = false ->
  exists p0 r, Js.split sep t = p0 :: r /\ Js.split sep (c :: t) = (c :: p0) :: r.
Proof.
  intros H. simpl. rewrite H.
  destruct (Js.split sep t) as [|p0 r] eqn:E; [by destruct (split_nonempty sep t)|].
  by exists p0, r.
Qed.

Lemma split_pieces x :
  forallb nameChar x = true ->
  Forall (fun piece => forallb lowerOrDigit piece = true) (Js.split "-" x).
Proof.
  induction x as [|c x IH]; intros H; simpl.
  - by constructor.
  - simpl in H. apply andb_true_iff in H as [Hc Hx]. specialize (IH Hx).
    destruct (Ascii.eqb c "-") eqn:E.
    + by constructor.
    + destruct (Js.split "-" x) as [|p0 r]; [by constructor; [simpl; destruct (nameChar_cases c Hc) as [->| ->] |]|].
      inversion IH; subst. constructor; [|done]. simpl.
      destruct (nameChar_cases c Hc) as [->| ->]; [done | done].
Qed.

Lemma filter_okPart l :
  Forall (fun piece => forallb lowerOrDigit piece = true) l ->
  Forall okPart (List.filter nonEmpty l).
Proof.
  induction 1 as [|p l Hp _ IH]; simpl; [constructor|].
  destruct p as [|c p]; simpl; [done|]. constructor; [|done]. by split.
Qed.

Lemma capitalize_cons c t : capitalize (c :: t) = Js.upperChar c :: t.
Proof.
  unfold capitalize, Js.charAt, Js.sliceFrom, Js.clampIndex. simpl.
  replace (Z.to_nat (Z.min 1 (Z.of_nat (S (length t))))) with 1%nat by lia.
  done.
Qed.

(** ** The maps of the two transforms *)

Lemma mapE_pascal l i :
  Forall okPart l -> mapE (fun _ => pascalPart) i l = Value (map capitalize l).
Proof.
  intros H. revert i. induction H as [|p l [Hne Hp] _ IH]; intros i; simpl; [done|].
  unfold pascalPart at 1. rewrite part_accepted by done. simpl.
  by rewrite IH.
Qed.

Lemma mapE_camel_rest l i :
  Forall okPart l -> mapE camelPart (S i) l = Value (map capitalize l).
Proof.
  intros H. revert i. induction H as [|p l [Hne Hp] _ IH]; intros i; simpl; [done|].
  unfold camelPart at 1. rewrite part_accepted by done. simpl.
  by rewrite IH.
Qed.

Lemma mapE_camel p l :
  Forall okPart (p :: l) -> mapE camelPart 0 (p :: l) = Value (p :: map capitalize l).
Proof.
  intros H. inversion H as [|? ? [Hne Hp] Hl]; subst. simpl.
  unfold camelPart at 1. rewrite part_accepted by done. simpl.
  by rewrite mapE_camel_rest.
Qed.

Lemma join_nil_cons a l : Js.join [] (a :: l) = a ++ Js.join [] l.
Proof. destruct l; simpl; [by rewrite app_nil_r | done]. Qed.

Lemma join_nil_Forall (P : ascii -> Prop) l :
  Forall (Forall P) l -> Forall P (Js.join [] l).
Proof.
  induction 1 as [|a l Ha _ IH]; [constructor|].
  rewrite join_nil_cons. by apply Forall_app.
Qed.

Lemma okPart_no_hyphen part :
  okPart part -> Forall (fun ch => ch <> "-"%char) part.
Proof.
  intros [_ H]. apply Forall_forall. intros ch Hin.
  apply lowerOrDigit_not_hyphen.
  rewrite forallb_forall in H. apply H. by apply list_elem_of_In.
Qed.

Lemma capitalize_no_hyphen part :
  okPart part -> Forall (fun ch => ch <> "-"%char) (capitalize part).
Proof.
  intros H. pose proof (okPart_no_hyphen _ H) as Hn.
  destruct H as [Hne H]. destruct part as [|c t]; [done|].
  rewrite capitalize_cons. inversion Hn; subst. constructor; [|done].
  simpl in H. apply andb_true_iff in H as [Hc _].
  by apply upperChar_not_hyphen.
Qed.

(** ** The two transforms on a name of the identifier shape *)

Lemma transforms_value x :
  test re_shape x = true ->
  exists c p0 ps,
    Js.isLower c = true /\ Forall okPart ((c :: p0) :: ps) /\
    toPascalCase x =
      Value (Js.join [] ((Js.upperChar c :: p0) :: map capitalize ps)) /\
    toCamelCase x = Value (Js.join [] ((c :: p0) :: map capitalize ps)).
Proof.
  intros H. apply shape_inv in H as (c & t & -> & Hc & Ht).
  assert (Hsep : Ascii.eqb c "-" = false).
  { destruct (Ascii.eqb c "-") eqn:E; [|done].
    apply Ascii.eqb_eq in E as ->. by vm_compute in Hc. }
  destruct (split_cons_other "-" c t Hsep) as (p0 & r & Et & Ect).
  assert (Hall : Forall (fun piece => forallb lowerOrDigit piece = true)
                   (Js.split "-" (c :: t))).
  { apply split_pieces. simpl. rewrite Ht, andb_true_r.
    unfold nameChar. rewrite Hc. reflexivity. }
  apply filter_okPart in Hall. rewrite Ect in Hall. simpl in Hall.
  set (ps := List.filter nonEmpty r) in *.
  assert (Eparts : List.filter nonEmpty (Js.split "-" (c :: t)) = (c :: p0) :: ps).
  { by rewrite Ect. }
  exists c, p0, ps. split; [done|]. split; [done|].
  unfold toPascalCase, toCamelCase. rewrite Eparts. cbn [length Nat.eqb].
  rewrite mapE_pascal, mapE_camel by done. cbn [bindE map].
  by rewrite capitalize_cons.
Qed.

Lemma upperChar_alnum c : lowerOrDigit c = true -> alnum (Js.upperChar c) = true.
Proof.
  destruct c as [[] [] [] [] [] [] [] []]; vm_compute; congruence.
Qed.

Lemma lowerOrDigit_alnum c : lowerOrDigit c = true -> alnum c = true.
Proof. unfold lowerOrDigit, alnum. intros ->. done. Qed.

Lemma okPart_alnum part : okPart part -> Forall (fun ch => alnum ch = true) part.
Proof.
  intros [_ H]. apply Forall_forall. intros ch Hin.
  apply lowerOrDigit_alnum.
  rewrite forallb_forall in H. apply H. by apply list_elem_of_In.
Qed.

Lemma capitalize_alnum part :
  okPart part -> Forall (fun ch => alnum ch = true) (capitalize part).
Proof.
  intros H. pose proof (okPart_alnum _ H) as Hn.
  destruct H as [Hne H]. destruct part as [|c t]; [done|].
  rewrite capitalize_cons. inversion Hn; subst. constructor; [|done].
  simpl in H. apply andb_true_iff in H as [Hc _].
  by apply upperChar_alnum.
Qed.

(** The PascalCase form of a name of the identifier shape is made of
    letters and digits. *)
Lemma toPascalCase_alnum x :
  test re_shape x = true ->
  exists p, toPascalCase x = Value p /\ Forall (fun ch => alnum ch = true) p.
Proof.
  intros H. destruct (transforms_value x H) as (c & p0 & ps & Hc & Hall & Hp & _).
  eexists. split; [exact Hp|].
  inversion Hall as [|? ? Hp0 Hps]; subst.
  apply join_nil_Forall. constructor.
  - pose proof (okPart_alnum _ Hp0) as Hn. inversion Hn; subst.
    constructor; [|done]. apply upperChar_alnum. unfold lowerOrDigit. by rewrite Hc.
  - apply Forall_map. eapply Forall_impl; [exact Hps|]. apply capitalize_alnum.
Qed.

(** [C4] For every name of the shape [^[a-z][a-z0-9-]*$], [toPascalCase]
    and [toCamelCase] return a value (they do not throw); the PascalCase
    form starts with an upper-case letter, the camelCase form with a
    lower-case letter, and neither contains a hyphen.  (Both are functions
    of the name alone, so the results are determined by it.) *)
Theorem name_transforms_total (x : text) :
  test re_shape x = true ->
  exists p c,
    toPascalCase x = Value p /\ toCamelCase x = Value c /\
    (exists h t, p = h :: t /\ Js.isUpper h = true) /\
    (exists h t, c = h :: t /\ Js.isLower h = true) /\
    ("-"%char ∉ p) /\ ("-"%char ∉ c).
Proof.
  intros H. destruct (transforms_value x H) as (c & p0 & ps & Hc & Hall & Hp & Hcm).
  inversion Hall as [|? ? Hp0 Hps]; subst.
  eexists _, _. split; [exact Hp|]. split; [exact Hcm|].
  rewrite !join_nil_cons. simpl.
  assert (Hcaps : Forall (fun ch => ch <> "-"%char)
                    (Js.join [] (map capitalize ps))).
  { apply join_nil_Forall, Forall_map.
    eapply Forall_impl; [exact Hps|]. intros part. apply capitalize_no_hyphen. }
  pose proof (okPart_no_hyphen _ Hp0) as Hn0. inversion Hn0; subst.
  repeat split.
  - eexists _, _. split; [done|]. by apply upper_of_lower.
  - eexists _, _. split; [done | done].
  - intros Hin. apply elem_of_cons in Hin as [Hin|Hin].
    + symmetry in Hin. revert Hin. apply upperChar_not_hyphen.
      unfold lowerOrDigit. by rewrite Hc.
    + apply elem_of_app in Hin as [Hin|Hin].
      * by eapply (proj1 (Forall_forall _ _)) in Hin; [|eassumption].
      * by eapply (proj1 (Forall_forall _ _)) in Hin; [|eassumption].
  - intros Hin. apply elem_of_cons in Hin as [Hin|Hin].
    + by subst c.
    + apply elem_of_app in Hin as [Hin|Hin].
      * by eapply (proj1 (Forall_forall _ _)) in Hin; [|eassumption].
      * by eapply (proj1 (Forall_forall _ _)) in Hin; [|eassumption].
Qed.

Lemma name_transforms_total_witness :
  exists p c,
    toPascalCase (str "user-profile") = Value p /\
    toCamelCase (str "user-profile") = Value c /\
    (exists h t, p = h :: t /\ Js.isUpper h = true) /\
    (exists h t, c = h :: t /\ Js.isLower h = true) /\
    ("-"%char ∉ p) /\ ("-"%char ∉ c).
Proof. apply (name_transforms_total (str "user-profile")). reflexivity. Defined.

End NameFacts.

(* ================================================================== *)
(** * Facts on the effects *)
(* ================================================================== *)

Section EffectFacts.

Lemma logged_logged w a b : logged (logged w a) b = logged w (a ++ b).
Proof. unfold logged. simpl. by rewrite app_assoc. Qed.

Lemma emit_run e w : emit e w = (Done tt, logged w [e]).
Proof. done. Qed.

Lemma bind_emit {A} e (k : M A) w : (emit e ;; k) w = k (logged w [e]).
Proof. done. Qed.

Lemma bind_ret {A B} (a : A) (f : A -> M B) w : (x <- ret a ;; f x) w = f a w.
Proof. done. Qed.

Lemma bind_assoc {A B C} (m : M A) (f : A -> M B) (g : B -> M C) w :
  (y <- (x <- m ;; f x) ;; g y) w = (x <- m ;; y <- f x ;; g y) w.
Proof. unfold bind. destruct (m w) as [[a|e|c] w']; done. Qed.

Lemma pathExists_run {A} p (k : bool -> M A) w :
  (found <- pathExists p ;; k found) w =
  k (bool_decide (is_Some (files w !! p))) (logged w [FsPathExists p]).
Proof. done. Qed.

Lemma readFile_run {A} p c (k : text -> M A) w :
  files w !! p = Some (File c) ->
  (content <- readFile p ;; k content) w = k c (logged w [FsReadFile p]).
Proof. intros H. unfold readFile, bind, emit, getFiles. simpl. by rewrite H. Qed.

Lemma writeFile_run p c w :
  files w !! p <> Some Dir ->
  writeFile p c w = (Done tt, stored (logged w [FsWriteFile p c]) p c).
Proof.
  intros H. unfold writeFile, bind, emit, getFiles, setFiles. simpl.
  destruct (files w !! p) as [[|]|]; done.
Qed.

Lemma failIf_false msg : failIf false msg = ret tt.
Proof. done. Qed.

Lemma failIf_true {A} msg (k : M A) w :
  (failIf true msg ;; k) w = (Exited 1, logged w [ConsoleError msg]).
Proof. done. Qed.

(** The checks of [validate] are those of [nameProblem], followed by the
    collision guard. *)
Lemma validate_run {A} name (k : M A) w :
  (validate name ;; k) w =
  match nameProblem name with
  | Some msg => (Exited 1, logged w [ConsoleError msg])
  | None =>
      if bool_decide (is_Some (files w !! pagePath name)) then
        (Exited 1, logged w [FsPathExists (pagePath name);
                             ConsoleError (collision name)])
      else k (logged w [FsPathExists (pagePath name)])
  end.
Proof.
  unfold validate, nameProblem.
  destruct (_ || _); [done|]. rewrite failIf_false.
  destruct (Re.test re_space name); [done|].
  destruct (negb (Re.test re_shape name)); [done|].
  destruct (Js.includes name (str "--")); [done|].
  destruct (_ || _); [done|].
  destruct (Js.arrayIncludes reservedKeywords name); [done|].
  destruct (Js.arrayIncludes reservedNames name); [done|].
  unfold bind, tryCatch, failIf.
  destruct (toPascalCase name) as [p|e]; simpl; [|done].
  destruct (toCamelCase name) as [c|e]; simpl; [|done].
  destruct (bool_decide _); simpl; [|done].
  unfold logged. simpl. by rewrite <- app_assoc.
Qed.

End EffectFacts.

(* ================================================================== *)
(** * The command action *)
(* ================================================================== *)

Section Action.

Variable tpl : catalog.

Lemma createPage_run name o w :
  createPage tpl name o w =
  match nameProblem name with
  | Some msg => (Exited 1, logged w [ConsoleLog (banner name o); ConsoleError msg])
  | None =>
      if bool_decide (is_Some (files w !! pagePath name)) then
        (Exited 1, logged w [ConsoleLog (banner name o);
                             FsPathExists (pagePath name);
                             ConsoleError (collision name)])
      else
        (proceed <- (if negb (yes o) then
                       confirm (str "Create a " ++ type o ++ str " page at " ++
                                pagePath name ++ str "?")
                     else ret true) ;;
         if negb proceed then emit (ConsoleLog (str "Page creation cancelled"))
         else generate tpl name o)
          (logged w [ConsoleLog (banner name o); FsPathExists (pagePath name)])
  end.
Proof.
  unfold createPage. rewrite bind_emit, validate_run. simpl.
  destruct (nameProblem name); [by rewrite logged_logged|].
  destruct (bool_decide _); by rewrite logged_logged.
Qed.

(** [C5] When the directory of the page exists, an invocation with a
    name that passes the checks ends with exit code 1, after reporting
    the collision; the files are as before and the only access to the
    file system is the existence test of the page directory. *)
Theorem collision_guard (name : text) (o : options) (w : world) :
  nameProblem name = None ->
  is_Some (files w !! pagePath name) ->
  createPage tpl name o w =
  (Exited 1, logged w [ConsoleLog (banner name o);
                       FsPathExists (pagePath name);
                       ConsoleError (collision name)]).
Proof.
  intros Hn Hd. rewrite createPage_run, Hn. by rewrite bool_decide_true.
Qed.

(** [C6] The names class, import, index and default are rejected: the
    invocation prints the banner and the complaint and ends with exit
    code 1; it leaves the files as they are and does not access the
    file system at all. *)
Theorem reserved_names_rejected :
  Forall (fun name =>
            forall (o : options) (w : world),
            exists msg, createPage tpl name o w =
              (Exited 1, logged w [ConsoleLog (banner name o);
                                   ConsoleError msg]))
    [str "class"; str "import"; str "index"; str "default"].
Proof.
  repeat constructor; intros o w; rewrite createPage_run;
    match goal with
    | |- context [nameProblem ?n] =>
        let r := eval vm_compute in (nameProblem n) in
        change (nameProblem n) with r
    end; eexists; reflexivity.
Qed.

End Action.

Section Collaborators.

Lemma outputFile_run p c w :
  files w !! p <> Some Dir ->
  existsb (isFile (files w)) (ancestors p) = false ->
  outputFile p c w =
  (Done tt, {| files := <[p := File c]> (mkdirs (ancestors p) (files w));
               answers := answers w;
               trace := trace w ++ [FsOutputFile p c] |}).
Proof.
  intros Hp Ha. unfold outputFile, bind, emit, getFiles, setFiles. simpl.
  rewrite Ha. destruct (files w !! p) as [[|]|]; done.
Qed.

(** [C7] For a name of the identifier shape: when the routes file does
    not exist, [addRoutesToIndex] warns through the spinner and returns
    normally, so that whatever follows it runs, on the same files; and
    likewise [addUserShardFunctions] when the UserShard file does not
    exist. *)
Theorem missing_collaborator_skipped {A} (name routesPath userShardPath : text)
    (next : M A) (w : world) :
  Re.test re_shape name = true ->
  (files w !! routesPath = None ->
   (addRoutesToIndex name routesPath ;; next) w =
   next (logged w [SpinnerStart (str "Adding routes to index.ts...");
                   FsPathExists routesPath;
                   SpinnerWarn (str "Routes file not found at " ++ routesPath ++
                                str ", skipping route generation")])) /\
  (files w !! userShardPath = None ->
   (addUserShardFunctions name userShardPath ;; next) w =
   next (logged w [SpinnerStart (str "Adding UserShard functions...");
                   FsPathExists userShardPath;
                   SpinnerWarn (str "UserShard file not found at " ++
                                userShardPath ++
                                str ", skipping UserShard generation")])).
Proof.
  intros Hn.
  destruct (transforms_value name Hn) as (c0 & p0 & ps & _ & _ & Hp & Hc).
  split; intros Hf.
  - unfold addRoutesToIndex, bind, emit, pathExists, getFiles, liftE, ret.
    rewrite Hp. simpl. rewrite Hf. simpl.
    unfold logged. simpl. by rewrite <- !app_assoc.
  - unfold addUserShardFunctions, bind, emit, pathExists, getFiles, liftE, ret.
    rewrite Hp, Hc. simpl. rewrite Hf. simpl.
    unfold logged. simpl. by rewrite <- !app_assoc.
Qed.


(** The preamble, spelled out. *)
Lemma schemasPreamble_text :
  schemasPreamble =
  str "import { z } from " ++ dq ++ str "zod" ++ dq ++ str ";" ++ nl ++ nl ++
  str "export const ErrorResponseSchema = z.object({" ++ nl ++
  str "  success: z.literal(false)," ++ nl ++
  str "  error: z.string()," ++ nl ++
  str "  statusCode: z.number()," ++ nl ++
  str "});" ++ nl ++ nl ++
  str "export type ErrorResponse = z.infer<typeof ErrorResponseSchema>;" ++ nl.
Proof. reflexivity. Qed.

End Collaborators.

(* ================================================================== *)
(** * The schemas file in the dashboard flow *)
(* ================================================================== *)

Section FlowSchemas.

Variable p : text.
























End FlowSchemas.

Section FlowTheorem.

Variable tpl : catalog.



End FlowTheorem.

Section FlowExamples.


End FlowExamples.

Section ExpandFacts.

Variables matched before after : text.

Local Abbreviation ex r := (Js.expand r matched before after).

Lemma expand_cons_other c r :
  Js.isChar "$" c = false -> ex (c :: r) = c :: ex r.
Proof. intros H. simpl. by rewrite H. Qed.

Lemma expand_plain l : "$"%char ∉ l -> ex l = l.
Proof.
  induction l as [|c l IH]; intros H; [done|].
  rewrite expand_cons_other.
  - rewrite IH; [done|]. intros Hin. apply H. by right.
  - destruct (Js.isChar "$" c) eqn:E; [|done].
    apply Ascii.eqb_eq in E as ->. destruct H. left.
Qed.

Lemma expand_app_plain l r : "$"%char ∉ l -> ex (l ++ r) = l ++ ex r.
Proof.
  induction l as [|c l IH]; intros H; [done|].
  simpl app. rewrite expand_cons_other.
  - rewrite IH; [done|]. intros Hin. apply H. by right.
  - destruct (Js.isChar "$" c) eqn:E; [|done].
    apply Ascii.eqb_eq in E as ->. destruct H. left.
Qed.

(** A character that is not part of a special form ends the forms before
    it. *)
Lemma expand_app_break c x y :
  special c = false -> ex (x ++ c :: y) = ex x ++ c :: ex y.
Proof.
  intros Hc.
  assert (Hd : Js.isChar "$" c = false /\ Js.isChar "&" c = false /\
               Js.isChar "`" c = false /\ Js.isChar "'" c = false).
  { unfold special in Hc. repeat (apply orb_false_iff in Hc as [Hc ?]). done. }
  destruct Hd as (H1 & H2 & H3 & H4).
  assert (H : forall n z, (length z <= n)%nat ->
                ex (z ++ c :: y) = ex z ++ c :: ex y).
  { induction n as [|n IH]; intros z Hz.
    - destruct z; [|simpl in Hz; lia]. simpl. by rewrite H1.
    - destruct z as [|d z]; [simpl; by rewrite H1|].
      simpl app. destruct (Js.isChar "$" d) eqn:Ed.
      + destruct z as [|e z].
        * simpl. rewrite Ed, H1, H2, H3, H4. simpl. done.
        * simpl. rewrite Ed. simpl.
          assert (IHz : ex (z ++ c :: y) = ex z ++ c :: ex y).
          { apply IH. simpl in Hz. lia. }
          rewrite IHz.
          destruct (Js.isChar "$" e); [done|].
          destruct (Js.isChar "&" e); [by rewrite <- app_assoc|].
          destruct (Js.isChar "`" e); [by rewrite <- app_assoc|].
          destruct (Js.isChar "'" e); [by rewrite <- app_assoc|].
          done.
      + rewrite !expand_cons_other by done.
        rewrite IH; [done | simpl in Hz; lia]. }
  by apply (H (length x)).
Qed.


(** A text without a replacement pattern is its own expansion. *)
Lemma expand_noPattern l : noPattern l = true -> ex l = l.
Proof.
  assert (H : forall n l, (length l <= n)%nat -> noPattern l = true -> ex l = l).
  { clear l. induction n as [|n IH]; intros l Hl Hp.
    - by destruct l; [|simpl in Hl; lia].
    - destruct l as [|c t]; [done|].
      cbn [noPattern] in Hp. apply andb_true_iff in Hp as [Hc Ht].
      destruct (Js.isChar "$" c) eqn:Ec.
      + destruct t as [|d u]; [simpl; by rewrite Ec|].
        cbn [andb negb] in Hc. apply negb_true_iff in Hc.
        unfold special in Hc. repeat (apply orb_false_iff in Hc as [Hc ?]).
        cbn [noPattern] in Ht. apply andb_true_iff in Ht as [_ Hu].
        simpl. rewrite Ec. cbn [negb].
        replace (Js.isChar "$" d) with false by done.
        replace (Js.isChar "&" d) with false by done.
        replace (Js.isChar "`" d) with false by done.
        replace (Js.isChar "'" d) with false by done.
        rewrite IH; [done | simpl in Hl; lia | done].
      + rewrite expand_cons_other by done.
        rewrite IH; [done | simpl in Hl; lia | done]. }
  by apply (H (length l)).
Qed.

End ExpandFacts.

Lemma noPattern_app_inv (a b : text) :
  noPattern (a ++ b) = true -> noPattern a = true /\ noPattern b = true.
Proof.
  induction a as [|c a IH]; [done|].
  simpl app. cbn [noPattern]. intros H.
  apply andb_true_iff in H as [Hc H]. destruct (IH H) as [Ha Hb].
  split; [|done]. rewrite Ha, andb_true_r.
  destruct a as [|d a]; [by rewrite andb_false_r|]. exact Hc.
Qed.

Lemma noPattern_plain (l : text) : "$"%char ∉ l -> noPattern l = true.
Proof.
  induction l as [|c l IH]; [done|]. intros H.
  apply not_elem_of_cons in H as [Hc Hl]. cbn [noPattern].
  rewrite (IH Hl), andb_true_r.
  replace (Js.isChar "$" c) with false; [done|].
  symmetry. apply Ascii.eqb_neq. congruence.
Qed.


Section Vite.

Import Re.

Lemma subtext_app pre w post :
  subtext (pre ++ w ++ post) (length pre) (length pre + length w) = w.
Proof.
  unfold subtext. rewrite drop_app_length.
  replace (length pre + length w - length pre)%nat with (length w) by lia.
  apply take_app_length.
Qed.

(** A match of the mapping expression: where it lies and what it holds. *)
Lemma input_match c j m :
  scan re_input 0 c = Some (j, m) ->
  exists ws body,
    forallb Js.isSpace ws = true /\
    c = take j c ++ (str "input:" ++ ws ++ str "{" ++ body ++ str "}") ++
        drop (pos m) c /\
    length (take j c) = j /\
    subtext c j (pos m) = str "input:" ++ ws ++ str "{" ++ body ++ str "}" /\
    match cap m with
    | Some (a, b) => subtext c a b = body
    | None => False
    end.
Proof.
  intros H. apply scan_extent in H as (mid & Ec & Hj & Hp & Hmid & Hrest & H).
  unfold re_input in H.
  apply reaches_seq_inv in H as (s1 & H1 & H).
  apply reaches_Lit in H1 as (E1 & P1 & C1). simpl in E1, P1, C1.
  apply reaches_seq_inv in H as (s2 & H2 & H).
  apply reaches_star_chr in H2 as (ws & E2 & Hws & P2 & C2).
  apply reaches_seq_inv in H as (s3 & H3 & H).
  apply reaches_Lit in H3 as (E3 & P3 & C3). simpl in E3.
  apply reaches_seq_inv in H as (s4 & H4 & H).
  apply reaches_group_inv in H4 as (s4' & H4 & ->).
  apply reaches_star_chr in H4 as (body & E4 & Hbody & P4 & C4).
  apply reaches_Lit in H as (E5 & P5 & C5). simpl in E5, P5, C5.
  assert (Ed : drop j c = str "input:" ++ ws ++ str "{" ++ body ++ str "}" ++ rest m).
  { rewrite E1, E2, E3, E4, E5. done. }
  assert (Emid : mid = str "input:" ++ ws ++ str "{" ++ body ++ str "}").
  { apply (f_equal (drop j)) in Ec.
    rewrite drop_app_length' in Ec by (rewrite length_take; lia).
    rewrite Ec, <- Hrest in Ed. 
    apply (app_inv_tail (rest m)). rewrite Ed.
    by rewrite <- !app_assoc. }
  exists ws, body. split; [done|]. rewrite <- Emid.
  split; [done|]. split; [rewrite length_take; lia|]. split; [done|].
  rewrite C5. simpl.
  (* the group *)
  assert (Ec' : c = (take j c ++ str "input:" ++ ws ++ str "{") ++ body ++
                    (str "}" ++ drop (pos m) c)).
  { rewrite Ec at 1. rewrite Emid. by rewrite <- !app_assoc. }
  assert (Hl : length (take j c ++ str "input:" ++ ws ++ str "{") = pos s3).
  { rewrite !length_app, length_take. simpl in *. lia. }
  rewrite Ec'. rewrite <- Hl, P4.
  rewrite <- Hl. apply subtext_app.
Qed.

(** A text without the shape of the mapping has no match. *)
Lemma no_mapping_no_match c :
  (forall pre ws body post, forallb Js.isSpace ws = true ->
     c <> pre ++ str "input:" ++ ws ++ str "{" ++ body ++ str "}" ++ post) ->
  exec re_input c = None.
Proof.
  intros H. unfold exec. destruct (scan re_input 0 c) as [[j m]|] eqn:E; [|done].
  apply input_match in E as (ws & body & Hws & Ec & _).
  destruct (H (take j c) ws body (drop (pos m) c) Hws).
  rewrite Ec at 1. by rewrite <- !app_assoc.
Qed.

End Vite.

Section ViteScenario.

Import Re.

(** [C9] When the mapping expression has no match in the text of
    vite.config.ts, [updateViteConfig] prints a warning and returns
    normally; the files are as before, and the file system is only
    accessed to test the existence of the file and to read it. *)
Theorem vite_without_mapping (pageName content : text) (w : world) :
  files w !! viteConfigPath = Some (File content) ->
  exec re_input content = None ->
  updateViteConfig pageName w =
  (Done tt, logged w [FsPathExists viteConfigPath;
                      FsReadFile viteConfigPath;
                      ConsoleWarn noMappingWarning]).
Proof.
  intros Hf Hm. unfold updateViteConfig.
  rewrite pathExists_run, Hf.
  rewrite (bool_decide_true _ (mk_is_Some _ _ eq_refl)).
  cbn [negb]. rewrite readFile_run with (c := content) by exact Hf.
  rewrite Hm. rewrite emit_run. by rewrite !logged_logged.
Qed.

Lemma re_input_plain_eq : re_input_plain = plain re_input.
Proof. reflexivity. Qed.

(** The text written by [updateViteConfig] when it adds an entry. *)
Lemma withNewEntry_eq pageName c m :
  exec re_input c = Some m ->
  exists pre post,
    c = pre ++ whole m ++ post /\ length pre = index m /\
    withNewEntry pageName c (group1 m) =
    pre ++
    Js.expand (str "input: {" ++ Js.trimEnd (group1 m) ++ nl ++
               newEntry pageName ++ nl ++ str "      }")
              (whole m) pre post ++
    post.
Proof.
  unfold exec. destruct (scan re_input 0 c) as [[j ms]|] eqn:E; [|done].
  intros [= <-]. cbn [index whole group1].
  pose proof (scan_plain re_input 0 c) as Hp. rewrite E in Hp.
  rewrite <- re_input_plain_eq in Hp.
  destruct (scan re_input_plain 0 c) as [[j' ms']|] eqn:E'; [|done].
  destruct Hp as [<- Hpos].
  apply input_match in E as (ws & body & _ & Ec & Hl & Hw & _).
  exists (take j c), (drop (pos ms) c).
  rewrite Hw. split; [done|]. split; [done|].
  unfold withNewEntry, replace. rewrite E', <- Hpos, Hw.
  by rewrite <- !app_assoc.
Qed.

Lemma trimStart_elem (x : ascii) (s : text) : x ∈ Js.trimStart s -> x ∈ s.
Proof.
  induction s as [|a s IH]; simpl; [done|].
  destruct (Js.isSpace a); [|done]. intros Hx. right. by apply IH.
Qed.

Lemma trimEnd_elem (x : ascii) (s : text) : x ∈ Js.trimEnd s -> x ∈ s.
Proof.
  unfold Js.trimEnd. rewrite !list_elem_of_In, <- in_rev, <- list_elem_of_In.
  intros H. apply trimStart_elem in H.
  by rewrite list_elem_of_In, <- in_rev in H.
Qed.


End ViteScenario.

Section SliceFacts.

Implicit Types s p a b : text.

Lemma clampIndex_nat len (n : nat) :
  (n <= len)%nat -> Js.clampIndex len (Z.of_nat n) = n.
Proof.
  intros H. unfold Js.clampIndex.
  destruct (Z.ltb_spec (Z.of_nat n) 0) as [E|E]; lia.
Qed.

Lemma slice_prefix a b : Js.slice (a ++ b) 0 (Z.of_nat (length a)) = a.
Proof.
  unfold Js.slice. rewrite (clampIndex_nat _ 0), clampIndex_nat
    by (rewrite ?length_app; lia).
  rewrite Nat.sub_0_r, drop_0. apply take_app_length.
Qed.

Lemma sliceFrom_suffix a b : Js.sliceFrom (a ++ b) (Z.of_nat (length a)) = b.
Proof.
  unfold Js.sliceFrom. rewrite clampIndex_nat by (rewrite length_app; lia).
  apply drop_app_length.
Qed.

Lemma slice_0_0 s : Js.slice s 0 0 = [].
Proof.
  unfold Js.slice. rewrite (clampIndex_nat _ 0) by lia. by rewrite Nat.sub_diag.
Qed.

Lemma sliceFrom_0 s : Js.sliceFrom s 0 = s.
Proof. unfold Js.sliceFrom. by rewrite (clampIndex_nat _ 0) by lia. Qed.

(** The three searches: either nothing is found, or the text splits at
    the index returned. *)
Lemma find_split s p i :
  Js.find s p = Some i -> exists a b, s = a ++ p ++ b /\ length a = i.
Proof.
  intros H. apply find_Some in H as (q & E & Hi).
  exists (take i s), q. split; [done|]. rewrite length_take. lia.
Qed.

Lemma findLast_split s p i :
  Js.findLast s p = Some i -> exists a b, s = a ++ p ++ b /\ length a = i.
Proof.
  revert i; induction s as [|c s IH]; intros i; simpl.
  - destruct p as [|d p]; simpl; [|done]. intros [= <-]. by exists [], [].
  - destruct (Js.findLast s p) as [j|] eqn:E.
    + intros [= <-]. destruct (IH j eq_refl) as (a & b & -> & <-).
      by exists (c :: a), b.
    + destruct (Js.startsWith (c :: s) p) eqn:F; [|done]. intros [= <-].
      apply startsWith_true in F as [q ->]. by exists [], q.
Qed.

Lemma findLast_app a p b : is_Some (Js.findLast (a ++ p ++ b) p).
Proof.
  induction a as [|c a IH]; simpl.
  - destruct (p ++ b) as [|c s] eqn:E.
    + destruct p; [by eexists | done].
    + simpl. destruct (Js.findLast s p); [by eexists|].
      rewrite <- E, startsWith_app. by eexists.
  - destruct IH as [i ->]. by eexists.
Qed.

Lemma findLast_None s p : Js.find s p = None -> Js.findLast s p = None.
Proof.
  intros H. destruct (Js.findLast s p) as [i|] eqn:E; [|done].
  apply findLast_split in E as (a & b & -> & _).
  destruct (find_app a p b) as [j Hj]. congruence.
Qed.

Lemma includes_false_find s p : Js.includes s p = false -> Js.find s p = None.
Proof. unfold Js.includes. by destruct (Js.find s p). Qed.

Lemma indexOf_cases s p :
  (Js.includes s p = false /\ Js.indexOf s p = -1) \/
  (exists a b, s = a ++ p ++ b /\ Js.indexOf s p = Z.of_nat (length a)).
Proof.
  unfold Js.indexOf, Js.includes. destruct (Js.find s p) as [i|] eqn:E.
  - right. apply find_split in E as (a & b & -> & <-). by exists a, b.
  - by left.
Qed.

Lemma lastIndexOf_cases s p :
  (Js.includes s p = false /\ Js.lastIndexOf s p = -1) \/
  (exists a b, s = a ++ p ++ b /\ Js.lastIndexOf s p = Z.of_nat (length a)).
Proof.
  unfold Js.lastIndexOf. destruct (Js.findLast s p) as [i|] eqn:E.
  - right. apply findLast_split in E as (a & b & -> & <-). by exists a, b.
  - left. split; [|done]. apply includes_false. intros a b ->.
    destruct (findLast_app a p b) as [j Hj]. congruence.
Qed.

End SliceFacts.

Section MainServer.

Implicit Types s p a b : text.

Lemma indexOfFrom_cases s p from :
  Js.indexOfFrom s p from = -1 \/
  (exists a b, s = a ++ p ++ b /\ Js.indexOfFrom s p from = Z.of_nat (length a)).
Proof.
  unfold Js.indexOfFrom.
  set (k := Z.to_nat (Z.min (Z.max from 0) (Z.of_nat (length s)))).
  destruct (Js.find (drop k s) p) as [i|] eqn:E; simpl; [|by left].
  right. apply find_split in E as (a & b & E & <-).
  exists (take k s ++ a), b. split.
  - rewrite <- app_assoc, <- E. by rewrite take_drop.
  - rewrite length_app, length_take. f_equal. lia.
Qed.

(** An occurrence of a pattern with a dot, in a text with one dot. *)
Lemma dot_occurrence (u v a q : text) :
  "."%char ∉ u -> "."%char ∉ v ->
  Js.includes (u ++ "."%char :: v) (a ++ "."%char :: q) = true ->
  exists x, u = x ++ a.
Proof.
  intros Hu Hv H. apply includes_true in H as (x & y & E).
  replace (x ++ (a ++ "."%char :: q) ++ y)
    with ((x ++ a) ++ "."%char :: (q ++ y)) in E
    by (by rewrite <- !app_assoc).
  apply app_eq_inv in E as [(k & E1 & E2)|(k & E1 & E2)].
  - destruct k as [|d k].
    + exists x. by rewrite app_nil_r in E1.
    + simpl in E2. injection E2 as Hd _. subst d. destruct Hu. rewrite E1.
      apply elem_of_app. right. left.
  - destruct k as [|d k].
    + exists x. by rewrite app_nil_r in E1.
    + simpl in E2. injection E2 as Hd E2. subst d. destruct Hv. rewrite E2.
      apply elem_of_app. right. left.
Qed.

(** Absence of a character, decided by evaluation. *)
Lemma no_char (c : ascii) (l : text) :
  forallb (fun x => negb (Ascii.eqb x c)) l = true -> c ∉ l.
Proof.
  rewrite forallb_forall. intros H Hin. apply list_elem_of_In, H in Hin.
  by rewrite Ascii.eqb_refl in Hin.
Qed.

Lemma routerName_no_dot routeName :
  "."%char ∉ routeName -> "."%char ∉ routerName routeName.
Proof.
  intros H. unfold routerName. destruct (isWebhook routeName).
  - by apply no_char.
  - intros Hin. apply elem_of_app in Hin as [Hin|Hin]; [done|].
    revert Hin. by apply no_char.
Qed.

Lemma routerName_no_lf routeName : lf ∉ routeName -> lf ∉ routerName routeName.
Proof.
  intros H. unfold routerName. destruct (isWebhook routeName).
  - by apply no_char.
  - intros Hin. apply elem_of_app in Hin as [Hin|Hin]; [done|].
    revert Hin. by apply no_char.
Qed.

Lemma notin_app (c : ascii) (l k : text) : c ∉ l -> c ∉ k -> c ∉ l ++ k.
Proof. intros Hl Hk Hin. apply elem_of_app in Hin as [?|?]; done. Qed.

(** The import line holds no text of the form [app.] followed by
    anything, when the route name has no dot. *)
Lemma importStatement_no_app routeName q :
  "."%char ∉ routeName ->
  Js.includes (importStatement routeName) (str "app" ++ "."%char :: q) = false.
Proof.
  intros Hr. destruct (Js.includes _ _) eqn:E; [|done]. exfalso.
  set (path := if isWebhook routeName then routeName
               else str "api/" ++ routeName) in *.
  assert (Hpath : "."%char ∉ path).
  { unfold path. destruct (isWebhook routeName); [done|].
    apply notin_app; [by apply no_char | done]. }
  assert (Ei : importStatement routeName =
               (str "import { " ++ routerName routeName ++ str " } from '") ++
               "."%char :: (str "/" ++ path ++ str "';")).
  { unfold importStatement. fold path. by rewrite <- !app_assoc. }
  rewrite Ei in E. apply dot_occurrence in E as [x Ex].
  - replace (str "import { " ++ routerName routeName ++ str " } from '")
      with ((str "import { " ++ routerName routeName ++ str " } from ") ++ ["'"%char])
      in Ex by (by rewrite <- !app_assoc).
    replace (x ++ str "app") with ((x ++ str "ap") ++ ["p"%char]) in Ex
      by (by rewrite <- !app_assoc).
    apply app_inj_tail in Ex as [_ Ex]. discriminate.
  - repeat apply notin_app; try (by apply no_char).
    by apply routerName_no_dot.
  - repeat apply notin_app; try (by apply no_char). done.
Qed.

(** What "Add import" does to the text. *)
Lemma addImport_cases routeName content :
  (Js.includes content (importStatement routeName) = true /\
   addImport routeName content = content) \/
  (Js.includes content (importStatement routeName) = false /\
   (addImport routeName content = importStatement routeName ++ nl ++ content \/
    exists a b, content = a ++ nl ++ b /\
      addImport routeName content =
      (a ++ nl) ++ importStatement routeName ++ nl ++ b)).
Proof.
  unfold addImport. destruct (Js.includes content _); [by left|]. right.
  split; [done|]. simpl negb. cbv iota.
  destruct (indexOfFrom_cases content nl (Js.lastIndexOf content (str "import ")))
    as [->|(a & b & E & ->)].
  - left. change (-1 + 1) with 0. by rewrite slice_0_0, sliceFrom_0.
  - right. exists a, b. split; [done|].
    replace (Z.of_nat (length a) + 1) with (Z.of_nat (length (a ++ nl)))
      by (rewrite length_app; simpl; lia).
    rewrite E at 1 2. rewrite (app_assoc a nl b).
    by rewrite slice_prefix, sliceFrom_suffix.
Qed.

Lemma addImport_keeps routeName content pat :
  lf ∉ pat ->
  Js.includes (importStatement routeName) pat = false ->
  Js.includes content pat = false ->
  Js.includes (addImport routeName content) pat = false.
Proof.
  intros Hlf Hi Hc.
  destruct (addImport_cases routeName content) as [[_ ->]|[_ [->|(a & b & E & ->)]]].
  - done.
  - change (importStatement routeName ++ nl ++ content)
      with (importStatement routeName ++ lf :: content).
    rewrite includes_split_at by done. by rewrite Hi, Hc.
  - rewrite E in Hc. change (a ++ nl ++ b) with (a ++ lf :: b) in Hc.
    rewrite includes_split_at in Hc by done.
    apply orb_false_iff in Hc as [Ha Hb].
    replace ((a ++ nl) ++ importStatement routeName ++ nl ++ b)
      with (a ++ lf :: (importStatement routeName ++ lf :: b))
      by (by rewrite <- !app_assoc).
    rewrite !includes_split_at by done. by rewrite Ha, Hi, Hb.
Qed.

Lemma addImport_includes routeName content :
  Js.includes (addImport routeName content) (importStatement routeName) = true.
Proof.
  destruct (addImport_cases routeName content) as [[H ->]|[_ [->|(a & b & E & ->)]]].
  - done.
  - apply includes_app_l, includes_refl.
  - apply includes_app_r, includes_app_l, includes_refl.
Qed.

(** A text without space, quote, slash and capital R, which is in none of
    the fixed words, is in the import statement only where it is in the
    route name. *)
Lemma importStatement_lacks (pat routeName : text) :
  pat <> [] ->
  " "%char ∉ pat -> "'"%char ∉ pat -> "/"%char ∉ pat -> "R"%char ∉ pat ->
  Forall (fun word => Js.includes word pat = false) importWords ->
  Js.includes routeName pat = false ->
  Js.includes (importStatement routeName) pat = false.
Proof.
  intros Hne Hsp Hq Hsl HR Hw Hr.
  assert (Hnil : Js.includes [] pat = false).
  { apply includes_false. intros a b E. symmetry in E.
    apply app_eq_nil in E as [_ E]. by apply app_eq_nil in E as [E _]. }
  unfold importWords in Hw. cbn [map] in Hw.
  repeat match goal with
         | H : Forall _ (_ :: _) |- _ =>
             apply Forall_cons in H as [? H]
         end.
  unfold importStatement, routerName. destruct (isWebhook routeName).
  - change (str "import { " ++ str "webhookRouter" ++ str " } from './" ++
            routeName ++ str "';")
      with (str "import" ++ " "%char :: str "{" ++ " "%char ::
            str "webhookRouter" ++ " "%char :: str "}" ++ " "%char ::
            str "from" ++ " "%char :: [] ++ "'"%char :: str "." ++
            "/"%char :: routeName ++ "'"%char :: str ";").
    rewrite !includes_split_at by done.
    repeat match goal with
           | H : Js.includes _ pat = false |- _ => rewrite H; clear H
           end.
    reflexivity.
  - rewrite <- !app_assoc.
    change (str "import { " ++ routeName ++ str "Router" ++ str " } from './" ++
            str "api/" ++ routeName ++ str "';")
      with (str "import" ++ " "%char :: str "{" ++ " "%char ::
            routeName ++ "R"%char :: str "outer" ++ " "%char ::
            str "}" ++ " "%char :: str "from" ++ " "%char :: [] ++
            "'"%char :: str "." ++ "/"%char :: str "api" ++ "/"%char ::
            routeName ++ "'"%char :: str ";").
    rewrite !includes_split_at by done.
    rewrite Hr.
    repeat match goal with
           | H : Js.includes _ pat = false |- _ => rewrite H; clear H
           end.
    reflexivity.
Qed.

Ltac import_words :=
  unfold importWords; cbn [map]; repeat (constructor; [reflexivity|]);
  constructor.

Lemma importStatement_no_listen routeName :
  Js.includes routeName (str "app.listen") = false ->
  Js.includes (importStatement routeName) (str "app.listen") = false.
Proof.
  apply importStatement_lacks;
    [done | by apply no_char.. | import_words].
Qed.

Lemma importStatement_no_app_dot routeName q :
  Js.includes routeName (str "app.") = false ->
  Js.includes (importStatement routeName) (str "app." ++ q) = false.
Proof.
  intros Hr.
  destruct (Js.includes (importStatement routeName) (str "app." ++ q)) eqn:E;
    [|done].
  assert (Hin : Js.includes (importStatement routeName) (str "app.") = true).
  { apply (includes_trans _ _ _ E). apply includes_true. by exists [], q. }
  rewrite importStatement_lacks in Hin;
    [done | done | by apply no_char.. | import_words | done].
Qed.

(** [C10, as amended] The server index file exists, its text holds no
    [app.listen], and neither does the route name.  Then
    [updateMainServer] writes the file back with the import statement,
    [import { <router> } from './<path>';], put on a line of its own after
    a line of the text or at its beginning (nothing is put in when the
    statement is there already), and with nothing else: the mount
    statement is not inserted.  It prints no warning: the only events are
    the existence test, the read and the write.  When, moreover, the
    route name has no line feed and no [app.], a text without the mount
    statement is written back without it. *)
Theorem mount_silently_skipped (routeName content : text) (w : world) :
  Js.includes routeName (str "app.listen") = false ->
  files w !! serverFile = Some (File content) ->
  Js.includes content (str "app.listen") = false ->
  let statement :=
    str "import { " ++
    (if Js.includes routeName (str "webhook") then str "webhookRouter"
     else routeName ++ str "Router") ++
    str " } from './" ++
    (if Js.includes routeName (str "webhook") then routeName
     else str "api/" ++ routeName) ++
    str "';" in
  exists updated,
    ((Js.includes content statement = true /\ updated = content) \/
     (Js.includes content statement = false /\
      exists before after,
        content = before ++ after /\
        (before = [] \/ exists a, before = a ++ nl) /\
        updated = before ++ statement ++ nl ++ after)) /\
    Js.includes updated statement = true /\
    Js.includes updated (str "app.listen") = false /\
    (lf ∉ routeName -> Js.includes routeName (str "app.") = false ->
     Js.includes content (str "app.route('/', " ++
       (if Js.includes routeName (str "webhook") then str "webhookRouter"
        else routeName ++ str "Router") ++ str ");") = false ->
     Js.includes updated (str "app.route('/', " ++
       (if Js.includes routeName (str "webhook") then str "webhookRouter"
        else routeName ++ str "Router") ++ str ");") = false) /\
    updateMainServer routeName w =
    (Done tt, stored (logged w [FsPathExists serverFile;
                                FsReadFile serverFile;
                                FsWriteFile serverFile updated])
                     serverFile updated).
Proof.
  intros Hroute Hf Hlisten statement.
  change statement with (importStatement routeName). clear statement.
  change (str "app.route('/', " ++
          (if Js.includes routeName (str "webhook") then str "webhookRouter"
           else routeName ++ str "Router") ++ str ");")
    with (mountStatement routeName).
  exists (addImport routeName content).
  assert (Hl' : Js.includes (addImport routeName content) (str "app.listen") = false).
  { apply addImport_keeps; [by apply no_char| |done].
    by apply importStatement_no_listen. }
  split.
  { destruct (addImport_cases routeName content)
      as [[Hi ->]|[Hi [->|(a & b & E & ->)]]].
    - by left.
    - right. split; [done|]. exists [], content.
      split; [done|]. split; [by left | done].
    - right. split; [done|]. exists (a ++ nl), b.
      split; [by rewrite <- app_assoc|]. split; [right; by exists a | done]. }
  split; [apply addImport_includes|]. split; [done|]. split.
  { intros Hlf Happ Hmount. apply addImport_keeps; [| |done].
    - unfold mountStatement. repeat apply notin_app; try (by apply no_char).
      by apply routerName_no_lf.
    - by apply (importStatement_no_app_dot routeName
                  (str "route('/', " ++ routerName routeName ++ str ");")). }
  assert (Hadd : addMount routeName (addImport routeName content) =
                 addImport routeName content).
  { assert (Hidx : Js.indexOf (addImport routeName content) (str "app.listen") = -1).
    { destruct (indexOf_cases (addImport routeName content) (str "app.listen"))
        as [[_ ->]|(a & b & E & _)]; [reflexivity|].
      rewrite E in Hl'. by rewrite includes_app_r in Hl'
        by (apply includes_app_l, includes_refl). }
    unfold addMount. rewrite Hidx.
    by destruct (Js.includes _ (mountStatement routeName)). }
  unfold updateMainServer.
  rewrite pathExists_run, Hf.
  rewrite (bool_decide_true _ (mk_is_Some _ _ eq_refl)).
  cbn [negb]. rewrite readFile_run with (c := content) by exact Hf.
  rewrite Hadd.
  rewrite writeFile_run by (change (files w !! serverFile <> Some Dir); by rewrite Hf).
  by rewrite !logged_logged.
Qed.

End MainServer.

(** Looks for a piece of a concatenation that holds the pattern. *)
Section Routes.

Lemma routesToAdd_statusCode name capitalizedName :
  Js.includes (routesToAdd name capitalizedName) statusCode = true.
Proof. unfold routesToAdd. find_piece. Qed.

Lemma routesToAdd_schema name capitalizedName :
  Js.includes (routesToAdd name capitalizedName)
    (loadResponseSchema capitalizedName) = true.
Proof. unfold routesToAdd. find_piece. Qed.

(** Where the route block goes. *)
Lemma insertRoutes_cases name capitalizedName updatedContent :
  (exists before after,
     updatedContent = before ++ after /\
     insertRoutes name capitalizedName updatedContent =
     before ++ routesToAdd name capitalizedName ++ nl ++ after) \/
  (Js.includes updatedContent catchall = false /\
   Js.includes updatedContent (str "export default") = false /\
   insertRoutes name capitalizedName updatedContent =
   updatedContent ++ routesToAdd name capitalizedName).
Proof.
  unfold insertRoutes. cbv zeta.
  destruct (indexOf_cases updatedContent catchall) as [[Hc ->]|(a & b & E & ->)].
  - replace (negb (-1 =? -1)) with false by reflexivity. cbv iota.
    destruct (lastIndexOf_cases updatedContent (str "export default"))
      as [[He ->]|(a & b & E & ->)].
    + right. done.
    + left. exists a, (str "export default" ++ b). split; [done|].
      replace (negb (Z.of_nat (length a) =? -1)) with true
        by (symmetry; apply negb_true_iff, Z.eqb_neq; lia).
      rewrite E at 1 2. by rewrite slice_prefix, sliceFrom_suffix.
  - left. exists a, (catchall ++ b). split; [done|].
    replace (negb (Z.of_nat (length a) =? -1)) with true
      by (symmetry; apply negb_true_iff, Z.eqb_neq; lia).
    rewrite E at 1 2. by rewrite slice_prefix, sliceFrom_suffix.
Qed.

Lemma insertRoutes_includes name capitalizedName updatedContent :
  Js.includes (insertRoutes name capitalizedName updatedContent)
    (routesToAdd name capitalizedName) = true.
Proof.
  destruct (insertRoutes_cases name capitalizedName updatedContent)
    as [(a & b & _ & ->)|(_ & _ & ->)].
  - apply includes_app_r, includes_app_l, includes_refl.
  - apply includes_app_r, includes_refl.
Qed.

Lemma insertRoutes_longer name capitalizedName updatedContent :
  (length updatedContent <
   length (insertRoutes name capitalizedName updatedContent))%nat.
Proof.
  assert (Hl : (0 < length (routesToAdd name capitalizedName))%nat).
  { unfold routesToAdd. rewrite length_app. simpl. lia. }
  destruct (insertRoutes_cases name capitalizedName updatedContent)
    as [(a & b & -> & ->)|(_ & _ & ->)]; rewrite !length_app; lia.
Qed.

(** A text that holds the route block of a page is taken to hold its
    imports: the import steps leave it alone. *)
Lemma patchRoutes_again name capitalizedName routesContent :
  Js.includes routesContent (routesToAdd name capitalizedName) = true ->
  patchRoutes name capitalizedName routesContent =
  insertRoutes name capitalizedName routesContent.
Proof.
  intros H. unfold patchRoutes, addSchemaImports, addStatusImport.
  rewrite (includes_trans _ _ _ H (routesToAdd_statusCode _ _)).
  rewrite (includes_trans _ _ _ H (routesToAdd_schema _ _)). done.
Qed.

(** One application of the route patcher to an existing file. *)
Lemma addRoutesToIndex_run name capitalizedName routesPath content w :
  toPascalCase name = Value capitalizedName ->
  files w !! routesPath = Some (File content) ->
  addRoutesToIndex name routesPath w =
  (Done tt, routesDone w routesPath (patchRoutes name capitalizedName content)).
Proof.
  intros Hn Hf. unfold addRoutesToIndex.
  rewrite bind_emit. unfold bind at 1. rewrite Hn. cbn [liftE ret].
  rewrite pathExists_run.
  rewrite (bool_decide_true _ (mk_is_Some _ _ Hf)). cbn [negb].
  rewrite readFile_run with (c := content) by exact Hf.
  unfold bind. rewrite writeFile_run
    by (change (files w !! routesPath <> Some Dir); by rewrite Hf).
  rewrite emit_run. unfold routesDone. by rewrite !logged_logged.
Qed.

Lemma routesDone_file w routesPath updated :
  files (routesDone w routesPath updated) !! routesPath = Some (File updated).
Proof. unfold routesDone, logged, stored. simpl. apply lookup_insert_eq. Qed.

(** [C1, as amended] Two applications of the route patcher with the same
    identifier to an existing file.  The first writes the patched text.
    The second finds the marks of the first (the route block it inserted
    holds ContentfulStatusCode and the Load...ResponseSchema name), so it
    adds no import; but it inserts the route block once more, at the same
    kind of place, and the text after the second application differs from
    the text after the first. *)
Theorem routes_patch_twice (name routesPath content : text) (w : world) :
  Re.test re_shape name = true ->
  files w !! routesPath = Some (File content) ->
  exists capitalizedName w1 w2 once twice,
    toPascalCase name = Value capitalizedName /\
    addRoutesToIndex name routesPath w = (Done tt, w1) /\
    files w1 !! routesPath = Some (File once) /\
    addRoutesToIndex name routesPath w1 = (Done tt, w2) /\
    files w2 !! routesPath = Some (File twice) /\
    once = patchRoutes name capitalizedName content /\
    twice = insertRoutes name capitalizedName once /\
    ((exists before after,
        once = before ++ after /\
        twice = before ++ routesToAdd name capitalizedName ++ nl ++ after) \/
     twice = once ++ routesToAdd name capitalizedName) /\
    twice <> once.
Proof.
  intros Hn Hf.
  destruct (toPascalCase_alnum name Hn) as (cap & Hcap & _).
  set (once := patchRoutes name cap content).
  set (w1 := routesDone w routesPath once).
  assert (H1 : files w1 !! routesPath = Some (File once))
    by apply routesDone_file.
  assert (Hagain : patchRoutes name cap once = insertRoutes name cap once).
  { apply patchRoutes_again. apply insertRoutes_includes. }
  exists cap, w1, (routesDone w1 routesPath (insertRoutes name cap once)),
    once, (insertRoutes name cap once).
  split; [done|]. split; [by apply addRoutesToIndex_run|].
  split; [done|].
  split; [by rewrite (addRoutesToIndex_run name cap routesPath once), Hagain|].
  split; [apply routesDone_file|]. split; [done|]. split; [done|].
  split.
  - destruct (insertRoutes_cases name cap once)
      as [(a & b & E & ->)|(_ & _ & ->)]; [left; eauto | by right].
  - intros E. pose proof (insertRoutes_longer name cap once) as Hl.
    rewrite E in Hl. lia.
Qed.

End Routes.

Section Examples.

(** [C1, counterexample] On the sample routes file, for the page
    user-profile, the second application of the route patcher changes the
    file again: the text grows. *)
Lemma routes_patch_not_idempotent :
  let w0 := worldWith routesFile sampleRoutes in
  let r1 := addRoutesToIndex (str "user-profile") routesFile w0 in
  let r2 := addRoutesToIndex (str "user-profile") routesFile r1.2 in
  r1.1 = Done tt /\ r2.1 = Done tt /\
  fileOf r2.2 routesFile <> fileOf r1.2 routesFile.
Proof.
  cbv zeta. split; [by vm_compute|]. split; [by vm_compute|].
  intros H. apply (f_equal length) in H. vm_compute in H. discriminate.
Qed.

(** [C2, counterexample] On a routes file without catch-all route and
    without default export, the route patcher appends the block and
    reports success: no warning is among the events. *)
Lemma routes_append_without_warning :
  let w0 := worldWith routesFile bareRoutes in
  let r := addRoutesToIndex (str "user-profile") routesFile w0 in
  Js.includes bareRoutes catchall = false /\
  Js.includes bareRoutes (str "export default") = false /\
  r.1 = Done tt /\
  existsb isWarning (trace r.2) = false.
Proof. cbv zeta. repeat split; by vm_compute. Qed.

End Examples.

Section Substrings.

Implicit Types s t p q : text.

Lemma within_refl s : within s s.
Proof. exists [], []. by rewrite app_nil_r. Qed.

Lemma within_trans t s r : within t s -> within s r -> within t r.
Proof.
  intros (p & q & ->) (p' & q' & ->). exists (p' ++ p), (q ++ q').
  by rewrite <- !app_assoc.
Qed.

Lemma within_elem (x : ascii) t s : within t s -> x ∈ t -> x ∈ s.
Proof.
  intros (p & q & ->) H. apply elem_of_app. right. apply elem_of_app. by left.
Qed.

Lemma within_includes t s pat :
  within t s -> Js.includes s pat = false -> Js.includes t pat = false.
Proof.
  intros (p & q & ->) H.
  apply includes_false_app in H as [_ H].
  by apply includes_false_app in H as [H _].
Qed.

Lemma within_take n s : within (take n s) s.
Proof. exists [], (drop n s). simpl. by rewrite take_drop. Qed.

Lemma within_drop n s : within (drop n s) s.
Proof. exists (take n s), []. by rewrite app_nil_r, take_drop. Qed.

Lemma within_subtext s a b : within (Re.subtext s a b) s.
Proof.
  unfold Re.subtext. eapply within_trans; [apply within_take | apply within_drop].
Qed.

Lemma within_trimStart s : within (Js.trimStart s) s.
Proof.
  induction s as [|c s IH]; simpl; [apply within_refl|].
  destruct (Js.isSpace c); [|apply within_refl].
  eapply within_trans; [exact IH|]. exists [c], []. simpl. by rewrite app_nil_r.
Qed.

Lemma within_rev t s : within t s -> within (rev t) (rev s).
Proof.
  intros (p & q & ->). exists (rev q), (rev p).
  by rewrite !rev_app_distr, <- app_assoc.
Qed.

Lemma within_trimEnd s : within (Js.trimEnd s) s.
Proof.
  unfold Js.trimEnd. rewrite <- (rev_involutive s) at 2.
  apply within_rev, within_trimStart.
Qed.

Lemma within_trim s : within (Js.trim s) s.
Proof.
  unfold Js.trim. eapply within_trans; [apply within_trimEnd | apply within_trimStart].
Qed.

Lemma within_nil s : within [] s.
Proof. by exists [], s. Qed.

Lemma within_group1 r s m : Re.exec r s = Some m -> within (Re.group1 m) s.
Proof.
  unfold Re.exec. destruct (Re.scan r 0 s) as [[j ms]|]; [|done].
  intros [= <-]. simpl. destruct (Re.cap ms) as [[a b]|].
  - apply within_subtext.
  - apply within_nil.
Qed.

(** Removing a trailing comma keeps a prefix. *)
Lemma within_stripComma t : within (Re.replace t re_trailingComma []) t.
Proof.
  unfold Re.replace. destruct (Re.scan re_trailingComma 0 t) as [[i m]|] eqn:E;
    [|apply within_refl].
  apply scan_extent in E as (mid & _ & _ & _ & _ & Hrest & H).
  unfold re_trailingComma, seqs in H. simpl in H.
  apply reaches_seq_inv in H as (s1 & _ & H).
  apply reaches_seq_inv in H as (s2 & _ & H).
  apply reaches_seq_inv in H as (s3 & H3 & H).
  apply reaches_eol_inv in H3 as [-> H3].
  apply reaches_empty_inv in H as ->.
  rewrite <- Hrest, H3. simpl. rewrite app_nil_r. apply within_take.
Qed.

(** What [replace] with a string pattern does. *)
Lemma replace_cases s p r :
  Js.replace s p r = s \/
  exists a b, s = a ++ p ++ b /\ Js.replace s p r = a ++ Js.expand r p a b ++ b.
Proof.
  unfold Js.replace. destruct (Js.find s p) as [i|] eqn:E; [|by left].
  right. apply find_split in E as (a & b & -> & <-).
  exists a, b. split; [done|].
  rewrite take_app_length.
  replace (drop (length a + length p) (a ++ p ++ b)) with b; [done|].
  rewrite app_assoc, <- length_app. by rewrite drop_app_length.
Qed.

End Substrings.

Lemma starts_with_space (p v b : text) :
  " "%char :: v = p ++ b -> p <> [] ->
  Js.startsWith (str " ") (take 1 p) = true.
Proof.
  destruct p as [|h p]; [done|]. simpl. intros [= <- _] _. done.
Qed.

Lemma nonempty_of_mark (f : ascii -> bool) (p : text) :
  existsb f p = true -> p <> [].
Proof. by destruct p. Qed.

(** * The import steps of the route patcher create no anchor

    [pat] stands for one of the two anchors of [insertRoutes].  What is
    used of it: it has none of the characters that delimit the import
    statements, it does not start with a space, it has a character that
    is neither a letter nor a digit, and it does not occur in the fixed
    parts of the import statements. *)
Section Anchor.

Variable pat : text.

Hypothesis pat_i : "i"%char ∉ pat.
Hypothesis pat_semi : ";"%char ∉ pat.
Hypothesis pat_open : "{"%char ∉ pat.
Hypothesis pat_comma : ","%char ∉ pat.
Hypothesis pat_lf : lf ∉ pat.
Hypothesis pat_head : Js.startsWith (str " ") (take 1 pat) = false.
Hypothesis pat_mark : existsb (fun c => negb (alnum c)) pat = true.
Hypothesis pat_mport : Js.includes (str "mport ") pat = false.
Hypothesis pat_status :
  Js.includes (str " ContentfulStatusCode } from " ++ dq ++
               str "hono/utils/http-status" ++ dq) pat = false.
Hypothesis pat_schemas :
  Js.includes (str "} from " ++ dq ++
               str "@shared/types/request-response-schemas" ++ dq) pat = false.

Local Abbreviation free s := (Js.includes s pat = false).

Lemma free_sep (c : ascii) u v : c ∉ pat -> free u -> free v -> free (u ++ c :: v).
Proof. intros Hc Hu Hv. rewrite includes_split_at by done. by rewrite Hu, Hv. Qed.

Lemma pat_nonempty : pat <> [].
Proof. exact (nonempty_of_mark _ _ pat_mark). Qed.

Lemma free_nil : free [].
Proof.
  apply includes_false. intros a b E. symmetry in E.
  apply app_eq_nil in E as [_ E]. apply app_eq_nil in E as [E _].
  by apply pat_nonempty.
Qed.

Lemma free_cons (c : ascii) v : c ∉ pat -> free v -> free (c :: v).
Proof. intros Hc Hv. apply (free_sep c [] v); [done | apply free_nil | done]. Qed.

(** A leading space can be dropped. *)
Lemma free_space v : free v -> free (" "%char :: v).
Proof.
  intros Hv. apply includes_false. intros a b E.
  destruct a as [|x a].
  - simpl in E. apply starts_with_space in E; [|apply pat_nonempty].
    by rewrite pat_head in E.
  - simpl in E. injection E as _ E.
    by apply (proj1 (includes_false _ _) Hv a b).
Qed.

(** A text of letters and digits holds no anchor. *)
Lemma free_alnum v : Forall (fun ch => alnum ch = true) v -> free v.
Proof.
  intros Hv. apply includes_false. intros a b ->.
  pose proof pat_mark as Hm.
  apply existsb_exists in Hm as (x & Hx & Hn).
  apply Forall_app in Hv as [_ Hv]. apply Forall_app in Hv as [Hv _].
  rewrite Forall_forall in Hv. apply list_elem_of_In, Hv in Hx.
  by rewrite Hx in Hn.
Qed.

Lemma free_within t s : within t s -> free s -> free t.
Proof. apply within_includes. Qed.

Lemma free_app_inv u v : free (u ++ v) -> free u /\ free v.
Proof. apply includes_false_app. Qed.

(** ** The fixed parts *)

Lemma free_between a m b :
  free a -> free m -> free b -> free (a ++ "i"%char :: m ++ ";"%char :: b).
Proof.
  intros Ha Hm Hb. apply free_sep; [done | done |]. by apply free_sep.
Qed.

Lemma free_ident (l r cap : text) :
  Forall (fun ch => alnum ch = true) l -> Forall (fun ch => alnum ch = true) r ->
  Forall (fun ch => alnum ch = true) cap ->
  free (str "  " ++ l ++ cap ++ r).
Proof.
  intros Hl Hr Hc. apply free_space, free_space, free_alnum.
  by repeat apply Forall_app_2.
Qed.

Lemma alnum_lit (l : text) :
  forallb alnum l = true -> Forall (fun ch => alnum ch = true) l.
Proof.
  rewrite forallb_forall, Forall_forall. intros H x Hx.
  by apply H, list_elem_of_In.
Qed.

(** ** The import statements *)

Lemma statusImportLine_shape :
  statusImportLine =
  "i"%char :: (str "mport " ++ "{"%char :: statusTail) ++ ";"%char :: nl.
Proof. reflexivity. Qed.

Lemma free_statusLine_body : free (str "mport " ++ "{"%char :: statusTail).
Proof. apply free_sep; [done | exact pat_mport | exact pat_status]. Qed.

Lemma statusStatement_shape kept :
  statusStatement kept =
  "i"%char :: (str "mport " ++ "{"%char :: (" "%char :: kept) ++
               ","%char :: statusTail) ++ [";"%char].
Proof.
  unfold statusStatement, statusTail. simpl. rewrite <- !app_assoc. reflexivity.
Qed.

Lemma free_statusStatement a kept b :
  free a -> free kept -> free b -> free (a ++ statusStatement kept ++ b).
Proof.
  intros Ha Hk Hb. rewrite statusStatement_shape.
  change (a ++ ("i"%char :: ?m ++ [";"%char]) ++ b)
    with (a ++ "i"%char :: (m ++ [";"%char]) ++ b).
  rewrite <- app_assoc. apply free_between; [done | | done].
  apply free_sep; [done | exact pat_mport |].
  apply free_sep; [done | by apply free_space | exact pat_status].
Qed.

Lemma free_one_ident (l r cap : text) :
  forallb alnum l = true -> forallb alnum r = true ->
  Forall (fun ch => alnum ch = true) cap ->
  free (ident l cap r).
Proof. intros Hl Hr Hc. apply free_ident; [by apply alnum_lit.. | done]. Qed.

Lemma schemaStatement_shape cap kept :
  schemaImportStatement (schemaImportsAppended cap kept) =
  "i"%char ::
    (str "mport " ++ "{"%char :: kept ++
     ","%char :: [] ++ lf :: ident (str "Load") cap (str "ResponseSchema") ++
     ","%char :: [] ++ lf :: ident (str "Save") cap (str "RequestSchema") ++
     ","%char :: [] ++ lf :: ident (str "Save") cap (str "ResponseSchema") ++
     lf :: schemasTail) ++ [";"%char].
Proof.
  unfold schemaImportStatement, schemaImportsAppended, loadResponseSchema,
    schemasTail, ident.
  repeat (progress (simpl; rewrite <- ?app_assoc)). reflexivity.
Qed.

Lemma free_schemaStatement a cap kept b :
  Forall (fun ch => alnum ch = true) cap ->
  free a -> free kept -> free b ->
  free (a ++ schemaImportStatement (schemaImportsAppended cap kept) ++ b).
Proof.
  intros Hc Ha Hk Hb. rewrite schemaStatement_shape.
  change (a ++ ("i"%char :: ?m ++ [";"%char]) ++ b)
    with (a ++ "i"%char :: (m ++ [";"%char]) ++ b).
  rewrite <- app_assoc. apply free_between; [done | | done].
  apply free_sep; [done | exact pat_mport |].
  apply free_sep; [done | done |].
  apply free_sep; [done | apply free_nil |].
  apply free_sep; [done | by apply free_one_ident |].
  apply free_sep; [done | apply free_nil |].
  apply free_sep; [done | by apply free_one_ident |].
  apply free_sep; [done | apply free_nil |].
  apply free_sep; [done | by apply free_one_ident | exact pat_schemas].
Qed.

Lemma schemaImportToAdd_shape cap :
  schemaImportToAdd cap =
  "i"%char ::
    (str "mport " ++ "{"%char :: [] ++
     lf :: ident (str "Load") cap (str "ResponseSchema") ++
     ","%char :: [] ++ lf :: ident (str "Save") cap (str "RequestSchema") ++
     ","%char :: [] ++ lf :: ident (str "Save") cap (str "ResponseSchema") ++
     ","%char :: [] ++ lf :: schemasTail) ++ ";"%char :: nl.
Proof.
  unfold schemaImportToAdd, loadResponseSchema, schemasTail, ident.
  repeat (progress (simpl; rewrite <- ?app_assoc)). reflexivity.
Qed.

Lemma free_schemaImportToAdd a cap b :
  Forall (fun ch => alnum ch = true) cap ->
  free a -> free b -> free (a ++ schemaImportToAdd cap ++ b).
Proof.
  intros Hc Ha Hb. rewrite schemaImportToAdd_shape.
  change (a ++ ("i"%char :: ?m ++ ";"%char :: nl) ++ b)
    with (a ++ "i"%char :: (m ++ ";"%char :: nl) ++ b).
  rewrite <- app_assoc. apply free_between; [done | |].
  - apply free_sep; [done | exact pat_mport |].
    apply free_sep; [done | apply free_nil |].
    apply free_sep; [done | by apply free_one_ident |].
    apply free_sep; [done | apply free_nil |].
    apply free_sep; [done | by apply free_one_ident |].
    apply free_sep; [done | apply free_nil |].
    apply free_sep; [done | by apply free_one_ident |].
    apply free_sep; [done | apply free_nil | exact pat_schemas].
  - by apply (free_sep lf []); [| apply free_nil |].
Qed.

Lemma free_statusImportLine a b :
  free (a ++ nl ++ b) -> free ((a ++ nl) ++ statusImportLine ++ b).
Proof.
  intros H. apply free_app_inv in H as [Ha Hb].
  apply free_app_inv in Hb as [_ Hb].
  rewrite statusImportLine_shape.
  replace ((a ++ nl) ++ ("i"%char :: (str "mport " ++ "{"%char :: statusTail) ++
                         ";"%char :: nl) ++ b)
    with (a ++ lf :: ([] ++ "i"%char :: (str "mport " ++ "{"%char :: statusTail) ++
                      ";"%char :: ([] ++ lf :: b))).
  - apply free_sep; [done | done |].
    apply free_between; [apply free_nil | apply free_statusLine_body |].
    by apply free_sep; [| apply free_nil |].
  - rewrite <- !app_assoc. simpl. by rewrite <- ?app_assoc.
Qed.

(** ** The two import steps *)

Lemma kept_within r content m :
  Re.exec r content = Some m ->
  within (Re.replace (Js.trim (Re.group1 m)) re_trailingComma []) content.
Proof.
  intros Hm. eapply within_trans; [apply within_stripComma|].
  eapply within_trans; [apply within_trim|]. by eapply within_group1.
Qed.

Lemma expand_statusStatement kept matched before after :
  noPattern kept = true ->
  Js.expand (statusStatement kept) matched before after = statusStatement kept.
Proof.
  intros Hk. unfold statusStatement.
  rewrite expand_app_plain by (by apply no_char).
  rewrite <- !app_assoc.
  change (kept ++ str ", ContentfulStatusCode" ++ ?y)
    with (kept ++ ","%char :: (str " ContentfulStatusCode" ++ y)).
  rewrite expand_app_break by reflexivity.
  rewrite (expand_noPattern _ _ _ kept Hk).
  by rewrite expand_plain by (by apply no_char).
Qed.

Lemma expand_schemaStatement cap kept matched before after :
  ("$"%char ∉ cap) -> noPattern kept = true ->
  Js.expand (schemaImportStatement (schemaImportsAppended cap kept))
    matched before after =
  schemaImportStatement (schemaImportsAppended cap kept).
Proof.
  intros Hc Hk. unfold schemaImportStatement, schemaImportsAppended.
  rewrite expand_app_plain by (by apply no_char).
  rewrite <- !app_assoc.
  change (kept ++ str ",
  " ++ ?y) with (kept ++ ","%char :: (str "
  " ++ y)).
  rewrite expand_app_break by reflexivity.
  rewrite (expand_noPattern _ _ _ kept Hk).
  rewrite expand_plain; [done|].
  unfold loadResponseSchema.
  repeat (first [ apply not_elem_of_cons; split; [done|]
                | apply notin_app
                | done
                | by apply no_char ]).
Qed.

Lemma kept_noPattern r content m :
  Re.exec r content = Some m ->
  noPattern (Re.group1 m) = true ->
  noPattern (Re.replace (Js.trim (Re.group1 m)) re_trailingComma []) = true.
Proof.
  intros Hm Hp.
  assert (Hw : within (Re.replace (Js.trim (Re.group1 m)) re_trailingComma [])
                 (Re.group1 m)).
  { eapply within_trans; [apply within_stripComma | apply within_trim]. }
  destruct Hw as (a & b & E). rewrite E in Hp.
  apply noPattern_app_inv in Hp as [_ Hp].
  by apply noPattern_app_inv in Hp as [Hp _].
Qed.

Lemma status_step_free content :
  free content ->
  (forall m, Re.exec re_statusImport content = Some m ->
             noPattern (Re.group1 m) = true) ->
  free (addStatusImport content content).
Proof.
  intros Hc Hd. unfold addStatusImport.
  destruct (Js.includes content statusCode); [done|]. cbn [negb].
  destruct (Re.exec re_statusImport content) as [m|] eqn:Em.
  - pose proof (kept_within _ _ _ Em) as Hk.
    pose proof (kept_noPattern _ _ _ Em (Hd m eq_refl)) as Hkp.
    set (kept := Re.replace (Js.trim (Re.group1 m)) re_trailingComma []) in *.
    destruct (Js.includes (Js.trim (Re.group1 m)) statusCode); [done|].
    cbn [negb]. cbv zeta. fold kept.
    change (str "import { " ++ (kept ++ str ", ContentfulStatusCode") ++
            str " } from " ++ dq ++ str "hono/utils/http-status" ++ dq ++ str ";")
      with (statusStatement kept).
    assert (Hkfree : free kept) by (by eapply free_within).
    destruct (replace_cases content (Re.whole m) (statusStatement kept))
      as [->|(a & b & E & ->)]; [done|].
    rewrite expand_statusStatement by done.
    rewrite E in Hc. apply free_app_inv in Hc as [Ha Hb].
    apply free_app_inv in Hb as [_ Hb].
    by apply free_statusStatement.
  - cbv zeta.
    destruct (indexOfFrom_cases content nl (Js.indexOf content (str "import")))
      as [->|(a & b & E & ->)]; [done|].
    replace (negb (Z.of_nat (length a) =? -1)) with true
      by (symmetry; apply negb_true_iff, Z.eqb_neq; lia).
    replace (Z.of_nat (length a) + 1) with (Z.of_nat (length (a ++ nl)))
      by (rewrite length_app; simpl; lia).
    rewrite E at 1 2. rewrite (app_assoc a nl b).
    rewrite slice_prefix, sliceFrom_suffix.
    apply free_statusImportLine. by rewrite <- E.
Qed.

Lemma schema_step_free cap content updatedContent :
  Forall (fun ch => alnum ch = true) cap ->
  free content ->
  (forall m, Re.exec re_schemasImport content = Some m ->
             noPattern (Re.group1 m) = true) ->
  free updatedContent ->
  free (addSchemaImports cap content updatedContent).
Proof.
  intros Hcap Hc Hd Hu. unfold addSchemaImports.
  destruct (Js.includes content (loadResponseSchema cap)); [done|]. cbn [negb].
  destruct (Re.exec re_schemasImport content) as [m|] eqn:Em.
  - pose proof (kept_within _ _ _ Em) as Hk. cbv zeta.
    pose proof (kept_noPattern _ _ _ Em (Hd m eq_refl)) as Hkp.
    set (kept := Re.replace (Js.trim (Re.group1 m)) re_trailingComma []) in *.
    assert (Hkfree : free kept) by (by eapply free_within).
    set (stmt := schemaImportStatement (schemaImportsAppended cap kept)).
    destruct (replace_cases updatedContent (Re.whole m) stmt)
      as [->|(a & b & E & ->)]; [done|].
    assert (Hcd : "$"%char ∉ cap).
    { intros Hin. rewrite Forall_forall in Hcap. by apply Hcap in Hin. }
    unfold stmt. rewrite expand_schemaStatement by done.
    rewrite E in Hu. apply free_app_inv in Hu as [Ha Hb].
    apply free_app_inv in Hb as [_ Hb].
    by apply free_schemaStatement.
  - cbv zeta.
    destruct (indexOf_cases updatedContent (str "import"))
      as [[_ ->]|(a & b & E & ->)]; [done|].
    replace (negb (Z.of_nat (length a) =? -1)) with true
      by (symmetry; apply negb_true_iff, Z.eqb_neq; lia).
    rewrite E at 1 2. rewrite slice_prefix, sliceFrom_suffix.
    rewrite E in Hu. apply free_app_inv in Hu as [Ha Hb].
    by apply free_schemaImportToAdd.
Qed.

(** The text handed to [insertRoutes] is free of the anchor when the
    text read is. *)
Lemma import_steps_free cap content :
  Forall (fun ch => alnum ch = true) cap ->
  free content ->
  (forall m, Re.exec re_statusImport content = Some m ->
             noPattern (Re.group1 m) = true) ->
  (forall m, Re.exec re_schemasImport content = Some m ->
             noPattern (Re.group1 m) = true) ->
  free (addSchemaImports cap content (addStatusImport content content)).
Proof.
  intros Hcap Hc Hd1 Hd2. apply schema_step_free; try done.
  by apply status_step_free.
Qed.

End Anchor.

Section Append.

Lemma import_steps_no_catchall cap content :
  Forall (fun ch => alnum ch = true) cap ->
  Js.includes content catchall = false ->
  (forall m, Re.exec re_statusImport content = Some m ->
             noPattern (Re.group1 m) = true) ->
  (forall m, Re.exec re_schemasImport content = Some m ->
             noPattern (Re.group1 m) = true) ->
  Js.includes (addSchemaImports cap content (addStatusImport content content))
    catchall = false.
Proof.
  apply import_steps_free; try (by apply no_char); reflexivity.
Qed.

Lemma import_steps_no_export cap content :
  Forall (fun ch => alnum ch = true) cap ->
  Js.includes content (str "export default") = false ->
  (forall m, Re.exec re_statusImport content = Some m ->
             noPattern (Re.group1 m) = true) ->
  (forall m, Re.exec re_schemasImport content = Some m ->
             noPattern (Re.group1 m) = true) ->
  Js.includes (addSchemaImports cap content (addStatusImport content content))
    (str "export default") = false.
Proof.
  apply import_steps_free; try (by apply no_char); reflexivity.
Qed.

Lemma insertRoutes_at_end name cap updatedContent :
  Js.includes updatedContent catchall = false ->
  Js.includes updatedContent (str "export default") = false ->
  insertRoutes name cap updatedContent = updatedContent ++ routesToAdd name cap.
Proof.
  intros Hc He. unfold insertRoutes. cbv zeta.
  destruct (indexOf_cases updatedContent catchall) as [[_ ->]|(a & b & E & _)].
  - replace (negb (-1 =? -1)) with false by reflexivity. cbv iota.
    destruct (lastIndexOf_cases updatedContent (str "export default"))
      as [[_ ->]|(a & b & E & _)]; [done|].
    rewrite E in He. by rewrite includes_app_r in He
      by (apply includes_app_l, includes_refl).
  - rewrite E in Hc. by rewrite includes_app_r in Hc
      by (apply includes_app_l, includes_refl).
Qed.

(** [C2, as amended] The routes file exists, its text holds no catch-all
    route and no [export default], and the name has the identifier shape.
    The import lists that the two import expressions match hold no
    replacement pattern of [replace] (a dollar sign followed by a dollar
    sign, an ampersand, a backquote or a quote); dollar signs elsewhere
    in the file do not matter.  Then [addRoutesToIndex] returns normally
    and writes the text back with the route block appended at its end
    (after the import updates).  It emits no warning: the events are the
    start of the spinner, the existence test, the read, the write and the
    success message. *)
Theorem routes_appended_at_end (name routesPath content : text) (w : world) :
  Re.test re_shape name = true ->
  files w !! routesPath = Some (File content) ->
  Js.includes content catchall = false ->
  Js.includes content (str "export default") = false ->
  (forall m, Re.exec re_statusImport content = Some m ->
             noPattern (Re.group1 m) = true) ->
  (forall m, Re.exec re_schemasImport content = Some m ->
             noPattern (Re.group1 m) = true) ->
  exists capitalizedName withImports,
    toPascalCase name = Value capitalizedName /\
    withImports =
      addSchemaImports capitalizedName content (addStatusImport content content) /\
    addRoutesToIndex name routesPath w =
    (Done tt,
     routesDone w routesPath
       (withImports ++ routesToAdd name capitalizedName)) /\
    existsb isWarning
      [SpinnerStart (str "Adding routes to index.ts...");
       FsPathExists routesPath; FsReadFile routesPath;
       FsWriteFile routesPath (withImports ++ routesToAdd name capitalizedName);
       SpinnerSucceed (str "Added routes to index.ts")] = false.
Proof.
  intros Hn Hf Hc He Hd1 Hd2.
  destruct (toPascalCase_alnum name Hn) as (cap & Hcap & Halnum).
  exists cap, (addSchemaImports cap content (addStatusImport content content)).
  split; [done|]. split; [done|]. split; [|done].
  rewrite (addRoutesToIndex_run name cap routesPath content) by done.
  f_equal. f_equal. unfold patchRoutes.
  apply insertRoutes_at_end.
  - by apply import_steps_no_catchall.
  - by apply import_steps_no_export.
Qed.

End Append.

Section Witnesses.

Lemma routes_patch_twice_witness :
  Re.test re_shape (str "user-profile") = true /\
  files (worldWith routesFile sampleRoutes) !! routesFile =
    Some (File sampleRoutes) /\
  exists capitalizedName w1 w2 once twice,
    toPascalCase (str "user-profile") = Value capitalizedName /\
    addRoutesToIndex (str "user-profile") routesFile
      (worldWith routesFile sampleRoutes) = (Done tt, w1) /\
    files w1 !! routesFile = Some (File once) /\
    addRoutesToIndex (str "user-profile") routesFile w1 = (Done tt, w2) /\
    files w2 !! routesFile = Some (File twice) /\
    once = patchRoutes (str "user-profile") capitalizedName sampleRoutes /\
    twice = insertRoutes (str "user-profile") capitalizedName once /\
    ((exists before after,
        once = before ++ after /\
        twice = before ++ routesToAdd (str "user-profile") capitalizedName ++
                nl ++ after) \/
     twice = once ++ routesToAdd (str "user-profile") capitalizedName) /\
    twice <> once.
Proof.
  split; [reflexivity|]. split; [reflexivity|].
  apply (routes_patch_twice (str "user-profile") routesFile sampleRoutes
           (worldWith routesFile sampleRoutes)); reflexivity.
Defined.

Lemma routes_appended_at_end_witness :
  Re.test re_shape (str "user-profile") = true /\
  files (worldWith routesFile templateRoutes) !! routesFile =
    Some (File templateRoutes) /\
  Js.includes templateRoutes catchall = false /\
  Js.includes templateRoutes (str "export default") = false /\
  ("$"%char ∈ templateRoutes) /\
  Re.exec re_statusImport templateRoutes = Some templateStatusMatch /\
  noPattern (Re.group1 templateStatusMatch) = true /\
  Re.exec re_schemasImport templateRoutes = Some templateSchemasMatch /\
  noPattern (Re.group1 templateSchemasMatch) = true /\
  exists capitalizedName withImports,
    toPascalCase (str "user-profile") = Value capitalizedName /\
    withImports =
      addSchemaImports capitalizedName templateRoutes
        (addStatusImport templateRoutes templateRoutes) /\
    addRoutesToIndex (str "user-profile") routesFile
      (worldWith routesFile templateRoutes) =
    (Done tt,
     routesDone (worldWith routesFile templateRoutes) routesFile
       (withImports ++ routesToAdd (str "user-profile") capitalizedName)) /\
    existsb isWarning
      [SpinnerStart (str "Adding routes to index.ts...");
       FsPathExists routesFile; FsReadFile routesFile;
       FsWriteFile routesFile
         (withImports ++ routesToAdd (str "user-profile") capitalizedName);
       SpinnerSucceed (str "Added routes to index.ts")] = false.
Proof.
  assert (E1 : Re.exec re_statusImport templateRoutes = Some templateStatusMatch)
    by (vm_compute; reflexivity).
  assert (E2 : Re.exec re_schemasImport templateRoutes = Some templateSchemasMatch)
    by (vm_compute; reflexivity).
  assert (P1 : noPattern (Re.group1 templateStatusMatch) = true) by reflexivity.
  assert (P2 : noPattern (Re.group1 templateSchemasMatch) = true) by reflexivity.
  assert (H1 : forall m, Re.exec re_statusImport templateRoutes = Some m ->
                 noPattern (Re.group1 m) = true).
  { intros m Hm. rewrite E1 in Hm. injection Hm as <-. exact P1. }
  assert (H2 : forall m, Re.exec re_schemasImport templateRoutes = Some m ->
                 noPattern (Re.group1 m) = true).
  { intros m Hm. rewrite E2 in Hm. injection Hm as <-. exact P2. }
  split; [reflexivity|]. split; [reflexivity|]. split; [reflexivity|].
  split; [reflexivity|].
  split; [apply list_elem_of_In; vm_compute; tauto|].
  split; [exact E1|]. split; [exact P1|]. split; [exact E2|]. split; [exact P2|].
  apply (routes_appended_at_end (str "user-profile") routesFile templateRoutes
           (worldWith routesFile templateRoutes));
    [reflexivity | reflexivity | reflexivity | reflexivity | exact H1 | exact H2].
Defined.

Lemma collision_guard_witness :
  nameProblem (str "user-profile") = None /\
  is_Some (files (worldWithDir (pagePath (str "user-profile"))) !!
             pagePath (str "user-profile")) /\
  createPage emptyCatalog (str "user-profile") defaultOptions
    (worldWithDir (pagePath (str "user-profile"))) =
  (Exited 1,
   logged (worldWithDir (pagePath (str "user-profile")))
     [ConsoleLog (banner (str "user-profile") defaultOptions);
      FsPathExists (pagePath (str "user-profile"));
      ConsoleError (collision (str "user-profile"))]).
Proof.
  assert (Hd : is_Some (files (worldWithDir (pagePath (str "user-profile"))) !!
                          pagePath (str "user-profile")))
    by (apply (mk_is_Some _ Dir); reflexivity).
  split; [reflexivity|]. split; [exact Hd|].
  apply (collision_guard emptyCatalog (str "user-profile") defaultOptions
           (worldWithDir (pagePath (str "user-profile"))));
    [reflexivity | exact Hd].
Defined.

Lemma missing_collaborator_skipped_witness :
  Re.test re_shape (str "user-profile") = true /\
  files emptyWorld !! routes defaultOptions = None /\
  files emptyWorld !! userShard defaultOptions = None /\
  (addRoutesToIndex (str "user-profile") (routes defaultOptions) ;; ret tt)
    emptyWorld =
  ret tt (logged emptyWorld
            [SpinnerStart (str "Adding routes to index.ts...");
             FsPathExists (routes defaultOptions);
             SpinnerWarn (str "Routes file not found at " ++
                          routes defaultOptions ++
                          str ", skipping route generation")]) /\
  (addUserShardFunctions (str "user-profile") (userShard defaultOptions) ;; ret tt)
    emptyWorld =
  ret tt (logged emptyWorld
            [SpinnerStart (str "Adding UserShard functions...");
             FsPathExists (userShard defaultOptions);
             SpinnerWarn (str "UserShard file not found at " ++
                          userShard defaultOptions ++
                          str ", skipping UserShard generation")]).
Proof.
  split; [reflexivity|]. split; [reflexivity|]. split; [reflexivity|].
  destruct (missing_collaborator_skipped (str "user-profile")
              (routes defaultOptions) (userShard defaultOptions)
              (ret tt) emptyWorld eq_refl) as [H1 H2].
  split; [apply H1 | apply H2]; reflexivity.
Defined.

Lemma vite_without_mapping_witness :
  files (worldWith viteConfigPath plainViteConfig) !! viteConfigPath =
    Some (File plainViteConfig) /\
  Re.exec re_input plainViteConfig = None /\
  updateViteConfig (str "user-profile")
    (worldWith viteConfigPath plainViteConfig) =
  (Done tt, logged (worldWith viteConfigPath plainViteConfig)
              [FsPathExists viteConfigPath;
               FsReadFile viteConfigPath;
               ConsoleWarn noMappingWarning]).
Proof.
  split; [reflexivity|]. split; [reflexivity|].
  apply (vite_without_mapping (str "user-profile") plainViteConfig
           (worldWith viteConfigPath plainViteConfig)); reflexivity.
Defined.

Lemma mount_silently_skipped_witness :
  Js.includes (str "ai") (str "app.listen") = false /\
  files (worldWith serverFile sampleServer) !! serverFile =
    Some (File sampleServer) /\
  Js.includes sampleServer (str "app.listen") = false /\
  exists updated,
    ((Js.includes sampleServer (str "import { aiRouter } from './api/ai';") = true /\
      updated = sampleServer) \/
     (Js.includes sampleServer (str "import { aiRouter } from './api/ai';") = false /\
      exists before after,
        sampleServer = before ++ after /\
        (before = [] \/ exists a, before = a ++ nl) /\
        updated = before ++ str "import { aiRouter } from './api/ai';" ++ nl ++
                  after)) /\
    Js.includes updated (str "import { aiRouter } from './api/ai';") = true /\
    Js.includes updated (str "app.listen") = false /\
    (lf ∉ str "ai" -> Js.includes (str "ai") (str "app.") = false ->
     Js.includes sampleServer (str "app.route('/', aiRouter);") = false ->
     Js.includes updated (str "app.route('/', aiRouter);") = false) /\
    updateMainServer (str "ai") (worldWith serverFile sampleServer) =
    (Done tt, stored (logged (worldWith serverFile sampleServer)
                        [FsPathExists serverFile;
                         FsReadFile serverFile;
                         FsWriteFile serverFile updated])
                     serverFile updated).
Proof.
  assert (H1 : Js.includes (str "ai") (str "app.listen") = false) by reflexivity.
  assert (H2 : files (worldWith serverFile sampleServer) !! serverFile =
               Some (File sampleServer)) by reflexivity.
  assert (H3 : Js.includes sampleServer (str "app.listen") = false)
    by reflexivity.
  split; [exact H1|]. split; [exact H2|]. split; [exact H3|].
  exact (mount_silently_skipped (str "ai") sampleServer
           (worldWith serverFile sampleServer) H1 H2 H3).
Defined.

(** [C10, counterexample] The route name webhooks/app.listen, which
    [addWebhookEndpoint] gives for the provider app.listen.  The sample
    server text holds neither the mount statement nor [app.listen]; the
    import statement brings [app.listen] into the text, and the mount
    statement is inserted before it, inside the import line. *)
Lemma mount_inside_import :
  let routeName := str "webhooks/app.listen" in
  let w0 := worldWith serverFile sampleServer in
  let r := updateMainServer routeName w0 in
  Js.includes sampleServer (mountStatement routeName) = false /\
  Js.includes sampleServer (str "app.listen") = false /\
  r.1 = Done tt /\
  fileOf r.2 serverFile =
    str "import { Hono } from 'hono';
import { webhookRouter } from './webhooks/app.route('/', webhookRouter);

app.listen';
const app = new Hono();
export default app;
" /\
  Js.includes (fileOf r.2 serverFile) (mountStatement routeName) = true.
Proof. cbv zeta. repeat split; by vm_compute. Qed.

Lemma dollar_sign_matters :
  let r := addRoutesToIndex (str "user-profile") routesFile
             (worldWith routesFile trapRoutes) in
  Js.includes trapRoutes catchall = false /\
  Js.includes trapRoutes (str "export default") = false /\
  r.1 = Done tt /\
  Js.endsWith (fileOf r.2 routesFile)
    (routesToAdd (str "user-profile") (str "UserProfile")) = false.
Proof. cbv zeta. repeat split; by vm_compute. Qed.

End Witnesses.

(* ================================================================== *)
(** * The name transforms on every input *)
(* ================================================================== *)

Section TransformDomain.

Import Re.

(** What the check of one part accepts. *)
Lemma part_inv part : test re_part part = true -> okPart part.
Proof.
  intros H. apply test_scan in H as (j & m & H).
  apply scan_extent in H as (mid & _ & _ & _ & _ & _ & H).
  unfold re_part, Plus in H.
  apply reaches_seq_inv in H as (s1 & H1 & H).
  apply reaches_bol_inv in H1 as [-> Hj]. simpl in Hj. subst j.
  apply reaches_seq_inv in H as (s2 & H2 & H).
  apply reaches_seq_inv in H2 as (s3 & H3 & H2).
  apply reaches_chr_inv in H3 as (c & t & E & Hc & ->). simpl in E.
  apply reaches_star_chr in H2 as (w & Ew & Hw & _ & _). simpl in Ew.
  apply reaches_eol_inv in H as [-> E3].
  rewrite E3, app_nil_r in Ew. subst w. rewrite drop_0 in E. subst part.
  split; [done|]. simpl. by rewrite Hc, Hw.
Qed.

(** A list of parts is made of good parts, or has a first bad one. *)
Lemma parts_cases l :
  Forall okPart l \/
  exists good bad rest, l = good ++ bad :: rest /\ Forall okPart good /\
                        test re_part bad = false.
Proof.
  induction l as [|p l IH]; [by left|].
  destruct (test re_part p) eqn:E.
  - apply part_inv in E. destruct IH as [IH|(good & bad & rest & -> & Hg & Hb)].
    + left. by constructor.
    + right. exists (p :: good), bad, rest. repeat split; [|done]. by constructor.
  - right. by exists [], p, l.
Qed.

Lemma mapE_pascal_raise good bad rest i :
  Forall okPart good -> test re_part bad = false ->
  mapE (fun _ => pascalPart) i (good ++ bad :: rest) = Raised (invalidPart bad).
Proof.
  intros Hg Hb. revert i.
  induction Hg as [|p l [Hne Hp] _ IH]; intros i; simpl.
  - unfold pascalPart. by rewrite Hb.
  - unfold pascalPart at 1. rewrite part_accepted by done. simpl. by rewrite IH.
Qed.

Lemma mapE_camel_raise good bad rest i :
  Forall okPart good -> test re_part bad = false ->
  mapE camelPart i (good ++ bad :: rest) = Raised (invalidPart bad).
Proof.
  intros Hg Hb. revert i.
  induction Hg as [|p l [Hne Hp] _ IH]; intros i; simpl.
  - unfold camelPart. by rewrite Hb.
  - unfold camelPart at 1. rewrite part_accepted by done. simpl.
    destruct (Nat.eqb i 0); simpl; by rewrite IH.
Qed.

(** The non-empty pieces of a name. *)
Lemma pieces_nil name :
  List.filter nonEmpty (Js.split "-" name) = [] <->
  forallb (Js.isChar "-") name = true.
Proof.
  induction name as [|c x IH]; [done|]. simpl.
  unfold Js.isChar at 1. destruct (Ascii.eqb c "-") eqn:E; simpl; [done|].
  destruct (split_cons_other "-" c x E) as (p0 & r & E1 & E2).
  simpl in E2. rewrite E in E2. rewrite E2. simpl. done.
Qed.

Lemma nameChar_alt c :
  nameChar c = Js.isChar "-" c || lowerOrDigit c.
Proof.
  unfold nameChar, lowerOrDigit.
  destruct (Js.isLower c), (Js.isDigit c), (Js.isChar "-" c); done.
Qed.

(** The characters of a name are its separators and the characters of its
    pieces. *)
Lemma pieces_chars name :
  Forall (fun piece => forallb lowerOrDigit piece = true) (Js.split "-" name) ->
  forallb nameChar name = true.
Proof.
  induction name as [|c x IH]; [done|]. simpl. rewrite nameChar_alt.
  unfold Js.isChar at 1. destruct (Ascii.eqb c "-") eqn:E; simpl.
  - intros H. inversion H; subst. by apply IH.
  - destruct (split_cons_other "-" c x E) as (p0 & r & E1 & E2).
    simpl in E2. rewrite E in E2. rewrite E2, E1 in *.
    intros H. inversion H as [|? ? Hc Hr]; subst. simpl in Hc.
    apply andb_true_iff in Hc as [Hc Hp0]. rewrite Hc. simpl.
    apply IH. by constructor.
Qed.

Lemma okParts_pieces l :
  Forall okPart (List.filter nonEmpty l) ->
  Forall (fun piece => forallb lowerOrDigit piece = true) l.
Proof.
  induction l as [|p l IH]; simpl; [done|].
  destruct p as [|c p]; simpl.
  - intros H. constructor; [done | by apply IH].
  - intros H. inversion H as [|? ? [_ Hp] Hl]; subst.
    constructor; [done | by apply IH].
Qed.

Lemma hyphens_no_part name :
  forallb (Js.isChar "-") name = true -> existsb lowerOrDigit name = false.
Proof.
  induction name as [|c x IH]; [done|]. simpl.
  intros H. apply andb_true_iff in H as [Hc Hx]. rewrite (IH Hx), orb_false_r.
  apply Ascii.eqb_eq in Hc as ->. done.
Qed.

Lemma not_hyphens_part name :
  forallb nameChar name = true -> forallb (Js.isChar "-") name = false ->
  existsb lowerOrDigit name = true.
Proof.
  induction name as [|c x IH]; [done|]. simpl.
  intros H. apply andb_true_iff in H as [Hc Hx].
  rewrite nameChar_alt in Hc.
  destruct (Js.isChar "-" c); simpl in *; [|by rewrite Hc].
  intros H. rewrite (IH Hx H). by rewrite orb_true_r.
Qed.

(** The four ways the two transforms can go. *)
Lemma transforms_cases name :
  let parts := List.filter nonEmpty (Js.split "-" name) in
  (name = [] /\
   toPascalCase name = Raised (str "Invalid name: must be a non-empty string") /\
   toCamelCase name = Raised (str "Invalid name: must be a non-empty string")) \/
  (name <> [] /\ parts = [] /\
   toPascalCase name = Raised (str "Invalid name: contains only hyphens") /\
   toCamelCase name = Raised (str "Invalid name: contains only hyphens")) \/
  (exists good bad rest, parts = good ++ bad :: rest /\
     Forall okPart good /\ test re_part bad = false /\
     toPascalCase name = Raised (invalidPart bad) /\
     toCamelCase name = Raised (invalidPart bad)) \/
  (exists p ps, parts = p :: ps /\ Forall okPart (p :: ps) /\
     toPascalCase name = Value (Js.join [] (map capitalize (p :: ps))) /\
     toCamelCase name = Value (Js.join [] (p :: map capitalize ps))).
Proof.
  intros parts. destruct name as [|c x]; [by left|]. right.
  set (name := c :: x) in *.
  assert (El : Nat.eqb (length name) 0 = false) by done.
  unfold toPascalCase, toCamelCase. rewrite El. fold parts.
  destruct parts as [|p ps] eqn:Ep.
  - left. done.
  - right. destruct (parts_cases (p :: ps)) as [H|(good & bad & rest & E & Hg & Hb)].
    + right. exists p, ps. split; [done|]. split; [done|].
      cbn [length Nat.eqb]. rewrite mapE_pascal, mapE_camel by done. done.
    + left. exists good, bad, rest. split; [done|]. split; [done|]. split; [done|].
      cbn [length Nat.eqb]. rewrite E.
      rewrite mapE_pascal_raise, mapE_camel_raise by done. done.
Qed.

Lemma okPart_accepted p : okPart p -> test re_part p = true.
Proof. intros [H1 H2]. by apply part_accepted. Qed.

(** [X1] A name is in the domain of the two transforms exactly when it is
    made of lower-case letters, digits and hyphens and holds at least one
    letter or digit: then both return a value; on every other name both
    throw, and they throw the same error. *)
Theorem transforms_domain (name : text) :
  if forallb nameChar name && existsb lowerOrDigit name
  then exists p c, toPascalCase name = Value p /\ toCamelCase name = Value c
  else exists e, toPascalCase name = Raised e /\ toCamelCase name = Raised e.
Proof.
  destruct (transforms_cases name)
    as [(-> & H1 & H2)|[(Hne & Ep & H1 & H2)|[(good & bad & rest & Ep & Hg & Hb & H1 & H2)|
        (p & ps & Ep & Hall & H1 & H2)]]].
  - simpl. eauto.
  - apply pieces_nil in Ep. rewrite (hyphens_no_part _ Ep), andb_false_r. eauto.
  - destruct (forallb nameChar name && existsb lowerOrDigit name) eqn:E; [|eauto].
    apply andb_true_iff in E as [E1 E2].
    pose proof (filter_okPart _ (split_pieces _ E1)) as Hok.
    rewrite Ep in Hok. apply Forall_app in Hok as [_ Hok].
    inversion Hok as [|? ? Hbad _]; subst.
    apply okPart_accepted in Hbad. congruence.
  - assert (E1 : forallb nameChar name = true).
    { rewrite <- Ep in Hall. apply okParts_pieces in Hall.
      by apply pieces_chars in Hall. }
    assert (E2 : existsb lowerOrDigit name = true).
    { apply not_hyphens_part; [done|].
      destruct (forallb (Js.isChar "-") name) eqn:E; [|done].
      apply pieces_nil in E. congruence. }
    rewrite E1, E2. simpl. eauto.
Qed.

(** [X2] Whenever [toCamelCase] returns a value, [toPascalCase] returns
    the same text with its first character in upper case. *)
Theorem pascal_of_camel (name c : text) :
  toCamelCase name = Value c ->
  exists h t, c = h :: t /\ toPascalCase name = Value (Js.upperChar h :: t).
Proof.
  intros Hc.
  destruct (transforms_cases name)
    as [(-> & H1 & H2)|[(Hne & Ep & H1 & H2)|[(good & bad & rest & Ep & Hg & Hb & H1 & H2)|
        (p & ps & Ep & Hall & H1 & H2)]]]; try congruence.
  rewrite H2 in Hc. injection Hc as <-.
  inversion Hall as [|? ? [Hne _] _]; subst.
  destruct p as [|h t]; [done|].
  exists h, (t ++ Js.join [] (map capitalize ps)).
  rewrite H1. cbn [map]. rewrite capitalize_cons. split.
  - apply join_nil_cons.
  - by rewrite join_nil_cons.
Qed.

End TransformDomain.

Section TransformCollisions.

Lemma split_no_hyphen p :
  forallb lowerOrDigit p = true -> Js.split "-" p = [p].
Proof.
  induction p as [|c x IH]; [done|]. simpl. intros H.
  apply andb_true_iff in H as [Hc Hx].
  destruct (Ascii.eqb c "-") eqn:E.
  - apply Ascii.eqb_eq in E as ->. done.
  - by rewrite IH.
Qed.

Lemma split_at_hyphen p r :
  forallb lowerOrDigit p = true ->
  Js.split "-" (p ++ "-"%char :: r) = p :: Js.split "-" r.
Proof.
  induction p as [|c x IH]; [done|]. simpl. intros H.
  apply andb_true_iff in H as [Hc Hx].
  destruct (Ascii.eqb c "-") eqn:E.
  - apply Ascii.eqb_eq in E as ->. done.
  - by rewrite IH.
Qed.

Lemma upperChar_digit d : Js.isDigit d = true -> Js.upperChar d = d.
Proof. destruct d as [[] [] [] [] [] [] [] []]; vm_compute; congruence. Qed.

Lemma lowerOrDigit_app p q :
  forallb lowerOrDigit p = true -> forallb lowerOrDigit q = true ->
  forallb lowerOrDigit (p ++ q) = true.
Proof. intros Hp Hq. rewrite forallb_app. by rewrite Hp, Hq. Qed.

(** [X3] The PascalCase and camelCase forms do not tell a hyphen before a
    digit: for parts [p] and [d :: q] of lower-case letters and digits,
    where [d] is a digit, the names [p-dq] and [pdq] have the same two
    forms. *)
Theorem hyphen_before_digit (p q : text) (d : ascii) :
  p <> [] -> forallb lowerOrDigit p = true ->
  Js.isDigit d = true -> forallb lowerOrDigit q = true ->
  toPascalCase (p ++ str "-" ++ d :: q) = Value (capitalize p ++ d :: q) /\
  toPascalCase (p ++ d :: q) = Value (capitalize p ++ d :: q) /\
  toCamelCase (p ++ str "-" ++ d :: q) = Value (p ++ d :: q) /\
  toCamelCase (p ++ d :: q) = Value (p ++ d :: q).
Proof.
  intros Hne Hp Hd Hq.
  assert (Hdq : forallb lowerOrDigit (d :: q) = true).
  { simpl. unfold lowerOrDigit at 1. by rewrite Hd, orb_true_r. }
  assert (Hpdq : forallb lowerOrDigit (p ++ d :: q) = true)
    by by apply lowerOrDigit_app.
  destruct p as [|a p]; [done|].
  assert (Ok1 : Forall okPart [a :: p; d :: q]).
  { repeat constructor; done. }
  assert (Ok2 : Forall okPart [(a :: p) ++ d :: q]).
  { repeat constructor; done. }
  unfold toPascalCase, toCamelCase.
  change (str "-" ++ d :: q) with ("-"%char :: d :: q).
  rewrite split_at_hyphen, (split_no_hyphen (d :: q)), split_no_hyphen by done.
  cbn [List.filter nonEmpty length app Nat.eqb negb].
  rewrite !mapE_pascal by done.
  rewrite (mapE_camel (a :: p) [d :: q]) by done.
  rewrite (mapE_camel (a :: p ++ d :: q) []) by done.
  cbn [bindE map Js.join].
  rewrite !capitalize_cons, (upperChar_digit d Hd), !app_nil_l. done.
Qed.

Lemma snake_map name : toScreamingSnakeCase name = map snakeChar name.
Proof.
  unfold toScreamingSnakeCase, Js.toUpperCase. rewrite map_map. done.
Qed.

Lemma snakeChar_injective c c' :
  nameChar c = true -> nameChar c' = true -> snakeChar c = snakeChar c' -> c = c'.
Proof.
  intros H H' E.
  pose (back := fun x : ascii =>
          if Ascii.eqb x "_" then "-"%char
          else if Js.isUpper x then ascii_of_nat (Js.code x + 32) else x).
  assert (B : forall x, nameChar x = true -> back (snakeChar x) = x).
  { intros [[] [] [] [] [] [] [] []]; vm_compute; congruence. }
  rewrite <- (B c H), <- (B c' H'). by rewrite E.
Qed.

Lemma snakeChar_class c :
  nameChar c = true ->
  Js.isUpper (snakeChar c) || Js.isDigit (snakeChar c) ||
  Js.isChar "_" (snakeChar c) = true.
Proof. destruct c as [[] [] [] [] [] [] [] []]; vm_compute; congruence. Qed.

(** [X4] On names made of lower-case letters, digits and hyphens,
    [toScreamingSnakeCase] is one-to-one; its result has the length of the
    name and is made of upper-case letters, digits and underscores. *)
Theorem screaming_snake_faithful (x y : text) :
  forallb nameChar x = true -> forallb nameChar y = true ->
  (toScreamingSnakeCase x = toScreamingSnakeCase y -> x = y) /\
  length (toScreamingSnakeCase x) = length x /\
  forallb (fun c => Js.isUpper c || Js.isDigit c || Js.isChar "_" c)
          (toScreamingSnakeCase x) = true.
Proof.
  intros Hx Hy. rewrite !snake_map. split; [|split].
  - revert y Hy. induction x as [|c x IH]; intros [|c' y] Hy E; try done.
    simpl in *. apply andb_true_iff in Hx as [Hc Hx].
    apply andb_true_iff in Hy as [Hc' Hy].
    injection E as E1 E2.
    f_equal; [by apply snakeChar_injective | by apply IH].
  - apply length_map.
  - clear y Hy. induction x as [|c x IH]; [done|]. simpl in *.
    apply andb_true_iff in Hx as [Hc Hx].
    rewrite (snakeChar_class c Hc). by apply IH.
Qed.

End TransformCollisions.

Section Validation.

Import Re.

Lemma nameChar_not_space c : nameChar c = true -> Js.isSpace c = false.
Proof. destruct c as [[] [] [] [] [] [] [] []]; vm_compute; congruence. Qed.

Lemma trimStart_id s :
  forallb nameChar s = true -> Js.trimStart s = s.
Proof.
  destruct s as [|c s]; [done|]. simpl. intros H.
  apply andb_true_iff in H as [Hc _]. by rewrite (nameChar_not_space c Hc).
Qed.

Lemma forallb_rev (P : ascii -> bool) s : forallb P (rev s) = forallb P s.
Proof.
  induction s as [|c s IH]; [done|]. simpl.
  rewrite forallb_app, IH. simpl. rewrite andb_true_r. apply andb_comm.
Qed.

Lemma trim_id s : forallb nameChar s = true -> Js.trim s = s.
Proof.
  intros H. unfold Js.trim, Js.trimEnd. rewrite (trimStart_id s H).
  rewrite trimStart_id by by rewrite forallb_rev. apply rev_involutive.
Qed.

Lemma scan_space_none s i :
  forallb nameChar s = true -> scan re_space i s = None.
Proof.
  revert i. induction s as [|c s IH]; intros i H; [done|].
  simpl in H. apply andb_true_iff in H as [Hc Hs].
  simpl. rewrite (nameChar_not_space c Hc). by apply IH.
Qed.

Lemma shape_chars x :
  test re_shape x = true ->
  x <> [] /\ forallb nameChar x = true /\ Js.startsWith x (str "-") = false.
Proof.
  intros H. apply shape_inv in H as (c & t & -> & Hc & Ht).
  split; [done|]. split.
  - simpl. rewrite Ht. unfold nameChar. by rewrite Hc.
  - simpl. destruct (Ascii.eqb c "-") eqn:E; [|done].
    apply Ascii.eqb_eq in E as ->. by vm_compute in Hc.
Qed.

(** The checks of [nameProblem] that can decide are those of
    [acceptable]. *)
Lemma nameProblem_acceptable name :
  if acceptable name then nameProblem name = None
  else exists msg, nameProblem name = Some msg.
Proof.
  unfold acceptable, nameProblem.
  destruct (test re_shape name) eqn:Es; cbn [andb negb].
  - destruct (shape_chars name Es) as (Hne & Hch & Hst).
    rewrite (trim_id name Hch).
    assert (El : Nat.eqb (length name) 0 = false) by by destruct name.
    assert (Esp : test re_space name = false).
    { unfold test. by rewrite scan_space_none. }
    rewrite El, Esp, Hst. cbn [orb].
    destruct (Js.includes name (str "--")); cbn [andb negb]; [eauto|].
    destruct (Js.endsWith name (str "-")); cbn [andb negb]; [eauto|].
    destruct (Js.arrayIncludes reservedKeywords name); cbn [andb negb]; [eauto|].
    destruct (Js.arrayIncludes reservedNames name); cbn [andb negb]; [eauto|].
    destruct (transforms_value name Es) as (c & p0 & ps & _ & _ & -> & ->). done.
  - destruct (_ || _); [eauto|]. destruct (test re_space name); eauto.
Qed.

Variable tpl : catalog.

(** [X5] Of the checks of [validate], five decide: the shape, the double
    hyphen, the hyphen at the end and the two lists of reserved words.  A
    name that passes them reaches the collision guard (the checks for the
    empty name, for white space and for a leading hyphen, and the trial
    run of the two transforms, cannot reject it); a name that fails one
    of them ends the invocation with exit code 1 and one complaint,
    before any access to the file system. *)
Theorem deciding_checks {A} (name : text) (k : M A) (w : world) :
  if acceptable name then
    (validate name ;; k) w =
    if bool_decide (is_Some (files w !! pagePath name)) then
      (Exited 1, logged w [FsPathExists (pagePath name);
                           ConsoleError (collision name)])
    else k (logged w [FsPathExists (pagePath name)])
  else
    exists msg, (validate name ;; k) w = (Exited 1, logged w [ConsoleError msg]).
Proof.
  pose proof (nameProblem_acceptable name) as H. rewrite validate_run.
  destruct (acceptable name).
  - by rewrite H.
  - destruct H as [msg ->]. by exists msg.
Qed.

(** [X6] A refused prompt: for an acceptable name whose page directory
    does not exist, an invocation without [--yes] asks for confirmation,
    and unless the answer is yes it prints that the creation is cancelled
    and returns; no file is written. *)
Theorem declined_prompt (name : text) (o : options) (w : world) :
  acceptable name = true ->
  files w !! pagePath name = None ->
  yes o = false ->
  head (answers w) <> Some true ->
  exists w',
    createPage tpl name o w = (Done tt, w') /\
    files w' = files w /\
    trace w' = trace w ++
      [ConsoleLog (banner name o);
       FsPathExists (pagePath name);
       Prompt (str "Create a " ++ type o ++ str " page at " ++
               pagePath name ++ str "?");
       ConsoleLog (str "Page creation cancelled")].
Proof.
  intros Ha Hf Hy Hans. rewrite createPage_run.
  pose proof (nameProblem_acceptable name) as H. rewrite Ha in H. rewrite H.
  rewrite bool_decide_false by (rewrite Hf; by intros [? ?]).
  rewrite Hy. cbn [negb]. unfold confirm. unfold bind at 1. unfold bind at 1.
  unfold emit at 1. cbn [answers logged].
  destruct (answers w) as [|[|] rest] eqn:Ea; [|done|].
  - unfold emit. cbn. eexists. split; [done|]. split; [done|].
    cbn. rewrite <- !app_assoc. done.
  - unfold emit. cbn. eexists. split; [done|]. split; [done|].
    cbn. rewrite <- !app_assoc. done.
Qed.

End Validation.

(* ================================================================== *)
(** * The mapping expression of [updateViteConfig], both ways *)
(* ================================================================== *)

Section InputMatcher.

Import Re.

Lemma run_seq r1 r2 k s : run (Seq r1 r2) k s = run r1 (run r2 k) s.
Proof. reflexivity. Qed.

Lemma run_star r k s :
  run (Star r) k s = loop (run r) k (S (length (rest s))) s.
Proof. reflexivity. Qed.

Lemma run_group r k s :
  run (Group r) k s = run r (fun s' => k (capture (pos s) s')) s.
Proof. reflexivity. Qed.

(** A literal in front of the input is read. *)
Lemma run_Lit_app l k s t :
  rest s = l ++ t ->
  run (Lit l) k s =
  k {| pos := (pos s + length l)%nat; rest := t; cap := cap s |}.
Proof.
  revert s. induction l as [|c l IH]; intros s E; simpl in *.
  - destruct s as [p r c0]. simpl in *. subst. by rewrite Nat.add_0_r.
  - rewrite E. unfold Js.isChar. rewrite Ascii.eqb_refl.
    rewrite (IH (advance s (l ++ t))) by done. simpl.
    by replace (pos s + S (length l))%nat with (S (pos s + length l)) by lia.
Qed.

(** The repetition of a character class can stop after any run of
    characters of the class from which the continuation succeeds. *)
Lemma loop_chr_reach p k fuel s a b :
  rest s = a ++ b -> forallb p a = true -> (length a < fuel)%nat ->
  is_Some (k {| pos := (pos s + length a)%nat; rest := b; cap := cap s |}) ->
  is_Some (loop (run (Chr p)) k fuel s).
Proof.
  revert s fuel. induction a as [|c a IH]; intros s fuel E Hp Hf Hk.
  - destruct fuel as [|fuel]; [simpl in Hf; lia|]. rewrite loop_S.
    assert (Es : {| pos := (pos s + 0)%nat; rest := b; cap := cap s |} = s).
    { destruct s; simpl in *. subst. by rewrite Nat.add_0_r. }
    simpl in Hk. rewrite Es in Hk. destruct Hk as [x Hx]. rewrite Hx.
    destruct (run _ _ _); by eexists.
  - destruct fuel as [|fuel]; [simpl in Hf; lia|]. rewrite loop_S.
    simpl in E, Hp. apply andb_true_iff in Hp as [Hc Ha].
    rewrite (run_chr_cons _ _ _ c (a ++ b)) by done.
    replace (Nat.ltb (pos s) (pos (advance s (a ++ b)))) with true
      by (symmetry; apply Nat.ltb_lt; simpl; lia).
    destruct (IH (advance s (a ++ b)) fuel) as [x Hx];
      [done | done | simpl in Hf; lia | |].
    + simpl in *.
      by replace (S (pos s + length a)) with (pos s + S (length a))%nat by lia.
    + rewrite Hx. by eexists.
Qed.

(** A text with a closing brace, cut at the first one. *)
Lemma cut_at_brace body post :
  exists b r, body ++ str "}" ++ post = b ++ str "}" ++ r /\
              forallb (noneOf (str "}")) b = true.
Proof.
  induction body as [|c body (b & r & E & Hb)].
  - by exists [], post.
  - destruct (noneOf (str "}") c) eqn:Hc.
    + exists (c :: b), r. simpl in *. rewrite E, Hc. done.
    + exists [], (body ++ str "}" ++ post). split; [|done].
      unfold noneOf, oneOf in Hc. simpl in Hc. rewrite orb_false_r in Hc.
      apply negb_false_iff, Ascii.eqb_eq in Hc as ->. done.
Qed.

(** The mapping expression matches wherever the text has its shape... *)
Lemma run_input_complete i ws body post c0 :
  forallb Js.isSpace ws = true ->
  is_Some (run re_input Some
             (MState i (str "input:" ++ ws ++ str "{" ++ body ++ str "}" ++ post) c0)).
Proof.
  intros Hws. destruct (cut_at_brace body post) as (b & r & -> & Hb).
  unfold re_input. rewrite run_seq.
  rewrite (run_Lit_app (str "input:") _ _ (ws ++ str "{" ++ b ++ str "}" ++ r));
    [|reflexivity].
  rewrite run_seq, run_star.
  apply (loop_chr_reach _ _ _ _ ws (str "{" ++ b ++ str "}" ++ r));
    [reflexivity | exact Hws | cbn [rest]; rewrite length_app; lia |].
  cbn [pos rest cap]. rewrite run_seq.
  rewrite (run_Lit_app (str "{") _ _ (b ++ str "}" ++ r)); [|reflexivity].
  cbn [pos rest cap]. rewrite run_seq, run_group, run_star.
  apply (loop_chr_reach _ _ _ _ b (str "}" ++ r));
    [reflexivity | exact Hb | cbn [rest]; rewrite length_app; lia |].
  cbn [pos rest cap].
  rewrite (run_Lit_app (str "}") _ _ r); [|reflexivity]. by eexists.
Qed.

(** ... and only there. *)
Lemma run_input_sound i t m :
  run re_input Some (MState i t None) = Some m ->
  exists ws body,
    t = str "input:" ++ ws ++ str "{" ++ body ++ str "}" ++ rest m /\
    forallb Js.isSpace ws = true /\
    forallb (noneOf (str "}")) body = true /\
    pos m = (i + 6 + length ws + 1 + length body + 1)%nat /\
    cap m = Some ((i + 6 + length ws + 1)%nat,
                  (i + 6 + length ws + 1 + length body)%nat).
Proof.
  intros H. apply run_sound in H as (s' & H & [= ->]).
  unfold re_input in H.
  apply reaches_seq_inv in H as (s1 & H1 & H).
  apply reaches_Lit in H1 as (E1 & P1 & C1). simpl in E1, P1, C1.
  apply reaches_seq_inv in H as (s2 & H2 & H).
  apply reaches_star_chr in H2 as (ws & E2 & Hws & P2 & C2).
  apply reaches_seq_inv in H as (s3 & H3 & H).
  apply reaches_Lit in H3 as (E3 & P3 & C3). simpl in E3, P3.
  apply reaches_seq_inv in H as (s4 & H4 & H).
  apply reaches_group_inv in H4 as (s4' & H4 & ->).
  apply reaches_star_chr in H4 as (body & E4 & Hbody & P4 & C4).
  apply reaches_Lit in H as (E5 & P5 & C5). simpl in E5, P5, C5.
  exists ws, body. split; [|split; [done|split; [done|split]]].
  - rewrite E1, E2, E3, E4, E5. done.
  - rewrite P5, P4, P3, P2, P1. lia.
  - rewrite C5. simpl. f_equal. f_equal; lia.
Qed.

(** The first match is where the scan stops. *)
Lemma scan_found r i pre t m :
  (forall d, (d < length pre)%nat ->
     run r Some (MState (i + d) (drop d (pre ++ t)) None) = None) ->
  run r Some (MState (i + length pre) t None) = Some m ->
  scan r i (pre ++ t) = Some ((i + length pre)%nat, m).
Proof.
  revert i. induction pre as [|c pre IH]; intros i Hpre Ht.
  - simpl in *. rewrite Nat.add_0_r in *. destruct t; simpl; by rewrite Ht.
  - simpl. specialize (Hpre 0%nat) as H0. simpl in H0.
    rewrite Nat.add_0_r in H0. rewrite H0 by lia.
    rewrite (IH (S i)).
    + f_equal. f_equal. simpl. lia.
    + intros d Hd. specialize (Hpre (S d)). simpl in Hpre.
      replace (S i + d)%nat with (i + S d)%nat by lia. apply Hpre. lia.
    + replace (S i + length pre)%nat with (i + length (c :: pre))%nat
        by (simpl; lia). done.
Qed.

Lemma scan_earlier r i s j m :
  scan r i s = Some (j, m) ->
  exists pre t, s = pre ++ t /\ j = (i + length pre)%nat /\
    run r Some (MState j t None) = Some m /\
    forall d, (d < length pre)%nat ->
      run r Some (MState (i + d) (drop d s) None) = None.
Proof.
  revert i. induction s as [|c s IH]; intros i; simpl.
  - destruct (run r Some _) as [m'|] eqn:E; [|done].
    intros [= <- <-]. exists [], []. simpl. rewrite Nat.add_0_r.
    repeat split; [done|]. intros d Hd. lia.
  - destruct (run r Some _) as [m'|] eqn:E.
    + intros [= <- <-]. exists [], (c :: s). simpl. rewrite Nat.add_0_r.
      repeat split; [done|]. intros d Hd. lia.
    + intros H. apply IH in H as (pre & t & -> & -> & H & Hpre).
      exists (c :: pre), t. simpl. repeat split; [lia | done |].
      intros [|d] Hd.
      * simpl. by rewrite Nat.add_0_r.
      * simpl. replace (i + S d)%nat with (S i + d)%nat by lia.
        apply Hpre. lia.
Qed.

End InputMatcher.

Section ViteRuns.

Import Re.

(** A run of characters of a class is ended by the first character
    outside of it. *)
Lemma class_run_unique (p : ascii -> bool) (x : ascii) a1 a2 r1 r2 :
  forallb p a1 = true -> forallb p a2 = true -> p x = false ->
  a1 ++ x :: r1 = a2 ++ x :: r2 -> a1 = a2 /\ r1 = r2.
Proof.
  intros H1 H2 Hx. revert a2 H2.
  induction a1 as [|c a1 IH]; intros [|c2 a2] H2 E; simpl in *.
  - by injection E as ->.
  - injection E as -> E. apply andb_true_iff in H2 as [H2 _]. congruence.
  - injection E as -> E. apply andb_true_iff in H1 as [H1 _]. congruence.
  - injection E as -> E.
    apply andb_true_iff in H1 as [_ H1]. apply andb_true_iff in H2 as [_ H2].
    destruct (IH H1 a2 H2 E) as [-> ->]. done.
Qed.

Lemma noBrace_notin l :
  forallb (noneOf (str "}")) l = true <-> "}"%char ∉ l.
Proof.
  induction l as [|c l IH]; simpl.
  - split; [intros _; apply not_elem_of_nil | done].
  - rewrite andb_true_iff, IH, not_elem_of_cons.
    unfold noneOf, oneOf. simpl. rewrite orb_false_r, negb_true_iff.
    assert (Hc : Ascii.eqb c "}" = false <-> "}"%char <> c).
    { rewrite Ascii.eqb_neq. split; intros H E; by apply H. }
    by rewrite Hc.
Qed.

(** What a match of the mapping expression is: the leftmost place where
    the text has the shape of the mapping, the body being cut at the
    first closing brace. *)
Lemma exec_input_inv c m :
  exec re_input c = Some m ->
  exists pre ws body post,
    c = pre ++ str "input:" ++ ws ++ str "{" ++ body ++ str "}" ++ post /\
    forallb Js.isSpace ws = true /\ ("}"%char ∉ body) /\
    index m = length pre /\
    whole m = str "input:" ++ ws ++ str "{" ++ body ++ str "}" /\
    group1 m = body /\
    forall d, (d < length pre)%nat ->
      run re_input Some (MState d (drop d c) None) = None.
Proof.
  unfold exec. destruct (scan re_input 0 c) as [[j ms]|] eqn:E; [|done].
  intros [= <-]. cbn [index whole group1].
  apply scan_earlier in E as (pre & t & -> & -> & H & Hpre).
  simpl in H.
  apply run_input_sound in H as (ws & body & Et & Hws & Hb & P & C).
  exists pre, ws, body, (rest ms). rewrite C, P.
  split; [by rewrite Et|]. split; [done|]. split; [by apply noBrace_notin|].
  split; [done|]. subst t. split; [|split; [|done]].
  - replace (length pre + 6 + length ws + 1 + length body + 1)%nat
      with (length pre +
            length (str "input:" ++ ws ++ str "{" ++ body ++ str "}"))%nat
      by (rewrite !length_app; simpl; lia).
    replace (pre ++ str "input:" ++ ws ++ str "{" ++ body ++ str "}" ++ rest ms)
      with (pre ++ (str "input:" ++ ws ++ str "{" ++ body ++ str "}") ++ rest ms)
      by by rewrite <- !app_assoc.
    apply subtext_app.
  - replace (pre ++ str "input:" ++ ws ++ str "{" ++ body ++ str "}" ++ rest ms)
      with ((pre ++ str "input:" ++ ws ++ str "{") ++ body ++ str "}" ++ rest ms)
      by by rewrite <- !app_assoc.
    replace (length pre + 6 + length ws + 1)%nat
      with (length (pre ++ str "input:" ++ ws ++ str "{"))
      by (rewrite !length_app; simpl; lia).
    apply subtext_app.
Qed.

Lemma exec_input_at pre ws body post :
  forallb Js.isSpace ws = true -> "}"%char ∉ body ->
  (forall d, (d < length pre)%nat ->
     run re_input Some
       (MState d (drop d (pre ++ str "input:" ++ ws ++ str "{" ++ body ++
                          str "}" ++ post)) None) = None) ->
  exec re_input (pre ++ str "input:" ++ ws ++ str "{" ++ body ++ str "}" ++ post) =
  Some {| index := length pre;
          whole := str "input:" ++ ws ++ str "{" ++ body ++ str "}";
          group1 := body |}.
Proof.
  intros Hws Hb Hpre.
  destruct (run_input_complete (length pre) ws body post None Hws) as [ms Hms].
  pose proof (scan_found re_input 0 pre _ ms Hpre Hms) as Hs.
  unfold exec. rewrite Hs. cbn [Nat.add].
  apply run_input_sound in Hms as (ws' & body' & Et & Hws' & Hb' & P & C).
  assert (E1 : ws' = ws /\ body' = body /\ rest ms = post).
  { simpl in Et. injection Et as Et.
    apply (class_run_unique Js.isSpace "{") in Et as [<- Et]; [|done|done|done].
    apply noBrace_notin in Hb.
    apply (class_run_unique (noneOf (str "}")) "}") in Et as [<- Et]; done. }
  destruct E1 as (-> & -> & Er). rewrite C, P. f_equal. f_equal.
  - replace (length pre + 6 + length ws + 1 + length body + 1)%nat
      with (length pre +
            length (str "input:" ++ ws ++ str "{" ++ body ++ str "}"))%nat
      by (rewrite !length_app; simpl; lia).
    replace (pre ++ str "input:" ++ ws ++ str "{" ++ body ++ str "}" ++ post)
      with (pre ++ (str "input:" ++ ws ++ str "{" ++ body ++ str "}") ++ post)
      by by rewrite <- !app_assoc.
    apply subtext_app.
  - replace (pre ++ str "input:" ++ ws ++ str "{" ++ body ++ str "}" ++ post)
      with ((pre ++ str "input:" ++ ws ++ str "{") ++ body ++ str "}" ++ post)
      by by rewrite <- !app_assoc.
    replace (length pre + 6 + length ws + 1)%nat
      with (length (pre ++ str "input:" ++ ws ++ str "{"))
      by (rewrite !length_app; simpl; lia).
    apply subtext_app.
Qed.

(** Rewriting the mapping creates no match before it. *)
Lemma no_earlier_match pre ws g post B :
  forallb Js.isSpace ws = true ->
  (forall d, (d < length pre)%nat ->
     run re_input Some
       (MState d (drop d (pre ++ str "input:" ++ ws ++ str "{" ++ g ++
                          str "}" ++ post)) None) = None) ->
  forall d, (d < length pre)%nat ->
    run re_input Some
      (MState d (drop d (pre ++ str "input: {" ++ B ++ str "}" ++ post)) None) = None.
Proof.
  intros Hws Hleft d Hd.
  destruct (run re_input Some _) as [m|] eqn:E; [|done]. exfalso.
  apply run_input_sound in E as (ws' & b' & Et & Hws' & _).
  rewrite drop_app_le in Et by lia.
  specialize (Hleft d Hd). rewrite drop_app_le in Hleft by lia.
  set (P := drop d pre) in *.
  assert (HP : P <> []).
  { intros EP. apply (f_equal length) in EP. unfold P in EP.
    rewrite length_drop in EP. simpl in EP. lia. }
  assert (Et' : P ++ (str "input: {" ++ B ++ str "}" ++ post) =
                (str "input:" ++ ws' ++ str "{") ++ (b' ++ str "}" ++ rest m)).
  { rewrite Et. by rewrite <- !app_assoc. }
  apply app_eq_inv in Et' as [(k & Hk & _)|(k & Hk & Hk2)].
  - (* the head of the match lies in the text before the mapping *)
    clearbody P. subst P.
    destruct (run_input_complete d ws' (k ++ str "input:" ++ ws ++ str "{" ++ g)
                post None Hws') as [x Hx].
    repeat rewrite <- app_assoc in Hx. repeat rewrite <- app_assoc in Hleft.
    congruence.
  - destruct k as [|x k].
    + rewrite app_nil_r in Hk. clearbody P. subst P.
      destruct (run_input_complete d ws' (str "input:" ++ ws ++ str "{" ++ g)
                  post None Hws') as [y Hy].
      repeat rewrite <- app_assoc in Hy. repeat rewrite <- app_assoc in Hleft.
      congruence.
    + (* the head of the match would hold a second letter i *)
      simpl in Hk2. injection Hk2 as <- _.
      destruct P as [|y P']; [done|]. simpl in Hk. injection Hk as _ Hk.
      assert (Hin : "i"%char ∈ P' ++ "i"%char :: k)
        by (apply elem_of_app; right; left).
      rewrite <- Hk in Hin.
      repeat (apply elem_of_cons in Hin as [Hin|Hin]; [done|]).
      apply elem_of_app in Hin as [Hin|Hin].
      { rewrite forallb_forall in Hws'. apply list_elem_of_In, Hws' in Hin.
        by vm_compute in Hin. }
      apply elem_of_cons in Hin as [Hin|Hin]; [done|]. by apply elem_of_nil in Hin.
Qed.

End ViteRuns.

Section ViteTheorems.

Import Re.

(** [updateViteConfig] once the mapping has been found. *)
Lemma updateViteConfig_found pageName content m w :
  files w !! viteConfigPath = Some (File content) ->
  exec re_input content = Some m ->
  updateViteConfig pageName w =
  (if negb (Js.includes (group1 m) (pageName ++ str ":")) then
     writeFile viteConfigPath (withNewEntry pageName content (group1 m))
   else ret tt)
    (logged w [FsPathExists viteConfigPath; FsReadFile viteConfigPath]).
Proof.
  intros Hf Hm. unfold updateViteConfig.
  rewrite pathExists_run, Hf.
  rewrite (bool_decide_true _ (mk_is_Some _ _ eq_refl)).
  cbn [negb]. rewrite readFile_run with (c := content) by exact Hf.
  rewrite Hm. by rewrite !logged_logged.
Qed.

(** [X7] The test for an existing entry looks for the page name followed
    by a colon anywhere in the body of the mapping.  So an entry whose key
    ends with the page name counts as the entry of the page: nothing is
    written and nothing is printed. *)
Theorem vite_key_suffix (pageName key content : text) (m : found) (w : world) :
  files w !! viteConfigPath = Some (File content) ->
  exec re_input content = Some m ->
  within (key ++ pageName ++ str ":") (group1 m) ->
  updateViteConfig pageName w =
  (Done tt, logged w [FsPathExists viteConfigPath; FsReadFile viteConfigPath]).
Proof.
  intros Hf Hm (p & q & Hg).
  rewrite (updateViteConfig_found _ _ _ _ Hf Hm).
  assert (Hi : Js.includes (group1 m) (pageName ++ str ":") = true).
  { apply includes_true. exists (p ++ key), q. rewrite Hg.
    by rewrite <- !app_assoc. }
  by rewrite Hi.
Qed.

Lemma notin_text (x : ascii) (l : text) :
  forallb (fun c => negb (Ascii.eqb c x)) l = true -> x ∉ l.
Proof.
  rewrite forallb_forall. intros H Hin. apply list_elem_of_In, H in Hin.
  by rewrite Ascii.eqb_refl in Hin.
Qed.

(** [X8] Adding an entry, and asking again.  For a page name without
    dollar sign and closing brace, a mapping whose body holds no dollar
    sign and no entry for the page gets the entry: the text before and
    after the mapping is kept, and the mapping becomes its old body, the
    white space at its end removed, followed by the line of the new
    entry.  A second call then finds the entry and leaves the file as it
    is. *)
Theorem vite_entry_added_once (pageName content : text) (m : found) (w : world) :
  "$"%char ∉ pageName -> "}"%char ∉ pageName ->
  files w !! viteConfigPath = Some (File content) ->
  exec re_input content = Some m ->
  "$"%char ∉ group1 m ->
  Js.includes (group1 m) (pageName ++ str ":") = false ->
  exists pre post updated w1,
    content = pre ++ whole m ++ post /\
    updated = pre ++ str "input: {" ++ Js.trimEnd (group1 m) ++ nl ++
              newEntry pageName ++ nl ++ str "      }" ++ post /\
    updateViteConfig pageName w = (Done tt, w1) /\
    files w1 = <[viteConfigPath := File updated]> (files w) /\
    updateViteConfig pageName w1 =
    (Done tt, logged w1 [FsPathExists viteConfigPath; FsReadFile viteConfigPath]).
Proof.
  intros Hd Hb Hf Hm Hdg Hinc.
  destruct (exec_input_inv _ _ Hm)
    as (pre & ws & g & post & Ec & Hws & Hg & Hi & Hw & Hg1 & Hleft).
  destruct (withNewEntry_eq pageName content m Hm) as (pre' & post' & Ec' & Hl & Hnew).
  assert (Epre : pre' = pre /\ post' = post).
  { rewrite Ec in Ec'. rewrite Hw in Ec'.
    replace (pre ++ str "input:" ++ ws ++ str "{" ++ g ++ str "}" ++ post)
      with (pre ++ (str "input:" ++ ws ++ str "{" ++ g ++ str "}") ++ post)
      in Ec' by by rewrite <- !app_assoc.
    apply app_inj_1 in Ec' as [-> Ec']; [|congruence].
    by apply app_inv_head in Ec' as ->. }
  destruct Epre as [-> ->].
  set (B := Js.trimEnd g ++ nl ++ newEntry pageName ++ nl ++ str "      ").
  set (updated := pre ++ str "input: {" ++ B ++ str "}" ++ post).
  assert (Eu : withNewEntry pageName content (group1 m) = updated).
  { rewrite Hnew, Hg1. rewrite expand_plain.
    - unfold updated, B. by rewrite <- !app_assoc.
    - rewrite <- Hg1. repeat apply notin_app;
        first [ exact Hd
              | (intros Hin; by apply Hdg, trimEnd_elem)
              | (apply notin_text; vm_compute; reflexivity) ]. }
  assert (HB : "}"%char ∉ B).
  { unfold B. repeat apply notin_app;
      first [ exact Hb
            | (intros Hin; by apply Hg, trimEnd_elem)
            | (apply notin_text; vm_compute; reflexivity) ]. }
  assert (Hm2 : exec re_input updated =
                Some {| index := length pre;
                        whole := str "input:" ++ str " " ++ str "{" ++ B ++ str "}";
                        group1 := B |}).
  { apply (exec_input_at pre (str " ") B post); [reflexivity | exact HB |].
    apply (no_earlier_match pre ws g post B Hws). by rewrite <- Ec. }
  assert (HiB : Js.includes B (pageName ++ str ":") = true).
  { apply includes_true.
    exists (Js.trimEnd g ++ nl ++ str "        "),
      (str " resolve(__dirname, " ++ dq ++ str "src/client/" ++ pageName ++
       str "/index.html" ++ dq ++ str ")," ++ nl ++ str "      ").
    unfold B, newEntry. repeat rewrite <- app_assoc. reflexivity. }
  exists pre, post, updated.
  exists (stored (logged w [FsPathExists viteConfigPath; FsReadFile viteConfigPath;
                            FsWriteFile viteConfigPath updated])
            viteConfigPath updated).
  split; [by rewrite Ec, Hw, <- !app_assoc|].
  split; [rewrite Hg1; unfold updated, B; repeat rewrite <- app_assoc; reflexivity|].
  split; [|split; [done|]].
  - rewrite (updateViteConfig_found _ _ _ _ Hf Hm), Hinc. cbn [negb].
    rewrite Eu.
    rewrite writeFile_run
      by (change (files w !! viteConfigPath <> Some Dir); by rewrite Hf).
    by rewrite !logged_logged.
  - rewrite (updateViteConfig_found pageName updated _ _ (lookup_insert_eq _ _ _) Hm2).
    cbn [group1]. by rewrite HiB.
Qed.

End ViteTheorems.

Section ViteEntry.

Import Re.



End ViteEntry.

(* ================================================================== *)
(** * More on [updateMainServer] *)
(* ================================================================== *)

Section ServerRuns.

Implicit Types s p a b : text.

(** What "Add router mount" does to the text. *)
Lemma addMount_cases routeName c :
  (Js.includes c (mountStatement routeName) = true /\ addMount routeName c = c) \/
  (Js.includes c (mountStatement routeName) = false /\
   Js.includes c (str "app.listen") = false /\ addMount routeName c = c) \/
  (Js.includes c (mountStatement routeName) = false /\
   exists a b, c = a ++ str "app.listen" ++ b /\
     Js.indexOf c (str "app.listen") = Z.of_nat (length a) /\
     addMount routeName c =
     a ++ mountStatement routeName ++ nl ++ nl ++ str "app.listen" ++ b).
Proof.
  unfold addMount. destruct (Js.includes c (mountStatement routeName)); [by left|].
  right. cbn [negb].
  destruct (indexOf_cases c (str "app.listen")) as [[H ->]|(a & b & E & Hi)].
  - by left.
  - right. split; [done|]. exists a, b. split; [done|]. split; [done|].
    rewrite Hi.
    replace (Z.of_nat (length a) =? -1) with false by (symmetry; apply Z.eqb_neq; lia).
    cbn [negb]. rewrite E at 1 2. by rewrite slice_prefix, sliceFrom_suffix.
Qed.

Lemma updateMainServer_run routeName content w :
  files w !! serverFile = Some (File content) ->
  updateMainServer routeName w =
  (Done tt,
   stored (logged w [FsPathExists serverFile; FsReadFile serverFile;
                     FsWriteFile serverFile
                       (addMount routeName (addImport routeName content))])
          serverFile (addMount routeName (addImport routeName content))).
Proof.
  intros Hf. unfold updateMainServer.
  rewrite pathExists_run, Hf.
  rewrite (bool_decide_true _ (mk_is_Some _ _ eq_refl)).
  cbn [negb]. rewrite readFile_run with (c := content) by exact Hf.
  rewrite writeFile_run by (change (files w !! serverFile <> Some Dir); by rewrite Hf).
  by rewrite !logged_logged.
Qed.

(** The import statement ends with a semicolon and holds no
    [app.listen]; so it cannot lie across the place where [app.listen]
    starts. *)
Lemma import_not_across routeName a b :
  "."%char ∉ routeName ->
  Js.includes (a ++ str "app.listen" ++ b) (importStatement routeName) = true ->
  Js.includes a (importStatement routeName) = true \/
  Js.includes (str "app.listen" ++ b) (importStatement routeName) = true.
Proof.
  intros Hdot H. apply includes_true in H as (x & y & E).
  set (imp := importStatement routeName) in *.
  assert (Hno : Js.includes imp (str "app.listen") = false)
    by apply (importStatement_no_app routeName (str "listen") Hdot).
  assert (Hend : exists front, imp = front ++ [";"%char]).
  { exists (str "import { " ++ routerName routeName ++ str " } from './" ++
            (if isWebhook routeName then routeName else str "api/" ++ routeName) ++
            str "'"). unfold imp, importStatement. by rewrite <- !app_assoc. }
  symmetry in E. apply app_eq_inv in E as [(k & Hx & Hk)|(k & Ha & Hk)].
  - right. apply includes_true. exists k, y. done.
  - apply app_eq_inv in Hk as [(k' & Hi & Hy)|(k' & Hk & Hy)].
    + destruct k' as [|c k' _] using rev_ind.
      * left. apply includes_true. exists x, []. rewrite Ha, Hi.
        by rewrite !app_nil_r.
      * exfalso. destruct Hend as [front Hf].
        rewrite Hf in Hi. rewrite app_assoc in Hi.
        apply app_inj_tail in Hi as [Hfr <-].
        apply app_eq_inv in Hy as [(z & Hz & _)|(z & Hz & _)].
        -- assert (Hin : ";"%char ∈ str "app.listen").
           { rewrite Hz. apply elem_of_app. left. apply elem_of_app. right. left. }
           revert Hin. apply no_char. reflexivity.
        -- assert (Hc : Js.includes imp (str "app.listen") = true).
           { apply includes_true. exists k, z.
             rewrite Hf, Hfr, <- app_assoc, Hz. reflexivity. }
           congruence.
    + left. apply includes_true. exists x, k'. by rewrite Ha, Hk.
Qed.

Lemma addImport_id routeName c :
  Js.includes c (importStatement routeName) = true -> addImport routeName c = c.
Proof. intros H. unfold addImport. by rewrite H. Qed.

Lemma addMount_id routeName c :
  Js.includes c (mountStatement routeName) = true -> addMount routeName c = c.
Proof. intros H. unfold addMount. by rewrite H. Qed.

(** The two steps of the patch, applied to their own result, change
    nothing. *)
Lemma patch_fixpoint routeName c :
  "."%char ∉ routeName ->
  addMount routeName
    (addImport routeName (addMount routeName (addImport routeName c))) =
  addMount routeName (addImport routeName c).
Proof.
  intros Hdot. set (imported := addImport routeName c).
  pose proof (addImport_includes routeName c) as Hi. fold imported in Hi.
  destruct (addMount_cases routeName imported)
    as [[Hm E]|[(Hm & Hl & E)|(Hm & a & b & Ei & _ & E)]].
  - rewrite E, (addImport_id _ _ Hi). exact E.
  - rewrite E, (addImport_id _ _ Hi). exact E.
  - rewrite E.
    assert (Hi' : Js.includes
              (a ++ mountStatement routeName ++ nl ++ nl ++ str "app.listen" ++ b)
              (importStatement routeName) = true).
    { rewrite Ei in Hi. apply (import_not_across _ _ _ Hdot) in Hi as [Hi|Hi].
      - by apply includes_app_l.
      - by do 4 apply includes_app_r. }
    rewrite (addImport_id _ _ Hi'). apply addMount_id.
    apply includes_app_r, includes_app_l, includes_refl.
Qed.

(** [X9] A second run of [updateMainServer] for the same route name, one
    without a dot, writes back the text that the first run wrote:
    neither the import statement nor the mount statement is added
    twice. *)
Theorem server_second_run (routeName content : text) (w : world) :
  "."%char ∉ routeName ->
  files w !! serverFile = Some (File content) ->
  exists updated w1 w2,
    updateMainServer routeName w = (Done tt, w1) /\
    files w1 = <[serverFile := File updated]> (files w) /\
    updateMainServer routeName w1 = (Done tt, w2) /\
    files w2 = files w1 /\
    trace w2 = trace w1 ++ [FsPathExists serverFile; FsReadFile serverFile;
                            FsWriteFile serverFile updated].
Proof.
  intros Hdot Hf. set (updated := addMount routeName (addImport routeName content)).
  exists updated. eexists. eexists.
  split; [by apply updateMainServer_run|]. split; [done|].
  split.
  { rewrite (updateMainServer_run routeName updated)
      by apply lookup_insert_eq.
    unfold updated. rewrite (patch_fixpoint routeName content Hdot). reflexivity. }
  split; [|done].
  cbn [files stored logged]. apply insert_insert_eq.
Qed.

Lemma addImport_preserves routeName content pat :
  lf ∉ pat ->
  Js.includes content pat = true ->
  Js.includes (addImport routeName content) pat = true.
Proof.
  intros Hlf Hc.
  destruct (addImport_cases routeName content) as [[_ ->]|[_ [->|(a & b & E & ->)]]].
  - done.
  - by do 2 apply includes_app_r.
  - rewrite E in Hc. change (a ++ nl ++ b) with (a ++ lf :: b) in Hc.
    rewrite includes_split_at in Hc by done.
    apply orb_true_iff in Hc as [Ha|Hb].
    + by do 2 apply includes_app_l.
    + by do 3 apply includes_app_r.
Qed.

(** [X10] The mount statement goes before the first [app.listen].  For a
    route name without dot and line feed and a server file that holds
    [app.listen] and not yet the mount statement, the text written is the
    text with the import statement, cut at the first [app.listen], with
    the mount statement and an empty line put in between. *)
Theorem mount_before_listen (routeName content : text) (w : world) :
  "."%char ∉ routeName -> lf ∉ routeName ->
  files w !! serverFile = Some (File content) ->
  Js.includes content (mountStatement routeName) = false ->
  Js.includes content (str "app.listen") = true ->
  exists a b updated,
    addImport routeName content = a ++ str "app.listen" ++ b /\
    Js.indexOf (addImport routeName content) (str "app.listen") =
      Z.of_nat (length a) /\
    updated = a ++ mountStatement routeName ++ nl ++ nl ++ str "app.listen" ++ b /\
    updateMainServer routeName w =
    (Done tt, stored (logged w [FsPathExists serverFile;
                                FsReadFile serverFile;
                                FsWriteFile serverFile updated])
                     serverFile updated).
Proof.
  intros Hdot Hlf Hf Hmount Hlisten.
  assert (Hm' : Js.includes (addImport routeName content)
                  (mountStatement routeName) = false).
  { apply addImport_keeps; [| |done].
    - unfold mountStatement. repeat apply notin_app; try (by apply no_char).
      by apply routerName_no_lf.
    - by apply (importStatement_no_app routeName
                  (str "route('/', " ++ routerName routeName ++ str ");")). }
  assert (Hl' : Js.includes (addImport routeName content) (str "app.listen") = true).
  { apply addImport_preserves; [by apply no_char | done]. }
  destruct (addMount_cases routeName (addImport routeName content))
    as [[Hm E]|[(Hm & Hl & E)|(Hm & a & b & Ei & Hidx & E)]]; try congruence.
  exists a, b. eexists. split; [done|]. split; [done|]. split; [reflexivity|].
  rewrite (updateMainServer_run _ _ _ Hf), E. reflexivity.
Qed.

Lemma isWebhook_provider provider : isWebhook (str "webhooks/" ++ provider) = true.
Proof.
  apply includes_true. exists [], (str "s/" ++ provider). reflexivity.
Qed.

(** [X11] Every provider of [addWebhookEndpoint] gets the router name
    [webhookRouter]: the route name starts with [webhooks/], which holds
    the word webhook.  So the import statements of two providers import
    the same name, and a server file that mounts the router of one
    provider gets no mount statement for another. *)
Theorem webhook_router_shared (provider other a b : text) :
  importStatement (str "webhooks/" ++ provider) =
    str "import { webhookRouter } from './webhooks/" ++ provider ++ str "';" /\
  mountStatement (str "webhooks/" ++ provider) = str "app.route('/', webhookRouter);" /\
  addMount (str "webhooks/" ++ other)
    (a ++ mountStatement (str "webhooks/" ++ provider) ++ b) =
  a ++ mountStatement (str "webhooks/" ++ provider) ++ b.
Proof.
  assert (Hm : forall p, mountStatement (str "webhooks/" ++ p) =
                         str "app.route('/', webhookRouter);").
  { intros p. unfold mountStatement, routerName.
    by rewrite isWebhook_provider. }
  split; [|split; [apply Hm|]].
  - unfold importStatement, routerName. rewrite isWebhook_provider.
    by rewrite <- !app_assoc.
  - apply addMount_id. rewrite !Hm.
    apply includes_app_r, includes_app_l, includes_refl.
Qed.

End ServerRuns.

(* ================================================================== *)
(** * Endpoints and schemas *)
(* ================================================================== *)

Section Endpoints.

Lemma ancestorsFrom_prefix seen p x :
  x ∈ ancestorsFrom seen p ->
  exists q r, p = q ++ "/"%char :: r /\ x = seen ++ q.
Proof.
  revert seen. induction p as [|c p IH]; intros seen H; simpl in H.
  - by apply elem_of_nil in H.
  - destruct (Js.isChar "/" c && negb (Nat.eqb (length seen) 0)) eqn:E.
    + apply elem_of_cons in H as [->|H].
      * apply andb_true_iff in E as [E _]. apply Ascii.eqb_eq in E as ->.
        exists [], p. by rewrite app_nil_r.
      * apply IH in H as (q & r & -> & ->). exists (c :: q), r.
        by rewrite <- app_assoc.
    + apply IH in H as (q & r & -> & ->). exists (c :: q), r.
      by rewrite <- app_assoc.
Qed.

Lemma ancestors_prefix p x :
  x ∈ ancestors p -> exists r, p = x ++ "/"%char :: r.
Proof.
  intros H. apply ancestorsFrom_prefix in H as (q & r & -> & ->). by exists r.
Qed.

Lemma mkdirs_other (dirs : list text) (f : gmap text node) (q : text) :
  q ∉ dirs -> mkdirs dirs f !! q = f !! q.
Proof.
  induction dirs as [|d dirs IH]; intros H; simpl; [done|].
  apply not_elem_of_cons in H as [Hd H].
  rewrite lookup_insert_ne by done. by apply IH.
Qed.

Lemma updateMainServer_missing routeName w :
  files w !! serverFile = None ->
  updateMainServer routeName w =
  (Done tt, logged w [FsPathExists serverFile;
                      ConsoleWarn (str "Warning: " ++ serverFile ++
                        str " not found. Please manually import and mount the router.")]).
Proof.
  intros Hf. unfold updateMainServer. rewrite pathExists_run, Hf.
  rewrite bool_decide_false by (by intros [? ?]).
  cbn [negb]. rewrite emit_run. by rewrite logged_logged.
Qed.

Lemma split_no_sep (sep : ascii) (s : text) : sep ∉ s -> Js.split sep s = [s].
Proof.
  induction s as [|c s IH]; intros H; [done|].
  apply not_elem_of_cons in H as [Hc Hs]. simpl.
  replace (Ascii.eqb c sep) with false
    by (symmetry; apply Ascii.eqb_neq; congruence).
  by rewrite IH.
Qed.

Lemma split_at_sep (sep : ascii) (a b : text) :
  sep ∉ a -> Js.split sep (a ++ sep :: b) = a :: Js.split sep b.
Proof.
  induction a as [|c a IH]; intros H; simpl.
  - by rewrite Ascii.eqb_refl.
  - apply not_elem_of_cons in H as [Hc Ha].
    replace (Ascii.eqb c sep) with false
      by (symmetry; apply Ascii.eqb_neq; congruence).
    by rewrite IH.
Qed.

(** The endpoint path of a name without a slash has nothing to
    normalise. *)
Lemma fromCwd_endpoint (name : text) :
  "/"%char ∉ name ->
  Path.fromCwd (str "src/server/api/" ++ name ++ str ".ts") =
  str "src/server/api/" ++ name ++ str ".ts".
Proof.
  intros Hn. unfold Path.fromCwd.
  change (str "src/server/api/" ++ name ++ str ".ts")
    with (str "src" ++ "/"%char :: str "server" ++ "/"%char :: str "api" ++
          "/"%char :: (name ++ str ".ts")).
  rewrite !split_at_sep by (apply no_char; reflexivity).
  rewrite split_no_sep
    by (apply notin_app; [done | apply no_char; reflexivity]).
  assert (Hlen : forall seg : string, (length (str seg) < 3)%nat ->
            Path.isSegment (name ++ str ".ts") seg = false).
  { intros seg Hs. apply bool_decide_eq_false. intros E.
    apply (f_equal (@length ascii)) in E. rewrite length_app in E.
    simpl in E. lia. }
  cbn [Path.normalizeFrom].
  replace (Path.isSegment (str "src") ".") with false by reflexivity.
  replace (Path.isSegment (str "src") "..") with false by reflexivity.
  replace (Path.isSegment (str "server") ".") with false by reflexivity.
  replace (Path.isSegment (str "server") "..") with false by reflexivity.
  replace (Path.isSegment (str "api") ".") with false by reflexivity.
  replace (Path.isSegment (str "api") "..") with false by reflexivity.
  rewrite !Hlen by (simpl; lia).
  replace (length (name ++ str ".ts") =? 0)%nat with false
    by (symmetry; apply Nat.eqb_neq; rewrite length_app; simpl; lia).
  reflexivity.
Qed.

(** [X12] An endpoint without a server file, for a name without a slash
    (so that the endpoint file is src/server/api/<name>.ts itself).
    [addApiEndpoint] writes the endpoint file first; when
    src/server/index.ts does not exist, the router is neither imported
    nor mounted: there is one warning, the call returns normally, and the
    server file is not created. *)
Theorem endpoint_without_server (name content : text) (w : world) :
  "/"%char ∉ name ->
  files w !! serverFile = None ->
  files w !! (str "src/server/api/" ++ name ++ str ".ts") <> Some Dir ->
  existsb (isFile (files w))
    (ancestors (str "src/server/api/" ++ name ++ str ".ts")) = false ->
  exists w',
    addApiEndpoint name content w = (Done tt, w') /\
    files w' !! (str "src/server/api/" ++ name ++ str ".ts") = Some (File content) /\
    files w' !! serverFile = None /\
    trace w' = trace w ++
      [FsOutputFile (str "src/server/api/" ++ name ++ str ".ts") content;
       FsPathExists serverFile;
       ConsoleWarn (str "Warning: " ++ serverFile ++
                    str " not found. Please manually import and mount the router.")].
Proof.
  intros Hn Hf Hp Ha. set (p := str "src/server/api/" ++ name ++ str ".ts") in *.
  unfold addApiEndpoint. cbv zeta. rewrite (fromCwd_endpoint name Hn).
  fold p. unfold bind at 1.
  rewrite (outputFile_run p content w Hp Ha).
  assert (Hs : <[p := File content]> (mkdirs (ancestors p) (files w)) !! serverFile = None).
  { rewrite lookup_insert_ne.
    - rewrite mkdirs_other; [done|]. intros Hin.
      apply ancestors_prefix in Hin as [r Hr]. unfold p in Hr.
      vm_compute in Hr. congruence.
    - unfold p. intros E. vm_compute in E. congruence. }
  rewrite updateMainServer_missing by exact Hs.
  eexists. split; [reflexivity|]. cbn [files trace logged].
  split; [apply lookup_insert_eq|]. split; [exact Hs|].
  by rewrite <- app_assoc.
Qed.

End Endpoints.

Section Schemas.

Lemma mkdirs_in (dirs : list text) (f : gmap text node) (d : text) :
  d ∈ dirs -> mkdirs dirs f !! d = Some Dir.
Proof.
  induction dirs as [|x dirs IH]; intros H; simpl.
  - by apply elem_of_nil in H.
  - destruct (decide (x = d)) as [->|Hne]; [apply lookup_insert_eq|].
    rewrite lookup_insert_ne by done. apply IH.
    apply elem_of_cons in H as [->|H]; done.
Qed.

Lemma not_own_ancestor (p : text) : p ∉ ancestors p.
Proof.
  intros H. apply ancestors_prefix in H as [r Hr].
  apply (f_equal length) in Hr. rewrite length_app in Hr. simpl in Hr. lia.
Qed.

(** After [outputFile], the directories above the file are directories. *)
Lemma ancestors_made (p c : text) (f : gmap text node) :
  existsb (isFile (<[p := File c]> (mkdirs (ancestors p) f))) (ancestors p) = false.
Proof.
  destruct (existsb _ _) eqn:E; [|done]. exfalso.
  apply existsb_exists in E as (d & Hd & Hfile).
  apply list_elem_of_In in Hd. unfold isFile in Hfile.
  rewrite lookup_insert_ne in Hfile.
  - by rewrite (mkdirs_in _ _ _ Hd) in Hfile.
  - intros ->. by apply (not_own_ancestor d).
Qed.

Lemma addToSchema_run type content w :
  files w !! schemaFile type <> Some Dir ->
  existsb (isFile (files w)) (ancestors (schemaFile type)) = false ->
  addToSchema type content w =
  (Done tt,
   {| files := <[schemaFile type := File (schemaBefore w type ++ nl ++ content)]>
                 (mkdirs (ancestors (schemaFile type)) (files w));
      answers := answers w;
      trace := trace w ++
        (FsPathExists (schemaFile type) ::
         (if bool_decide (is_Some (files w !! schemaFile type))
          then [FsReadFile (schemaFile type)] else []) ++
         [FsOutputFile (schemaFile type) (schemaBefore w type ++ nl ++ content)]) |}).
Proof.
  intros Hd Ha. unfold addToSchema, schemaBefore.
  rewrite pathExists_run.
  destruct (files w !! schemaFile type) as [[e|]|] eqn:E; [|done|].
  - rewrite (bool_decide_true _ (mk_is_Some _ _ eq_refl)).
    rewrite readFile_run with (c := e) by exact E.
    rewrite outputFile_run; [|cbn [files logged]; by rewrite E | exact Ha].
    cbn [files answers trace logged]. by rewrite <- !app_assoc.
  - rewrite bool_decide_false by (by intros [? ?]).
    unfold bind at 1. unfold ret.
    rewrite outputFile_run; [|cbn [files logged]; by rewrite E | exact Ha].
    cbn [files answers trace logged]. by rewrite <- !app_assoc.
Qed.

(** [X13] [addToSchema] only appends.  Two calls for the same schema
    file leave it with the text it had (the base schema when there was
    no file), followed by the content of the first call and by the
    content of the second, each after a line feed; nothing is compared
    with what is there, so the same content given twice is there twice.
    The other schema file is not touched. *)
Theorem schema_additions_accumulate
    (type : schemaType) (first second : text) (w : world) :
  files w !! schemaFile type <> Some Dir ->
  existsb (isFile (files w)) (ancestors (schemaFile type)) = false ->
  exists w',
    (addToSchema type first ;; addToSchema type second) w = (Done tt, w') /\
    files w' !! schemaFile type =
      Some (File (schemaBefore w type ++ nl ++ first ++ nl ++ second)) /\
    files w' !! schemaFile (otherSchema type) =
      files w !! schemaFile (otherSchema type).
Proof.
  intros Hd Ha. unfold bind at 1.
  rewrite (addToSchema_run type first w Hd Ha).
  rewrite addToSchema_run;
    [| cbn [files]; by rewrite lookup_insert_eq | apply ancestors_made].
  eexists. split; [reflexivity|]. cbn [files]. split.
  - rewrite lookup_insert_eq. unfold schemaBefore at 1. cbn [files].
    rewrite lookup_insert_eq. by rewrite <- !app_assoc.
  - assert (Hne : schemaFile type <> schemaFile (otherSchema type)).
    { destruct type; intros E; vm_compute in E; congruence. }
    assert (Hanc : schemaFile (otherSchema type) ∉ ancestors (schemaFile type)).
    { intros Hin. apply ancestors_prefix in Hin as [r Hr].
      destruct type; vm_compute in Hr; congruence. }
    rewrite lookup_insert_ne by done. rewrite mkdirs_other by done.
    rewrite lookup_insert_ne by done. by rewrite mkdirs_other.
Qed.

(** [X14] [createPricingAbstractions] does not keep its argument: the
    abstractions are written to src/server/pricing/index.ts, and the
    index export is then written to the same path.  The file ends up
    holding the export line alone, whatever the content was. *)
Theorem pricing_content_overwritten (content : text) (w : world) :
  files w !! abstractionsFile <> Some Dir ->
  existsb (isFile (files w)) (ancestors abstractionsFile) = false ->
  exists w',
    createPricingAbstractions content w = (Done tt, w') /\
    files w' !! abstractionsFile = Some (File pricingIndexContent) /\
    trace w' = trace w ++ [FsOutputFile abstractionsFile content;
                           FsOutputFile abstractionsFile pricingIndexContent].
Proof.
  intros Hd Ha. unfold createPricingAbstractions.
  change (str "src/server/pricing/index.ts") with abstractionsFile.
  unfold bind at 1. rewrite (outputFile_run _ content w Hd Ha).
  rewrite outputFile_run;
    [| cbn [files]; by rewrite lookup_insert_eq | apply ancestors_made].
  eexists. split; [reflexivity|]. cbn [files trace].
  split; [apply lookup_insert_eq | by rewrite <- app_assoc].
Qed.

End Schemas.

Section ImportAnchor.

Lemma find_first_char (x : ascii) (a b : text) :
  x ∉ a -> Js.find (a ++ x :: b) [x] = Some (length a).
Proof.
  induction a as [|c a IH]; intros H; simpl.
  - by rewrite Ascii.eqb_refl.
  - apply not_elem_of_cons in H as [Hc Ha].
    replace (Ascii.eqb c x) with false
      by (symmetry; apply Ascii.eqb_neq; congruence).
    simpl. by rewrite (IH Ha).
Qed.

Lemma find_no_char (x : ascii) (s : text) : x ∉ s -> Js.find s [x] = None.
Proof.
  intros H. apply find_None. intros a b ->. apply H.
  apply elem_of_app. right. left.
Qed.

(** [X15] A server file without any import.  The import statement is
    put after the line of the last [import]; when the text holds no
    [import] at all, this is the first line of the file, whatever it
    is, and a text of one line gets the statement at its very
    beginning. *)
Theorem import_without_anchor (routeName content : text) :
  Js.includes content (str "import ") = false ->
  (lf ∉ content ->
   addImport routeName content = importStatement routeName ++ nl ++ content) /\
  (forall a b, content = a ++ nl ++ b -> lf ∉ a ->
   addImport routeName content =
   a ++ nl ++ importStatement routeName ++ nl ++ b).
Proof.
  intros Hno.
  assert (Hi : Js.includes content (importStatement routeName) = false).
  { destruct (Js.includes content (importStatement routeName)) eqn:E; [|done].
    rewrite (includes_trans _ _ (str "import ") E) in Hno; [done|].
    apply includes_true.
    exists [], (str "{ " ++ routerName routeName ++ str " } from './" ++
                (if isWebhook routeName then routeName
                 else str "api/" ++ routeName) ++ str "';").
    reflexivity. }
  assert (Hlast : Js.lastIndexOf content (str "import ") = -1).
  { destruct (lastIndexOf_cases content (str "import "))
      as [[_ ->]|(a & b & E & _)]; [done|].
    rewrite E in Hno. by rewrite includes_app_r in Hno
      by (apply includes_app_l, includes_refl). }
  unfold addImport. rewrite Hi, Hlast. cbn [negb].
  unfold Js.indexOfFrom.
  replace (Z.to_nat (Z.min (Z.max (-1) 0) (Z.of_nat (length content)))) with 0%nat by lia.
  rewrite drop_0. split.
  - intros Hlf. pose proof (find_no_char lf content Hlf) as Hfind.
    change [lf] with nl in Hfind. rewrite Hfind. cbn [fmap option_fmap option_map Js.toIndex].
    change (-1 + 1) with 0. by rewrite slice_0_0, sliceFrom_0.
  - intros a b E Ha. subst content.
    pose proof (find_first_char lf a b Ha) as Hfind.
    change [lf] with nl in Hfind. change (a ++ lf :: b) with (a ++ nl ++ b) in Hfind.
    rewrite Hfind.
    cbn [fmap option_fmap option_map Js.toIndex Nat.add].
    replace (Z.of_nat (length a) + 1) with (Z.of_nat (length (a ++ nl)))
      by (rewrite length_app; simpl; lia).
    rewrite (app_assoc a nl b).
    rewrite slice_prefix, sliceFrom_suffix. by rewrite <- app_assoc.
Qed.

End ImportAnchor.

(* ================================================================== *)
(** * The UserShard patcher *)
(* ================================================================== *)

Section Shard.

Import Re.

(** A piece that lies across the segments of a template. *)
Lemma includes_around (lit1 x lit2 rest s1 s2 : text) :
  Js.endsWith lit1 s1 = true -> Js.startsWith lit2 s2 = true ->
  Js.includes (lit1 ++ x ++ lit2 ++ rest) (s1 ++ x ++ s2) = true.
Proof.
  intros H1 H2. unfold Js.endsWith in H1.
  apply startsWith_true in H1 as [q1 E1]. apply startsWith_true in H2 as [q2 ->].
  apply (f_equal (@rev ascii)) in E1. rewrite rev_involutive, rev_app_distr, rev_involutive in E1.
  subst lit1. apply includes_true. exists (rev q1), (q2 ++ rest).
  by rewrite <- !app_assoc.
Qed.

Lemma includes_after (x lit2 rest s2 : text) :
  Js.startsWith lit2 s2 = true ->
  Js.includes (x ++ lit2 ++ rest) (x ++ s2) = true.
Proof.
  intros H2. apply startsWith_true in H2 as [q2 ->].
  apply includes_true. exists [], (q2 ++ rest). by rewrite <- !app_assoc.
Qed.

Lemma functionsToAdd_response name capitalizedName :
  Js.includes (functionsToAdd name capitalizedName)
    (str "Load" ++ capitalizedName ++ str "Response") = true.
Proof.
  unfold functionsToAdd.
  apply includes_app_r, includes_app_r.
  apply includes_around; vm_compute; reflexivity.
Qed.

Lemma functionsToAdd_event name capitalizedName :
  Js.includes (functionsToAdd name capitalizedName)
    (capitalizedName ++ str "Event") = true.
Proof.
  unfold functionsToAdd.
  repeat first
    [ solve [apply includes_after; vm_compute; reflexivity]
    | apply includes_app_r ].
Qed.

(** The expression for an import from the events module asks for the end
    of the input and then for more text: it matches nothing. *)
Lemma events_import_no_match content : exec re_eventsImport content = None.
Proof.
  unfold exec. destruct (scan re_eventsImport 0 content) as [[j m]|] eqn:E; [|done].
  exfalso. apply scan_extent in E as (mid & _ & _ & _ & _ & _ & H).
  unfold re_eventsImport, seqs in H. cbn [foldr] in H.
  do 7 (apply reaches_seq_inv in H as (? & _ & H)).
  apply reaches_seq_inv in H as (s8 & H8 & H).
  apply reaches_eol_inv in H8 as [-> Hrest].
  apply reaches_seq_inv in H as (s9 & H9 & _).
  apply reaches_Lit in H9 as (E9 & _). rewrite Hrest in E9. discriminate.
Qed.

(** "Add imports from events file", the only way it goes. *)
Lemma addShardEventImports_eq capitalizedName camelName c :
  addShardEventImports capitalizedName camelName c =
  if negb (Js.includes c (capitalizedName ++ str "Event")) then
    if negb (Js.indexOf c schemasModule =? -1) then
      Js.slice c 0 (Js.indexOfFrom c nl (Js.indexOf c schemasModule)) ++
      (nl ++ eventsImportLine capitalizedName camelName) ++
      Js.sliceFrom c (Js.indexOfFrom c nl (Js.indexOf c schemasModule))
    else c
  else c.
Proof.
  unfold addShardEventImports. rewrite events_import_no_match. reflexivity.
Qed.

Lemma slice_but_last (c : text) (x : ascii) : Js.slice (c ++ [x]) 0 (-1) = c.
Proof.
  unfold Js.slice, Js.clampIndex. rewrite length_app.
  replace (0 <? 0) with false by reflexivity.
  replace (-1 <? 0) with true by reflexivity.
  replace (Z.to_nat (Z.min 0 (Z.of_nat (length c + length [x])))) with 0%nat by lia.
  replace (Z.to_nat (Z.max (Z.of_nat (length c + length [x]) + -1) 0))
    with (length c) by (simpl; lia).
  rewrite drop_0, Nat.sub_0_r. apply take_app_length.
Qed.

Lemma sliceFrom_last (c : text) (x : ascii) : Js.sliceFrom (c ++ [x]) (-1) = [x].
Proof.
  unfold Js.sliceFrom, Js.clampIndex. rewrite length_app.
  replace (-1 <? 0) with true by reflexivity.
  replace (Z.to_nat (Z.max (Z.of_nat (length c + length [x]) + -1) 0))
    with (length c) by (simpl; lia).
  apply drop_app_length.
Qed.

(** [X16] The UserShard patcher never extends an import from the events
    module: the expression that looks for one is a regular expression
    literal in which the text [${camelName}] is not a substitution, and
    it matches no text.  When the file lacks the event type of the page,
    the patcher adds a new import line.  Its place is found from the
    first mention of the request-response-schemas module: with a line
    feed after that mention, the import line is added at the end of the
    line of the mention; without one (the mention is on the last line,
    which is not ended), the index of the line end is -1 and the import
    line, with the line feed before it, goes before the last character
    of the file.  Nothing is added when there is no mention. *)
Theorem events_import_never_extended
    (capitalizedName camelName content : text) :
  exec re_eventsImport content = None /\
  (Js.includes content (capitalizedName ++ str "Event") = false ->
   (Js.includes content schemasModule = false ->
    addShardEventImports capitalizedName camelName content = content) /\
   (forall a l b,
      content = a ++ schemasModule ++ l ++ nl ++ b ->
      Js.indexOf content schemasModule = Z.of_nat (length a) ->
      lf ∉ l ->
      addShardEventImports capitalizedName camelName content =
      a ++ schemasModule ++ l ++ nl ++
      eventsImportLine capitalizedName camelName ++ nl ++ b) /\
   (forall a l,
      content = a ++ schemasModule ++ l ->
      Js.indexOf content schemasModule = Z.of_nat (length a) ->
      lf ∉ l ->
      exists front last,
        content = front ++ [last] /\
        addShardEventImports capitalizedName camelName content =
        front ++ nl ++ eventsImportLine capitalizedName camelName ++ [last])).
Proof.
  split; [apply events_import_no_match|]. intros Hev.
  rewrite addShardEventImports_eq, Hev. cbn [negb]. split; [|split].
  - intros Hs.
    destruct (indexOf_cases content schemasModule) as [[_ ->]|(a & b & E & _)];
      [reflexivity|].
    rewrite E in Hs. by rewrite includes_app_r in Hs
      by (apply includes_app_l, includes_refl).
  - intros a l b E Hidx Hl. rewrite Hidx.
    replace (Z.of_nat (length a) =? -1) with false by (symmetry; apply Z.eqb_neq; lia).
    cbn [negb].
    assert (Hfrom : Js.indexOfFrom content nl (Z.of_nat (length a)) =
                    Z.of_nat (length (a ++ schemasModule ++ l))).
    { unfold Js.indexOfFrom.
      replace (Z.to_nat (Z.min (Z.max (Z.of_nat (length a)) 0)
                               (Z.of_nat (length content))))
        with (length a)
        by (rewrite E, !length_app; lia).
      rewrite E at 1. rewrite drop_app_length.
      pose proof (find_first_char lf (schemasModule ++ l) b) as Hfind.
      change [lf] with nl in Hfind.
      replace ((schemasModule ++ l) ++ lf :: b)
        with (schemasModule ++ l ++ nl ++ b) in Hfind
        by (by rewrite <- !app_assoc).
      rewrite Hfind.
      - cbn [fmap option_fmap option_map Js.toIndex].
        rewrite !length_app. f_equal; lia.
      - apply notin_app; [by apply no_char | done]. }
    rewrite Hfrom.
    replace content with ((a ++ schemasModule ++ l) ++ nl ++ b)
      by (rewrite E; by rewrite <- !app_assoc).
    rewrite slice_prefix, sliceFrom_suffix. by rewrite <- !app_assoc.
  - intros a l E Hidx Hl. rewrite Hidx.
    replace (Z.of_nat (length a) =? -1) with false by (symmetry; apply Z.eqb_neq; lia).
    cbn [negb].
    assert (Hfrom : Js.indexOfFrom content nl (Z.of_nat (length a)) = -1).
    { unfold Js.indexOfFrom.
      replace (Z.to_nat (Z.min (Z.max (Z.of_nat (length a)) 0)
                               (Z.of_nat (length content))))
        with (length a)
        by (rewrite E, !length_app; lia).
      rewrite E at 1. rewrite drop_app_length.
      pose proof (find_no_char lf (schemasModule ++ l)) as Hfind.
      change [lf] with nl in Hfind. rewrite Hfind; [done|].
      apply notin_app; [by apply no_char | done]. }
    rewrite Hfrom.
    assert (Hne : content <> []).
    { rewrite E. intros H. apply app_eq_nil in H as [_ H]. discriminate. }
    destruct (exists_last Hne) as (front & last & Ec).
    exists front, last. split; [done|]. rewrite Ec.
    rewrite slice_but_last, sliceFrom_last. by rewrite <- !app_assoc.
Qed.

(** ** Two applications *)

Lemma brace_in_text (x y : text) : Js.includes (x ++ "}"%char :: y) (str "}") = true.
Proof. apply includes_true. by exists x, y. Qed.

Lemma brace_kept_schema capitalizedName c :
  Js.includes c (str "}") = true ->
  Js.includes (addShardSchemaImports capitalizedName c) (str "}") = true.
Proof.
  intros H. unfold addShardSchemaImports.
  destruct (negb (Js.includes c _)); [|done].
  destruct (exec re_shardSchemasImport c) as [m|].
  - cbv zeta. destruct (Nat.ltb 0 _); [|done].
    match goal with |- context [Js.replace ?s ?p ?r] =>
      destruct (replace_cases s p r) as [->|(a & b & _ & ->)]; [done|]
    end.
    apply includes_app_r, includes_app_l.
    match goal with |- context [str "import { " ++ ?n ++ str " } from " ++ ?t] =>
      replace (str "import { " ++ n ++ str " } from " ++ t)
        with ((str "import { " ++ n ++ str " ") ++ "}"%char :: (str " from " ++ t))
        by (by rewrite <- !app_assoc)
    end.
    rewrite expand_app_break by reflexivity. apply brace_in_text.
  - cbv zeta. destruct (negb (_ =? -1)); [|done].
    apply includes_app_r, includes_app_l. unfold shardImportToAdd. find_piece.
Qed.

Lemma eventsImportLine_brace capitalizedName camelName :
  Js.includes (eventsImportLine capitalizedName camelName) (str "}") = true.
Proof. unfold eventsImportLine. find_piece. Qed.

Lemma brace_kept_events capitalizedName camelName c :
  Js.includes c (str "}") = true ->
  Js.includes (addShardEventImports capitalizedName camelName c) (str "}") = true.
Proof.
  intros H. rewrite addShardEventImports_eq.
  destruct (negb (Js.includes c _)); [|done].
  destruct (negb (_ =? -1)); [|done].
  apply includes_app_r, includes_app_l, includes_app_r, eventsImportLine_brace.
Qed.

(** The last occurrence of a character. *)
Lemma findLast_char (x : ascii) (s : text) :
  match Js.findLast s [x] with
  | None => x ∉ s
  | Some i => exists a b, s = a ++ x :: b /\ (x ∉ b) /\ length a = i
  end.
Proof.
  induction s as [|c s IH]; simpl.
  - apply not_elem_of_nil.
  - destruct (Js.findLast s [x]) as [j|].
    + destruct IH as (a & b & -> & Hb & <-). by exists (c :: a), b.
    + destruct (Ascii.eqb c x) eqn:E; simpl.
      * apply Ascii.eqb_eq in E as ->. by exists [], s.
      * apply Ascii.eqb_neq in E. apply not_elem_of_cons. split; [congruence|done].
Qed.

(** Where the functions go. *)
Lemma insertFunctions_cases name capitalizedName c :
  (Js.includes c (str "}") = false /\ insertFunctions name capitalizedName c = c) \/
  (exists a b, c = a ++ str "}" ++ b /\ ("}"%char ∉ b) /\
     insertFunctions name capitalizedName c =
     a ++ functionsToAdd name capitalizedName ++ nl ++ str "}" ++ b).
Proof.
  unfold insertFunctions, Js.lastIndexOf. cbv zeta.
  pose proof (findLast_char "}" c) as H.
  change (str "}") with ["}"%char].
  destruct (Js.findLast c ["}"%char]) as [i|].
  - right. destruct H as (a & b & E & Hb & <-). exists a, b.
    split; [done|]. split; [done|]. cbn [Js.toIndex].
    replace (negb (Z.of_nat (length a) =? -1)) with true
      by (symmetry; apply negb_true_iff, Z.eqb_neq; lia).
    change (a ++ "}"%char :: b) with (a ++ ["}"%char] ++ b) in E.
    rewrite E at 1 2. by rewrite slice_prefix, sliceFrom_suffix.
  - left. split; [|done]. apply includes_false. intros a b ->. apply H.
    apply elem_of_app. right. left.
Qed.

(** A text that holds the functions of a page is taken to hold its
    imports. *)
Lemma patchUserShard_again name capitalizedName camelName c :
  Js.includes c (functionsToAdd name capitalizedName) = true ->
  patchUserShard name capitalizedName camelName c =
  insertFunctions name capitalizedName c.
Proof.
  intros H. unfold patchUserShard.
  assert (E1 : addShardSchemaImports capitalizedName c = c).
  { unfold addShardSchemaImports.
    by rewrite (includes_trans _ _ _ H (functionsToAdd_response _ _)). }
  rewrite E1. rewrite addShardEventImports_eq.
  by rewrite (includes_trans _ _ _ H (functionsToAdd_event _ _)).
Qed.

(** One application of the UserShard patcher to an existing file. *)
Lemma addUserShardFunctions_run name capitalizedName camelName path content w :
  toPascalCase name = Value capitalizedName ->
  toCamelCase name = Value camelName ->
  files w !! path = Some (File content) ->
  addUserShardFunctions name path w =
  (Done tt, shardDone w path (patchUserShard name capitalizedName camelName content)).
Proof.
  intros Hp Hc Hf. unfold addUserShardFunctions.
  rewrite bind_emit. unfold bind at 1. rewrite Hp. cbn [liftE ret].
  unfold bind at 1. rewrite Hc. cbn [liftE ret].
  rewrite pathExists_run.
  rewrite (bool_decide_true _ (mk_is_Some _ _ Hf)). cbn [negb].
  rewrite readFile_run with (c := content) by exact Hf.
  unfold bind. rewrite writeFile_run
    by (change (files w !! path <> Some Dir); by rewrite Hf).
  rewrite emit_run. unfold shardDone. by rewrite !logged_logged.
Qed.

Lemma shardDone_file w path updated :
  files (shardDone w path updated) !! path = Some (File updated).
Proof. unfold shardDone, logged, stored. simpl. apply lookup_insert_eq. Qed.

(** [X17] Two applications of the UserShard patcher with the same
    identifier to an existing file that holds a closing brace.  The
    first puts the two functions of the page before the last closing
    brace (after its import updates).  The second takes the functions of
    the first for the imports of the page and adds no import, but it
    puts the two functions before the last closing brace once more: the
    file holds them twice. *)
Theorem shard_patch_twice (name path content : text) (w : world) :
  test re_shape name = true ->
  files w !! path = Some (File content) ->
  Js.includes content (str "}") = true ->
  exists capitalizedName camelName w1 w2 once twice a b,
    toPascalCase name = Value capitalizedName /\
    toCamelCase name = Value camelName /\
    addUserShardFunctions name path w = (Done tt, w1) /\
    files w1 !! path = Some (File once) /\
    addUserShardFunctions name path w1 = (Done tt, w2) /\
    files w2 !! path = Some (File twice) /\
    once = patchUserShard name capitalizedName camelName content /\
    Js.includes once (functionsToAdd name capitalizedName) = true /\
    once = a ++ str "}" ++ b /\ ("}"%char ∉ b) /\
    twice = a ++ functionsToAdd name capitalizedName ++ nl ++ str "}" ++ b.
Proof.
  intros Hn Hf Hb.
  destruct (transforms_value name Hn) as (c0 & p0 & ps & _ & _ & Hp & Hc).
  set (cap := Js.join [] ((Js.upperChar c0 :: p0) :: map capitalize ps)) in *.
  set (camel := Js.join [] ((c0 :: p0) :: map capitalize ps)) in *.
  set (post := addShardEventImports cap camel (addShardSchemaImports cap content)).
  assert (Hpost : Js.includes post (str "}") = true)
    by by apply brace_kept_events, brace_kept_schema.
  set (once := patchUserShard name cap camel content).
  assert (Honce : Js.includes once (functionsToAdd name cap) = true).
  { unfold once, patchUserShard. fold post.
    destruct (insertFunctions_cases name cap post) as [[H _]|(a & b & _ & _ & ->)];
      [congruence|].
    apply includes_app_r, includes_app_l, includes_refl. }
  assert (Hagain : patchUserShard name cap camel once = insertFunctions name cap once)
    by by apply patchUserShard_again.
  assert (Hob : Js.includes once (str "}") = true).
  { apply (includes_trans _ _ _ Honce). unfold functionsToAdd.
    repeat first [ solve [apply includes_app_l; reflexivity] | apply includes_app_r ]. }
  destruct (insertFunctions_cases name cap once) as [[H _]|(a & b & Eo & Hlast & Et)];
    [congruence|].
  set (w1 := shardDone w path once).
  exists cap, camel, w1, (shardDone w1 path (insertFunctions name cap once)),
    once, (insertFunctions name cap once), a, b.
  split; [done|]. split; [done|].
  split; [by apply addUserShardFunctions_run|].
  split; [apply shardDone_file|].
  split.
  { rewrite (addUserShardFunctions_run name cap camel path once);
      [by rewrite Hagain | done | done | apply shardDone_file]. }
  split; [apply shardDone_file|]. done.
Qed.

End Shard.

(* ================================================================== *)
(** * The action after the checks, and the report of [init] *)
(* ================================================================== *)

Section Generate.

Variable tpl : catalog.

(** [generate] for a type that is neither static nor feed. *)
Lemma generate_other name o w :
  isType o "static" = false -> isType o "feed" = false ->
  generate tpl name o w =
  match createDashboardPageFlow tpl name (schemas o) (routes o) (userShard o) w with
  | (Done _, w') =>
      (if isType o "dashboard" then
         emit (ConsoleLog (str "3. Update the load endpoint in your server")) ;;
         emit (ConsoleLog (str "4. Add change event handlers if needed")) ;;
         emit (ConsoleLog (str "5. Customize the views and context as needed"))
       else ret tt)
        (logged w'
           [ConsoleLog (nl ++ Js.toUpperCase (Js.charAt (type o) 0) ++
                        Js.sliceFrom (type o) 1 ++ str " page " ++ dq ++
                        name ++ dq ++ str " created successfully!" ++ nl);
            ConsoleLog (str "Next steps:");
            ConsoleLog (str "1. Navigate to http://localhost:3000/" ++ name);
            ConsoleLog (str "2. Customize the page content")])
  | (Thrown error, w') =>
      (Exited 1, logged w' [SpinnerFail (str "Page creation failed");
                            ConsoleError (str "Error: " ++ error)])
  | (Exited c, w') => (Exited c, w')
  end.
Proof.
  intros Hs Hf. unfold generate. rewrite Hs, Hf. unfold tryCatch.
  unfold bind at 1.
  destruct (createDashboardPageFlow tpl name (schemas o) (routes o) (userShard o) w)
    as [[[]|e|c] w'].
  - rewrite !bind_emit, !logged_logged. cbn [app].
    destruct (isType o "dashboard"); [|done].
    rewrite !bind_emit, emit_run. done.
  - rewrite !bind_emit. unfold exit. by rewrite !logged_logged.
  - done.
Qed.

(** [X18] Every type other than static and feed gets the dashboard flow:
    the type is not checked against the three known ones.  An invocation
    with such a type ends as one with the type dashboard does, with the
    same files; the two differ in what is printed at the end only. *)
Theorem type_defaults_to_dashboard (name : text) (o o' : options) (w : world) :
  isType o "static" = false -> isType o "feed" = false ->
  type o' = str "dashboard" ->
  schemas o' = schemas o -> routes o' = routes o -> userShard o' = userShard o ->
  files (generate tpl name o w).2 = files (generate tpl name o' w).2 /\
  match (generate tpl name o w).1, (generate tpl name o' w).1 with
  | Done _, Done _ => True
  | Exited c, Exited c' => c = c'
  | _, _ => False
  end.
Proof.
  intros Hs Hf Ht Hsc Hr Hu.
  assert (Hs' : isType o' "static" = false).
  { unfold isType. rewrite Ht. by apply bool_decide_false. }
  assert (Hf' : isType o' "feed" = false).
  { unfold isType. rewrite Ht. by apply bool_decide_false. }
  rewrite (generate_other name o w Hs Hf), (generate_other name o' w Hs' Hf').
  rewrite Hsc, Hr, Hu.
  destruct (createDashboardPageFlow tpl name (schemas o) (routes o) (userShard o) w)
    as [[[]|e|c] w']; [|done|done].
  destruct (isType o "dashboard"), (isType o' "dashboard");
    rewrite ?bind_emit, ?emit_run; done.
Qed.

End Generate.

Section InitReport.

(** [X19] What the [catch] block of [init] reports.  The tests are made
    in the order git, npm, host, on parts of the message.  So every
    message that names github is reported as a missing git, also the one
    of a host that cannot be resolved; and a message about pnpm, the
    installer that the command runs, is reported as a missing npm. *)
Theorem init_report_by_substring (message shown : text) :
  (Js.includes message (str "github") = true ->
   reportInitError (Some message) shown =
   [ConsoleError (nl ++ str "Error: Git is not installed or not in PATH");
    ConsoleError (str "Please install git and try again: https://git-scm.com/downloads")]) /\
  (Js.includes message (str "git") = false ->
   Js.includes message (str "pnpm") = true ->
   reportInitError (Some message) shown =
   [ConsoleError (nl ++ str "Error: npm is not installed or not in PATH");
    ConsoleError (str "Please install Node.js and npm: https://nodejs.org/")]).
Proof.
  split.
  - intros H. unfold reportInitError.
    assert (Hg : Js.includes message (str "git") = true).
    { apply (includes_trans _ _ _ H). reflexivity. }
    by rewrite Hg.
  - intros Hg H. unfold reportInitError. rewrite Hg.
    assert (Hn : Js.includes message (str "npm") = true).
    { apply (includes_trans _ _ _ H). reflexivity. }
    by rewrite Hn.
Qed.

End InitReport.

Section FlowFailure.

Variable tpl : catalog.

Lemma outputFile_under_file p c w :
  existsb (isFile (files w)) (ancestors p) = true ->
  outputFile p c w =
  (Thrown (str "ENOTDIR: not a directory, mkdir"), logged w [FsOutputFile p c]).
Proof.
  intros H. unfold outputFile, bind, emit, getFiles. simpl. by rewrite H.
Qed.

(** [X20] A failure inside the flow.  When src is a regular file, the
    first write of the dashboard flow fails; the action reports the
    failure through the spinner and the console and ends with exit code
    1, and no file has been written. *)
Theorem page_under_a_file (name capitalizedName c : text) (o : options) (w : world) :
  acceptable name = true ->
  toPascalCase name = Value capitalizedName ->
  files w !! pagePath name = None ->
  files w !! str "src" = Some (File c) ->
  yes o = true -> isType o "static" = false -> isType o "feed" = false ->
  exists error,
    createPage tpl name o w =
    (Exited 1,
     logged w
       [ConsoleLog (banner name o);
        FsPathExists (pagePath name);
        SpinnerStart (str "Creating dashboard page structure...");
        FsOutputFile (str "src/client/" ++ name ++ str "/index.html")
                     (indexHtml tpl capitalizedName);
        SpinnerFail (str "Page creation failed");
        ConsoleError (str "Error: " ++ error)]).
Proof.
  intros Ha Hp Hf Hsrc Hy Hs Hfd.
  exists (str "ENOTDIR: not a directory, mkdir").
  rewrite createPage_run.
  pose proof (nameProblem_acceptable name) as H. rewrite Ha in H. rewrite H.
  rewrite bool_decide_false by (rewrite Hf; by intros [? ?]).
  rewrite Hy. cbn [negb]. rewrite bind_ret. cbn [negb].
  rewrite (generate_other tpl name o _ Hs Hfd).
  assert (Hc : exists camel, toCamelCase name = Value camel).
  { assert (Hshape : Re.test re_shape name = true).
    { unfold acceptable in Ha. by repeat apply andb_true_iff in Ha as [Ha _]. }
    destruct (transforms_value name Hshape) as (? & ? & ? & _ & _ & _ & Hc).
    eauto. }
  destruct Hc as [camel Hc].
  unfold createDashboardPageFlow.
  unfold bind at 1. rewrite Hp. cbn [liftE ret].
  unfold bind at 1. rewrite Hc. cbn [liftE ret].
  cbv zeta. rewrite bind_emit. unfold bind at 1.
  rewrite outputFile_under_file.
  - rewrite !logged_logged. cbn [app].
    replace ((str "src/client/" ++ name ++ str "/") ++ str "index.html")
      with (str "src/client/" ++ name ++ str "/index.html")
      by (by rewrite <- !app_assoc).
    reflexivity.
  - change ((str "src/client/" ++ name ++ str "/") ++ str "index.html")
      with (str "src/" ++ ((str "client/" ++ name ++ str "/") ++ str "index.html")).
    unfold ancestors. cbn [ancestorsFrom str list_ascii_of_string app Js.isChar
                            Ascii.eqb Bool.eqb andb negb length Nat.eqb existsb].
    unfold isFile at 1. cbn [files logged].
    change ("s"%char :: "r"%char :: "c"%char :: []) with (str "src").
    by rewrite Hsrc.
Qed.

End FlowFailure.

Section StaticFlow.

Variable staticHtml : text -> text.

Lemma updateViteConfig_missing pageName w :
  files w !! viteConfigPath = None ->
  updateViteConfig pageName w =
  (Done tt, logged w [FsPathExists viteConfigPath;
                      ConsoleWarn (str "vite.config.ts not found. Please manually add the page to your Vite configuration.")]).
Proof.
  intros Hf. unfold updateViteConfig. rewrite pathExists_run, Hf.
  rewrite bool_decide_false by (by intros [? ?]).
  cbn [negb]. rewrite emit_run. by rewrite logged_logged.
Qed.

(** [X21] The static flow without a configuration.  When vite.config.ts
    does not exist, the page is written all the same; [updateViteConfig]
    prints its warning and writes nothing, and the flow goes on to report
    through the spinner that vite.config.ts has been updated. *)
Theorem static_page_without_config (name capitalizedName : text) (w : world) :
  toPascalCase name = Value capitalizedName ->
  files w !! viteConfigPath = None ->
  files w !! (str "src/client/" ++ name ++ str "/index.html") <> Some Dir ->
  existsb (isFile (files w))
    (ancestors (str "src/client/" ++ name ++ str "/index.html")) = false ->
  exists w',
    Static.createStaticPageFlow staticHtml name w = (Done tt, w') /\
    files w' !! (str "src/client/" ++ name ++ str "/index.html") =
      Some (File (staticHtml capitalizedName)) /\
    files w' !! viteConfigPath = None /\
    trace w' = trace w ++
      [SpinnerStart (str "Creating static HTML page...");
       FsOutputFile (str "src/client/" ++ name ++ str "/index.html")
                    (staticHtml capitalizedName);
       SpinnerSucceed (str "Created static HTML page");
       SpinnerStart (str "Updating vite.config.ts...");
       FsPathExists viteConfigPath;
       ConsoleWarn (str "vite.config.ts not found. Please manually add the page to your Vite configuration.");
       SpinnerSucceed (str "Updated vite.config.ts")].
Proof.
  intros Hp Hv Hd Ha.
  set (p := str "src/client/" ++ name ++ str "/index.html") in *.
  unfold Static.createStaticPageFlow. fold p.
  rewrite bind_emit. unfold bind at 1. rewrite Hp. cbn [liftE ret].
  unfold bind at 1. rewrite outputFile_run; [|exact Hd | exact Ha].
  rewrite !bind_emit.
  set (w1 := logged _ _).
  assert (Hs : files w1 !! viteConfigPath = None).
  { unfold w1. cbn [files logged]. rewrite lookup_insert_ne.
    - rewrite mkdirs_other; [done|]. intros Hin.
      apply ancestors_prefix in Hin as [r Hr]. unfold p in Hr.
      vm_compute in Hr. congruence.
    - unfold p. intros E. vm_compute in E. congruence. }
  unfold bind at 1. rewrite (updateViteConfig_missing name w1 Hs).
  rewrite emit_run. eexists. split; [reflexivity|].
  unfold w1. cbn [files trace logged].
  split; [apply lookup_insert_eq|]. split; [exact Hs|].
  by rewrite <- !app_assoc.
Qed.

End StaticFlow.

(* ================================================================== *)
(** * Completeness of the matcher, and the text of the first match *)
(* ================================================================== *)

Section Completeness.

Import Re.

Lemma sameO_is_Some x y : sameO x y -> is_Some x -> is_Some y.
Proof. destruct x, y; simpl; intros H [a Ha]; try done; by eexists. Qed.

Lemma same_refl s : same s s.
Proof. by split. Qed.

Lemma run_alike r k k' : alike k k' -> alike (run r k) (run r k').
Proof.
  revert k k'.
  induction r as [|p|r1 IH1 r2 IH2|r1 IH1 r2 IH2|r1 IH1|r1 IH1| |];
    intros k k' Hk s s' Hs; simpl.
  - by apply Hk.
  - pose proof Hs as [Hp Hr]. rewrite Hr. destruct (rest s') as [|c t]; [done|].
    destruct (p c); [|done]. apply Hk. split; simpl; [by rewrite Hp | done].
  - apply IH1; [|done]. by apply IH2.
  - apply sameO_orElse; [by apply IH1 | by apply IH2].
  - pose proof Hs as [Hp Hr].
    change (sameO (loop (run r1) k (S (length (rest s))) s)
                  (loop (run r1) k' (S (length (rest s'))) s')).
    rewrite Hr. apply loop_plain; [apply IH1 | done | done].
  - apply IH1; [|done]. intros s1 s1' [Hp1 Hr1]. apply Hk.
    destruct Hs as [Hp Hr]. split; simpl; [done | done].
  - pose proof Hs as [Hp Hr]. rewrite Hp. destruct (Nat.eqb _ _); [|done].
    by apply Hk.
  - pose proof Hs as [Hp Hr]. rewrite Hr. destruct (rest s'); [|done].
    by apply Hk.
Qed.

Lemma is_Some_orElse_l {A} (x y : option A) : is_Some x -> is_Some (orElse x y).
Proof. intros [a ->]. by eexists. Qed.

Lemma is_Some_orElse_r {A} (x y : option A) : is_Some y -> is_Some (orElse x y).
Proof. intros [a ->]. destruct x; by eexists. Qed.

(** The repetition, given that one round is complete. *)
Lemma loop_complete r :
  (forall s s' k, reaches r s s' -> alike k k -> is_Some (k s') ->
                  is_Some (run r k s)) ->
  forall s s', reaches (Star r) s s' ->
  forall fuel k, (length (rest s) < fuel)%nat -> alike k k -> is_Some (k s') ->
    is_Some (loop (run r) k fuel s).
Proof.
  intros Hr s s' H. remember (Star r) as sr eqn:Esr.
  induction H as [| | | | |r0 s|r0 s s1 s2 H1 _ H2 IH2| | |]; try done.
  - intros fuel k Hf Hk Hs. destruct fuel as [|fuel]; [lia|].
    rewrite loop_S. by apply is_Some_orElse_r.
  - injection Esr as ->. intros fuel k Hf Hk Hs.
    destruct fuel as [|fuel]; [lia|]. rewrite loop_S.
    destruct (reaches_rest _ _ _ H1) as (w & Ew & Pw).
    destruct w as [|c w].
    + (* a round that reads nothing *)
      simpl in Ew, Pw. rewrite Nat.add_0_r in Pw.
      assert (Hsame : same s1 s) by by split.
      pose proof (IH2 eq_refl (S fuel) k) as IH.
      rewrite Ew in Hf. specialize (IH Hf Hk Hs).
      rewrite loop_S in IH.
      assert (Hal : alike (loop (run r) k (S fuel)) (loop (run r) k (S fuel))).
      { apply loop_plain; [apply run_alike | done]. }
      rewrite <- loop_S in IH.
      pose proof (Hal s1 s Hsame) as Hso.
      rewrite <- (loop_S (run r) k fuel s).
      by apply (sameO_is_Some _ _ Hso).
    + apply is_Some_orElse_l. apply (Hr s s1); [done| |].
      * intros a b [Hp Hre]. rewrite Hp.
        destruct (Nat.ltb (pos s) (pos b)); [|done].
        apply loop_plain; [apply run_alike | done | by split].
      * replace (Nat.ltb (pos s) (pos s1)) with true
          by (symmetry; apply Nat.ltb_lt; simpl in Pw; lia).
        apply (IH2 eq_refl); [|done|done].
        rewrite Ew in Hf. rewrite length_app in Hf. simpl in Hf. lia.
Qed.

(** Completeness: a path that the continuation accepts is found, or
    another one before it. *)
Lemma run_complete r s s' k :
  reaches r s s' -> alike k k -> is_Some (k s') -> is_Some (run r k s).
Proof.
  revert s s' k.
  induction r as [|p|r1 IH1 r2 IH2|r1 IH1 r2 IH2|r1 IH1|r1 IH1| |];
    intros s s' k H Hk Hs.
  - apply reaches_empty_inv in H as ->. done.
  - apply reaches_chr_inv in H as (c & t & E & Hc & ->).
    by rewrite (run_chr_cons _ _ _ c t).
  - apply reaches_seq_inv in H as (s1 & H1 & H2).
    simpl. apply (IH1 s s1); [done | by apply run_alike |].
    by apply (IH2 s1 s').
  - simpl. inversion H; subst.
    + apply is_Some_orElse_l. by apply (IH1 s s').
    + apply is_Some_orElse_r. by apply (IH2 s s').
  - rewrite run_star. apply (loop_complete r1 IH1 s s' H); [lia | done | done].
  - apply reaches_group_inv in H as (s1 & H1 & ->). simpl.
    apply (IH1 s s1); [done | | done].
    intros a b [Hp Hr]. apply Hk. by split.
  - apply reaches_bol_inv in H as [-> Hp]. simpl. by rewrite Hp.
  - apply reaches_eol_inv in H as [-> Hr]. simpl. by rewrite Hr.
Qed.

(** A path of an expression without assertions can be taken at any
    position, before any text. *)
Lemma reaches_transport r s s' :
  unanchored r = true -> reaches r s s' ->
  forall w, rest s = w ++ rest s' ->
  forall p x c, exists c',
    reaches r (MState p (w ++ x) c) (MState (p + length w) x c').
Proof.
  intros Hu H. induction H as [s|q s c t E Hq|r1 r2 s s1 s2 H1 IH1 H2 IH2
                 |r1 r2 s s1 H1 IH|r1 r2 s s1 H1 IH|r s|r s s1 s2 H1 IH1 H2 IH2
                 |r s s1 H1 IH|s E|s E]; intros w Ew p x c0.
  - assert (w = []) as ->.
    { apply (f_equal length) in Ew. rewrite length_app in Ew.
      destruct w; [done | simpl in Ew; lia]. }
    exists c0. rewrite Nat.add_0_r. apply reach_empty.
  - simpl in Ew. rewrite E in Ew.
    assert (w = [c]) as ->.
    { destruct w as [|a w]; [apply (f_equal length) in Ew; simpl in Ew; lia|].
      injection Ew as -> Ew. apply (f_equal length) in Ew.
      rewrite length_app in Ew. destruct w; [done | simpl in Ew; lia]. }
    exists c0. replace (p + length [c])%nat with (S p) by (simpl; lia).
    by apply (reach_chr q (MState p ([c] ++ x) c0) c x).
  - simpl in Hu. apply andb_true_iff in Hu as [Hu1 Hu2].
    destruct (reaches_rest _ _ _ H1) as (w1 & E1 & _).
    destruct (reaches_rest _ _ _ H2) as (w2 & E2 & _).
    assert (w = w1 ++ w2) as ->.
    { rewrite E1, E2, app_assoc in Ew. by apply app_inv_tail in Ew. }
    destruct (IH1 Hu1 w1 E1 p (w2 ++ x) c0) as [c1 R1].
    destruct (IH2 Hu2 w2 E2 (p + length w1)%nat x c1) as [c2 R2].
    exists c2. rewrite <- app_assoc, length_app, Nat.add_assoc.
    by apply reach_seq with (MState (p + length w1) (w2 ++ x) c1).
  - simpl in Hu. apply andb_true_iff in Hu as [Hu1 Hu2].
    destruct (IH Hu1 w Ew p x c0) as [c1 R1]. exists c1. by apply reach_alt_l.
  - simpl in Hu. apply andb_true_iff in Hu as [Hu1 Hu2].
    destruct (IH Hu2 w Ew p x c0) as [c1 R1]. exists c1. by apply reach_alt_r.
  - assert (w = []) as ->.
    { apply (f_equal length) in Ew. rewrite length_app in Ew.
      destruct w; [done | simpl in Ew; lia]. }
    exists c0. rewrite Nat.add_0_r. apply reach_star_stop.
  - simpl in Hu.
    destruct (reaches_rest _ _ _ H1) as (w1 & E1 & _).
    destruct (reaches_rest _ _ _ H2) as (w2 & E2 & _).
    assert (w = w1 ++ w2) as ->.
    { rewrite E1, E2, app_assoc in Ew. by apply app_inv_tail in Ew. }
    destruct (IH1 Hu w1 E1 p (w2 ++ x) c0) as [c1 R1].
    destruct (IH2 Hu w2 E2 (p + length w1)%nat x c1) as [c2 R2].
    exists c2. rewrite <- app_assoc, length_app, Nat.add_assoc.
    by apply reach_star_step with (MState (p + length w1) (w2 ++ x) c1).
  - simpl in Hu. simpl in Ew.
    destruct (IH Hu w Ew p x c0) as [c1 R1].
    eexists. apply (reach_group r (MState p (w ++ x) c0) _ R1).
  - done.
  - done.
Qed.

End Completeness.

Section FirstMatch.

Import Re.

Lemma find_le (a p b : text) :
  exists i, Js.find (a ++ p ++ b) p = Some i /\ (i <= length a)%nat.
Proof.
  induction a as [|c a (i & Hi & Hl)].
  - exists 0%nat. split; [|done]. simpl.
    destruct (p ++ b) eqn:E; simpl.
    + destruct p; [done | done].
    + by rewrite <- E, startsWith_app.
  - simpl. destruct (Js.startsWith (c :: a ++ p ++ b) p).
    + exists 0%nat. split; [done | lia].
    + exists (S i). rewrite Hi. split; [done | simpl; lia].
Qed.

(** For an expression without assertions, the text of the first match
    has its first occurrence where the match is: a [replace] of that
    text replaces the match. *)
Lemma first_match_first_occurrence r c m :
  unanchored r = true -> exec r c = Some m ->
  exists pre post, c = pre ++ whole m ++ post /\ length pre = index m /\
    Js.find c (whole m) = Some (index m).
Proof.
  intros Hu. unfold exec.
  destruct (scan r 0 c) as [[j ms]|] eqn:E; [|done]. intros [= <-].
  cbn [index whole].
  pose proof (scan_earlier _ _ _ _ _ E) as (pre0 & t & Ec0 & Hj & _ & Hearlier).
  apply scan_extent in E as (mid & Ec & Hjl & Hp & Hsub & Hrest & Hreach).
  rewrite Hsub. exists (take j c), (drop (pos ms) c).
  split; [done|]. split; [rewrite length_take; lia|].
  destruct (find_le (take j c) mid (drop (pos ms) c)) as (i & Hi & Hle).
  rewrite <- Ec in Hi. rewrite Hi. f_equal.
  rewrite length_take in Hle.
  destruct (decide (i = j)) as [->|Hne]; [done|]. exfalso.
  assert (Hlt : (i < j)%nat) by lia.
  apply find_Some in Hi as (q & Eq & Hil).
  assert (Hd : drop i c = mid ++ q).
  { rewrite Eq at 1. rewrite drop_app_length'; [done|]. rewrite length_take. lia. }
  assert (Hdj : drop j c = mid ++ rest ms).
  { rewrite Ec at 1. rewrite drop_app_length'; [by rewrite Hrest|].
    rewrite length_take. lia. }
  destruct (reaches_transport r _ _ Hu Hreach mid Hdj i q None) as [c' Hr'].
  assert (Hs : is_Some (run r Some (MState i (mid ++ q) None))).
  { apply (run_complete r _ _ Some Hr'); [by intros a b Hab | by eexists]. }
  rewrite <- Hd in Hs. simpl in Hj. subst j.
  assert (Hi' : (i < length pre0)%nat) by lia.
  pose proof (Hearlier i Hi') as Hn. simpl in Hn.
  rewrite Hn in Hs. by destruct Hs.
Qed.

Lemma replace_match r c m repl :
  unanchored r = true -> exec r c = Some m ->
  exists pre post, c = pre ++ whole m ++ post /\ length pre = index m /\
    Js.replace c (whole m) repl = pre ++ Js.expand repl (whole m) pre post ++ post.
Proof.
  intros Hu Hm.
  destruct (first_match_first_occurrence r c m Hu Hm) as (pre & post & Ec & Hl & Hf).
  exists pre, post. split; [done|]. split; [done|].
  unfold Js.replace. rewrite Hf. rewrite <- Hl. cbn zeta.
  assert (Ht : take (length pre) c = pre) by (by rewrite Ec, take_app_length).
  assert (Hd : drop (length pre + length (whole m)) c = post).
  { rewrite Ec, app_assoc, <- length_app. by rewrite drop_app_length. }
  by rewrite Ht, Hd.
Qed.

End FirstMatch.

Section ImportsExtended.

Import Re.

Lemma replace_at_match r c m repl :
  unanchored r = true -> exec r c = Some m -> ("$"%char ∉ repl) ->
  exists pre post, c = pre ++ whole m ++ post /\ length pre = index m /\
    Js.replace c (whole m) repl = pre ++ repl ++ post.
Proof.
  intros Hu Hm Hd.
  destruct (replace_match r c m repl Hu Hm) as (pre & post & Ec & Hl & Hr).
  exists pre, post. by rewrite Hr, expand_plain.
Qed.

Lemma kept_no_dollar m :
  ("$"%char ∉ group1 m) ->
  "$"%char ∉ Re.replace (Js.trim (group1 m)) re_trailingComma [].
Proof.
  intros Hd Hin. apply Hd.
  eapply within_elem; [|exact Hin].
  eapply within_trans; [apply within_stripComma | apply within_trim].
Qed.

Lemma join_cons_piece (sep : text) (c : ascii) (p : text) (rest : list text) :
  Js.join sep ((c :: p) :: rest) = c :: Js.join sep (p :: rest).
Proof. by destruct rest. Qed.

(** Splitting at a character and joining with it gives the text back. *)
Lemma join_split (sep : ascii) (s : text) :
  Js.join [sep] (Js.split sep s) = s.
Proof.
  induction s as [|c s IH]; [done|]. simpl.
  destruct (Ascii.eqb c sep) eqn:E.
  - apply Ascii.eqb_eq in E as ->.
    destruct (Js.split sep s) as [|p rest] eqn:Es;
      [by apply split_nonempty in Es|].
    change (Js.join [sep] ([] :: p :: rest))
      with (sep :: Js.join [sep] (p :: rest)).
    by rewrite IH.
  - destruct (Js.split sep s) as [|p rest] eqn:Es;
      [by apply split_nonempty in Es|].
    by rewrite join_cons_piece, IH.
Qed.

Lemma within_join (sep : text) (l : list text) (p : text) :
  p ∈ l -> within p (Js.join sep l).
Proof.
  induction l as [|q l IH]; [by intros ?%elem_of_nil|].
  destruct l as [|q' l].
  - intros ->%list_elem_of_singleton. apply within_refl.
  - change (Js.join sep (q :: q' :: l))
      with (q ++ sep ++ Js.join sep (q' :: l)).
    intros [->|H]%elem_of_cons.
    + by exists [], (sep ++ Js.join sep (q' :: l)).
    + destruct (IH H) as (a & b & ->).
      exists (q ++ sep ++ a), b. by rewrite <- !app_assoc.
Qed.

Lemma split_within (sep : ascii) (s p : text) :
  p ∈ Js.split sep s -> within p s.
Proof.
  intros H. apply (within_join [sep]) in H. by rewrite join_split in H.
Qed.

(** A text which the file does not contain is not one of the names of
    an import list of the file. *)
Lemma not_listed (content imports x : text) :
  within imports content -> Js.includes content x = false ->
  Js.arrayIncludes (map Js.trim (Js.split "," (Js.trim imports))) x = false.
Proof.
  intros Hw Hx. unfold Js.arrayIncludes.
  destruct (existsb _ _) eqn:E; [|done]. exfalso.
  apply existsb_exists in E as (y & Hy & Hyx).
  apply bool_decide_eq_true in Hyx as ->.
  apply list_elem_of_In, list_elem_of_fmap in Hy as (p & -> & Hp).
  apply split_within in Hp.
  assert (Hin : within (Js.trim p) content).
  { eapply within_trans; [apply within_trim|].
    eapply within_trans; [exact Hp|].
    eapply within_trans; [apply within_trim | exact Hw]. }
  apply (within_includes _ _ _ Hin) in Hx.
  by rewrite includes_refl in Hx.
Qed.

End ImportsExtended.

Section ImportTheorems.

Import Re.

Lemma dollar_lit (l : text) :
  forallb (fun x => negb (Ascii.eqb x "$")) l = true -> "$"%char ∉ l.
Proof. apply no_char. Qed.

Ltac dollar_free :=
  repeat first
    [ assumption
    | apply dollar_lit; vm_compute; reflexivity
    | apply notin_app ].

Lemma unanchored_Lit (l : text) : unanchored (Lit l) = true.
Proof. induction l as [|c l IH]; [done|]. simpl. exact IH. Qed.

Lemma unanchored_feed (camel : text) :
  unanchored (re_feedEventsImport camel) = true.
Proof.
  unfold re_feedEventsImport, seqs. cbn [foldr unanchored].
  by rewrite !unanchored_Lit.
Qed.

(** [X22] An import from hono/utils/http-status that lacks
    ContentfulStatusCode is extended in place: in a routes file without
    the word ContentfulStatusCode, the first match of the import
    expression is replaced by one import statement that lists the old
    names, freed of a comma at the end, and then ContentfulStatusCode;
    the text before and after the match is kept.  The import list is
    taken without a dollar sign, which the replacement string would
    expand. *)
Theorem status_import_extended (content : text) (m : found) :
  Js.includes content statusCode = false ->
  exec re_statusImport content = Some m ->
  ("$"%char ∉ group1 m) ->
  exists pre post,
    content = pre ++ whole m ++ post /\ length pre = index m /\
    addStatusImport content content =
      pre ++
      str "import { " ++
      Re.replace (Js.trim (group1 m)) re_trailingComma [] ++
      str ", ContentfulStatusCode } from " ++ dq ++
      str "hono/utils/http-status" ++ dq ++ str ";" ++
      post.
Proof.
  intros Hc Hm Hd.
  pose proof (kept_no_dollar m Hd) as Hk.
  assert (Hw : within (Js.trim (group1 m)) content).
  { eapply within_trans; [apply within_trim | by eapply within_group1]. }
  pose proof (within_includes _ _ _ Hw Hc) as Hi.
  unfold addStatusImport. rewrite Hc, Hm. cbn [negb]. cbv zeta.
  rewrite Hi. cbn [negb].
  set (kept := Re.replace (Js.trim (group1 m)) re_trailingComma []) in *.
  destruct (replace_at_match re_statusImport content m
              (str "import { " ++ (kept ++ str ", ContentfulStatusCode") ++
               str " } from " ++ dq ++ str "hono/utils/http-status" ++ dq ++
               str ";"))
    as (pre & post & Ec & Hl & Hr); [reflexivity | done | | ].
  - dollar_free.
  - exists pre, post. split; [done|]. split; [done|].
    rewrite Hr. f_equal. rewrite <- !app_assoc. reflexivity.
Qed.

(** [X23] In a routes file that holds the word ContentfulStatusCode but
    not the name of the page's load schema, an import from
    @shared/types/request-response-schemas is extended in place: what
    [addRoutesToIndex] writes is the file with the first match of the
    import expression replaced by an import statement that lists the old
    names and the three schemas of the page, and then the routes
    inserted. *)
Theorem schema_import_extended (name cap content : text) (m : found) :
  Js.includes content statusCode = true ->
  Js.includes content (loadResponseSchema cap) = false ->
  exec re_schemasImport content = Some m ->
  ("$"%char ∉ group1 m) -> ("$"%char ∉ cap) ->
  exists pre post,
    content = pre ++ whole m ++ post /\ length pre = index m /\
    patchRoutes name cap content =
      insertRoutes name cap
        (pre ++
         schemaImportStatement
           (schemaImportsAppended cap
              (Re.replace (Js.trim (group1 m)) re_trailingComma [])) ++
         post).
Proof.
  intros Hs Hc Hm Hd Hcap.
  pose proof (kept_no_dollar m Hd) as Hk.
  unfold patchRoutes, addStatusImport, addSchemaImports.
  rewrite Hs, Hc, Hm. cbn [negb]. cbv zeta.
  set (kept := Re.replace (Js.trim (group1 m)) re_trailingComma []) in *.
  destruct (replace_at_match re_schemasImport content m
              (schemaImportStatement (schemaImportsAppended cap kept)))
    as (pre & post & Ec & Hl & Hr); [reflexivity | done | | ].
  - unfold schemaImportStatement, schemaImportsAppended, loadResponseSchema.
    dollar_free.
  - exists pre, post. split; [done|]. split; [done|]. by rewrite Hr.
Qed.

(** [X24] The schemas import of a UserShard file is always extended when
    the file lacks Load<Name>Response: the length check of the new names
    cannot fail, since that name is in no import list of the file.  The
    first match of the import expression is replaced by one statement
    that lists the old names, then ErrorResponse unless it is listed,
    Load<Name>Response, and Save<Name>Response unless it is listed.  The
    statement written is a plain import also where the match was an
    import type.  The import list and the name are taken without a dollar
    sign, which the replacement string would expand. *)
Theorem shard_import_extended (cap content : text) (m : found) :
  Js.includes content (str "Load" ++ cap ++ str "Response") = false ->
  exec re_shardSchemasImport content = Some m ->
  ("$"%char ∉ group1 m) -> ("$"%char ∉ cap) ->
  let listed := map Js.trim (Js.split "," (Js.trim (group1 m))) in
  let names :=
    (if Js.arrayIncludes listed (str "ErrorResponse") then []
     else [str "ErrorResponse"]) ++
    [str "Load" ++ cap ++ str "Response"] ++
    (if Js.arrayIncludes listed (str "Save" ++ cap ++ str "Response") then []
     else [str "Save" ++ cap ++ str "Response"]) in
  exists pre post,
    content = pre ++ whole m ++ post /\ length pre = index m /\
    addShardSchemaImports cap content =
      pre ++
      str "import { " ++
      Re.replace (Js.trim (group1 m)) re_trailingComma [] ++
      str ", " ++ Js.join (str ", ") names ++
      str " } from " ++ dq ++ schemasModule ++ dq ++ str ";" ++
      post.
Proof.
  intros Hc Hm Hd Hcap listed names.
  pose proof (kept_no_dollar m Hd) as Hk.
  assert (Hload : Js.arrayIncludes listed (str "Load" ++ cap ++ str "Response")
                  = false).
  { apply (not_listed content); [by eapply within_group1 | done]. }
  unfold addShardSchemaImports. rewrite Hc, Hm. cbn [negb]. cbv zeta.
  fold listed.
  set (kept := Re.replace (Js.trim (group1 m)) re_trailingComma []) in *.
  set (L := str "Load" ++ cap ++ str "Response") in *.
  set (S' := str "Save" ++ cap ++ str "Response") in *.
  set (E := str "ErrorResponse") in *.
  assert (Hnames :
    List.filter (fun imp => negb (Js.arrayIncludes listed imp))
      (if negb (Js.arrayIncludes listed E) then E :: [L; S'] else [L; S'])
    = names).
  { unfold names. destruct (Js.arrayIncludes listed E) eqn:He; cbn [negb];
      cbn [List.filter]; rewrite ?He, Hload; cbn [negb];
      destruct (Js.arrayIncludes listed S'); reflexivity. }
  rewrite Hnames.
  assert (Hlen : Nat.ltb 0 (length names) = true).
  { unfold names. rewrite !length_app. simpl. apply Nat.ltb_lt. lia. }
  rewrite Hlen.
  assert (Hn : "$"%char ∉ Js.join (str ", ") names).
  { unfold names, L, S', E.
    destruct (Js.arrayIncludes listed (str "ErrorResponse")),
             (Js.arrayIncludes listed (str "Save" ++ cap ++ str "Response"));
      cbn [app Js.join]; dollar_free. }
  destruct (replace_at_match re_shardSchemasImport content m
              (str "import { " ++
               (kept ++ str ", " ++ Js.join (str ", ") names) ++
               str " } from " ++ dq ++ schemasModule ++ dq ++ str ";"))
    as (pre & post & Ec & Hl & Hr); [reflexivity | done | | ].
  - dollar_free.
  - exists pre, post. split; [done|]. split; [done|].
    rewrite Hr. f_equal. rewrite <- !app_assoc. reflexivity.
Qed.

(** [X25] The feed flow does extend an import from the events file of
    the page: its expression is built from a template string, so the
    camelCase name is part of it.  For a camelCase name of letters and
    digits and a UserShard text without <Name>Event, the first match is
    replaced by one import statement that lists the old names and the
    four names of the page.  The import list and the PascalCase name are
    taken without a dollar sign, which the replacement string would
    expand. *)
Theorem feed_events_import_extended (cap camel content : text) (m : found) :
  forallb alnum camel = true ->
  Js.includes content (cap ++ str "Event") = false ->
  exec (re_feedEventsImport camel) content = Some m ->
  ("$"%char ∉ group1 m) -> ("$"%char ∉ cap) ->
  exists pre post,
    content = pre ++ whole m ++ post /\ length pre = index m /\
    addFeedShardEventImports cap camel content =
      pre ++
      str "import { " ++
      Re.replace (Js.trim (group1 m)) re_trailingComma [] ++
      str ", " ++ eventNames cap ++
      str " } from " ++ dq ++ str "@shared/types/" ++ camel ++
      str "Events" ++ dq ++ str ";" ++
      post.
Proof.
  intros Hcam Hc Hm Hd Hcap.
  pose proof (kept_no_dollar m Hd) as Hk.
  assert (Hcd : "$"%char ∉ camel).
  { intros Hin. rewrite forallb_forall in Hcam.
    apply list_elem_of_In, Hcam in Hin. by vm_compute in Hin. }
  unfold addFeedShardEventImports. rewrite Hc, Hm. cbn [negb]. cbv zeta.
  set (kept := Re.replace (Js.trim (group1 m)) re_trailingComma []) in *.
  destruct (replace_at_match (re_feedEventsImport camel) content m
              (str "import { " ++ (kept ++ str ", " ++ eventNames cap) ++
               str " } from " ++ dq ++ str "@shared/types/" ++ camel ++
               str "Events" ++ dq ++ str ";"))
    as (pre & post & Ec & Hl & Hr); [apply unanchored_feed | done | | ].
  - unfold eventNames. dollar_free.
  - exists pre, post. split; [done|]. split; [done|].
    rewrite Hr. f_equal. rewrite <- !app_assoc. reflexivity.
Qed.

End ImportTheorems.

(* ================================================================== *)
(** * The further statements on sample data *)
(* ================================================================== *)

Section MoreWitnesses.

Lemma pascal_of_camel_witness :
  toCamelCase (str "user-profile") = Value (str "userProfile") /\
  exists h t, str "userProfile" = h :: t /\
    toPascalCase (str "user-profile") = Value (Js.upperChar h :: t).
Proof.
  split; [vm_compute; reflexivity|].
  apply (pascal_of_camel (str "user-profile")). vm_compute. reflexivity.
Defined.

Lemma hyphen_before_digit_witness :
  str "a" <> [] /\ forallb lowerOrDigit (str "a") = true /\
  Js.isDigit "1" = true /\ forallb lowerOrDigit [] = true /\
  toPascalCase (str "a-1") = Value (str "A1") /\
  toPascalCase (str "a1") = Value (str "A1") /\
  toCamelCase (str "a-1") = Value (str "a1") /\
  toCamelCase (str "a1") = Value (str "a1").
Proof.
  split; [done|]. split; [reflexivity|]. split; [reflexivity|]. split; [reflexivity|].
  apply (hyphen_before_digit (str "a") [] "1"); [done | | |]; reflexivity.
Defined.

Lemma screaming_snake_faithful_witness :
  forallb nameChar (str "user-profile") = true /\
  forallb nameChar (str "about") = true /\
  (toScreamingSnakeCase (str "user-profile") = toScreamingSnakeCase (str "about") ->
   str "user-profile" = str "about") /\
  length (toScreamingSnakeCase (str "user-profile")) = length (str "user-profile") /\
  forallb (fun c => Js.isUpper c || Js.isDigit c || Js.isChar "_" c)
          (toScreamingSnakeCase (str "user-profile")) = true.
Proof.
  split; [reflexivity|]. split; [reflexivity|].
  apply (screaming_snake_faithful (str "user-profile") (str "about")); reflexivity.
Defined.

Lemma declined_prompt_witness :
  acceptable (str "user-profile") = true /\
  files emptyWorld !! pagePath (str "user-profile") = None /\
  yes askingOptions = false /\
  head (answers emptyWorld) <> Some true /\
  exists w',
    createPage emptyCatalog (str "user-profile") askingOptions emptyWorld =
      (Done tt, w') /\
    files w' = files emptyWorld /\
    trace w' = trace emptyWorld ++
      [ConsoleLog (banner (str "user-profile") askingOptions);
       FsPathExists (pagePath (str "user-profile"));
       Prompt (str "Create a " ++ type askingOptions ++ str " page at " ++
               pagePath (str "user-profile") ++ str "?");
       ConsoleLog (str "Page creation cancelled")].
Proof.
  assert (Ha : acceptable (str "user-profile") = true) by (vm_compute; reflexivity).
  assert (Hf : files emptyWorld !! pagePath (str "user-profile") = None)
    by apply lookup_empty.
  assert (Hh : head (answers emptyWorld) <> Some true) by done.
  split; [exact Ha|]. split; [exact Hf|]. split; [reflexivity|]. split; [exact Hh|].
  exact (declined_prompt emptyCatalog (str "user-profile") askingOptions emptyWorld
           Ha Hf eq_refl Hh).
Defined.

Lemma vite_key_suffix_witness :
  files (worldWith viteConfigPath profileViteConfig) !! viteConfigPath =
    Some (File profileViteConfig) /\
  Re.exec re_input profileViteConfig = Some profileViteMatch /\
  within (str "user-" ++ str "profile" ++ str ":") (Re.group1 profileViteMatch) /\
  updateViteConfig (str "profile") (worldWith viteConfigPath profileViteConfig) =
  (Done tt, logged (worldWith viteConfigPath profileViteConfig)
              [FsPathExists viteConfigPath; FsReadFile viteConfigPath]).
Proof.
  assert (Hf : files (worldWith viteConfigPath profileViteConfig) !! viteConfigPath =
               Some (File profileViteConfig)) by apply lookup_singleton_eq.
  assert (Hm : Re.exec re_input profileViteConfig = Some profileViteMatch)
    by (vm_compute; reflexivity).
  assert (Hw : within (str "user-" ++ str "profile" ++ str ":")
                 (Re.group1 profileViteMatch)).
  { apply includes_true. vm_compute. reflexivity. }
  split; [exact Hf|]. split; [exact Hm|]. split; [exact Hw|].
  exact (vite_key_suffix (str "profile") (str "user-") profileViteConfig
           profileViteMatch _ Hf Hm Hw).
Defined.

Lemma vite_entry_added_once_witness :
  ("$"%char ∉ str "user-profile") /\ ("}"%char ∉ str "user-profile") /\
  files (worldWith viteConfigPath testViteConfig) !! viteConfigPath =
    Some (File testViteConfig) /\
  Re.exec re_input testViteConfig = Some testViteMatch /\
  ("$"%char ∉ Re.group1 testViteMatch) /\
  Js.includes (Re.group1 testViteMatch) (str "user-profile" ++ str ":") = false /\
  exists pre post updated w1,
    testViteConfig = pre ++ Re.whole testViteMatch ++ post /\
    updated = pre ++ str "input: {" ++ Js.trimEnd (Re.group1 testViteMatch) ++ nl ++
              newEntry (str "user-profile") ++ nl ++ str "      }" ++ post /\
    updateViteConfig (str "user-profile") (worldWith viteConfigPath testViteConfig) =
      (Done tt, w1) /\
    files w1 = <[viteConfigPath := File updated]>
                 (files (worldWith viteConfigPath testViteConfig)) /\
    updateViteConfig (str "user-profile") w1 =
    (Done tt, logged w1 [FsPathExists viteConfigPath; FsReadFile viteConfigPath]).
Proof.
  assert (H1 : "$"%char ∉ str "user-profile") by (apply no_char; reflexivity).
  assert (H2 : "}"%char ∉ str "user-profile") by (apply no_char; reflexivity).
  assert (Hf : files (worldWith viteConfigPath testViteConfig) !! viteConfigPath =
               Some (File testViteConfig)) by apply lookup_singleton_eq.
  assert (Hm : Re.exec re_input testViteConfig = Some testViteMatch)
    by (vm_compute; reflexivity).
  assert (H3 : "$"%char ∉ Re.group1 testViteMatch)
    by (apply no_char; vm_compute; reflexivity).
  assert (H4 : Js.includes (Re.group1 testViteMatch)
                 (str "user-profile" ++ str ":") = false)
    by (vm_compute; reflexivity).
  split; [exact H1|]. split; [exact H2|]. split; [exact Hf|]. split; [exact Hm|].
  split; [exact H3|]. split; [exact H4|].
  exact (vite_entry_added_once (str "user-profile") testViteConfig testViteMatch _
           H1 H2 Hf Hm H3 H4).
Defined.

Lemma server_second_run_witness :
  ("."%char ∉ str "users") /\
  files (worldWith serverFile listeningServer) !! serverFile =
    Some (File listeningServer) /\
  exists updated w1 w2,
    updateMainServer (str "users") (worldWith serverFile listeningServer) =
      (Done tt, w1) /\
    files w1 = <[serverFile := File updated]>
                 (files (worldWith serverFile listeningServer)) /\
    updateMainServer (str "users") w1 = (Done tt, w2) /\
    files w2 = files w1 /\
    trace w2 = trace w1 ++ [FsPathExists serverFile; FsReadFile serverFile;
                            FsWriteFile serverFile updated].
Proof.
  assert (H1 : "."%char ∉ str "users") by (apply no_char; reflexivity).
  assert (Hf : files (worldWith serverFile listeningServer) !! serverFile =
               Some (File listeningServer)) by apply lookup_singleton_eq.
  split; [exact H1|]. split; [exact Hf|].
  exact (server_second_run (str "users") listeningServer _ H1 Hf).
Defined.

Lemma mount_before_listen_witness :
  ("."%char ∉ str "users") /\ (lf ∉ str "users") /\
  files (worldWith serverFile listeningServer) !! serverFile =
    Some (File listeningServer) /\
  Js.includes listeningServer (mountStatement (str "users")) = false /\
  Js.includes listeningServer (str "app.listen") = true /\
  exists a b updated,
    addImport (str "users") listeningServer = a ++ str "app.listen" ++ b /\
    Js.indexOf (addImport (str "users") listeningServer) (str "app.listen") =
      Z.of_nat (length a) /\
    updated = a ++ mountStatement (str "users") ++ nl ++ nl ++ str "app.listen" ++ b /\
    updateMainServer (str "users") (worldWith serverFile listeningServer) =
    (Done tt, stored (logged (worldWith serverFile listeningServer)
                        [FsPathExists serverFile;
                         FsReadFile serverFile;
                         FsWriteFile serverFile updated])
                     serverFile updated).
Proof.
  assert (H1 : "."%char ∉ str "users") by (apply no_char; reflexivity).
  assert (H2 : lf ∉ str "users") by (apply no_char; reflexivity).
  assert (Hf : files (worldWith serverFile listeningServer) !! serverFile =
               Some (File listeningServer)) by apply lookup_singleton_eq.
  assert (H3 : Js.includes listeningServer (mountStatement (str "users")) = false)
    by (vm_compute; reflexivity).
  assert (H4 : Js.includes listeningServer (str "app.listen") = true)
    by (vm_compute; reflexivity).
  split; [exact H1|]. split; [exact H2|]. split; [exact Hf|].
  split; [exact H3|]. split; [exact H4|].
  exact (mount_before_listen (str "users") listeningServer _ H1 H2 Hf H3 H4).
Defined.

Lemma endpoint_without_server_witness :
  ("/"%char ∉ str "ai") /\
  files emptyWorld !! serverFile = None /\
  files emptyWorld !! (str "src/server/api/" ++ str "ai" ++ str ".ts") <> Some Dir /\
  existsb (isFile (files emptyWorld))
    (ancestors (str "src/server/api/" ++ str "ai" ++ str ".ts")) = false /\
  exists w',
    addApiEndpoint (str "ai") (str "export {};") emptyWorld = (Done tt, w') /\
    files w' !! (str "src/server/api/" ++ str "ai" ++ str ".ts") =
      Some (File (str "export {};")) /\
    files w' !! serverFile = None /\
    trace w' = trace emptyWorld ++
      [FsOutputFile (str "src/server/api/" ++ str "ai" ++ str ".ts") (str "export {};");
       FsPathExists serverFile;
       ConsoleWarn (str "Warning: " ++ serverFile ++
                    str " not found. Please manually import and mount the router.")].
Proof.
  assert (H1 : files emptyWorld !! serverFile = None) by apply lookup_empty.
  assert (H2 : files emptyWorld !! (str "src/server/api/" ++ str "ai" ++ str ".ts")
               <> Some Dir).
  { change (files emptyWorld) with (∅ : gmap text node). by rewrite lookup_empty. }
  assert (H3 : existsb (isFile (files emptyWorld))
                 (ancestors (str "src/server/api/" ++ str "ai" ++ str ".ts")) = false)
    by reflexivity.
  assert (H0 : "/"%char ∉ str "ai") by (apply no_char; reflexivity).
  split; [exact H0|]. split; [exact H1|]. split; [exact H2|]. split; [exact H3|].
  exact (endpoint_without_server (str "ai") (str "export {};") emptyWorld
           H0 H1 H2 H3).
Defined.

Lemma schema_additions_accumulate_witness :
  files emptyWorld !! schemaFile sharded <> Some Dir /\
  existsb (isFile (files emptyWorld)) (ancestors (schemaFile sharded)) = false /\
  exists w',
    (addToSchema sharded (str "// billing") ;; addToSchema sharded (str "// billing"))
      emptyWorld = (Done tt, w') /\
    files w' !! schemaFile sharded =
      Some (File (schemaBefore emptyWorld sharded ++ nl ++ str "// billing" ++ nl ++
                  str "// billing")) /\
    files w' !! schemaFile (otherSchema sharded) =
      files emptyWorld !! schemaFile (otherSchema sharded).
Proof.
  assert (H1 : files emptyWorld !! schemaFile sharded <> Some Dir).
  { change (files emptyWorld) with (∅ : gmap text node). by rewrite lookup_empty. }
  assert (H2 : existsb (isFile (files emptyWorld)) (ancestors (schemaFile sharded)) = false)
    by reflexivity.
  split; [exact H1|]. split; [exact H2|].
  exact (schema_additions_accumulate sharded (str "// billing") (str "// billing")
           emptyWorld H1 H2).
Defined.

Lemma pricing_content_overwritten_witness :
  files emptyWorld !! abstractionsFile <> Some Dir /\
  existsb (isFile (files emptyWorld)) (ancestors abstractionsFile) = false /\
  exists w',
    createPricingAbstractions (str "export const PRICING_TIERS = {};") emptyWorld =
      (Done tt, w') /\
    files w' !! abstractionsFile = Some (File pricingIndexContent) /\
    trace w' = trace emptyWorld ++
      [FsOutputFile abstractionsFile (str "export const PRICING_TIERS = {};");
       FsOutputFile abstractionsFile pricingIndexContent].
Proof.
  assert (H1 : files emptyWorld !! abstractionsFile <> Some Dir).
  { change (files emptyWorld) with (∅ : gmap text node). by rewrite lookup_empty. }
  assert (H2 : existsb (isFile (files emptyWorld)) (ancestors abstractionsFile) = false)
    by reflexivity.
  split; [exact H1|]. split; [exact H2|].
  exact (pricing_content_overwritten (str "export const PRICING_TIERS = {};")
           emptyWorld H1 H2).
Defined.

Lemma import_without_anchor_witness :
  Js.includes bareServer (str "import ") = false /\
  (lf ∉ bareServer) /\
  addImport (str "users") bareServer =
  importStatement (str "users") ++ nl ++ bareServer.
Proof.
  assert (H1 : Js.includes bareServer (str "import ") = false) by reflexivity.
  assert (H2 : lf ∉ bareServer) by (apply no_char; reflexivity).
  split; [exact H1|]. split; [exact H2|].
  exact (proj1 (import_without_anchor (str "users") bareServer H1) H2).
Defined.

Lemma events_import_never_extended_witness :
  Js.includes importingShard (str "UserProfile" ++ str "Event") = false /\
  importingShard =
    str "import { ErrorResponse } from " ++ dq ++ schemasModule ++
    (dq ++ str ";") ++ nl ++
    str "export class UserShard {
}
" /\
  Js.indexOf importingShard schemasModule =
    Z.of_nat (length (str "import { ErrorResponse } from " ++ dq)) /\
  (lf ∉ dq ++ str ";") /\
  addShardEventImports (str "UserProfile") (str "userProfile") importingShard =
  (str "import { ErrorResponse } from " ++ dq) ++ schemasModule ++
  (dq ++ str ";") ++ nl ++
  eventsImportLine (str "UserProfile") (str "userProfile") ++ nl ++
  str "export class UserShard {
}
".
Proof.
  assert (H1 : Js.includes importingShard (str "UserProfile" ++ str "Event") = false)
    by (vm_compute; reflexivity).
  assert (H2 : importingShard =
    (str "import { ErrorResponse } from " ++ dq) ++ schemasModule ++
    (dq ++ str ";") ++ nl ++
    str "export class UserShard {
}
") by reflexivity.
  assert (H3 : Js.indexOf importingShard schemasModule =
    Z.of_nat (length (str "import { ErrorResponse } from " ++ dq)))
    by (vm_compute; reflexivity).
  assert (H4 : lf ∉ dq ++ str ";") by (apply no_char; reflexivity).
  split; [exact H1|]. split; [exact H2|]. split; [exact H3|]. split; [exact H4|].
  exact (proj1 (proj2 (proj2 (events_import_never_extended (str "UserProfile")
                                (str "userProfile") importingShard) H1))
           _ _ _ H2 H3 H4).
Defined.

Lemma shard_patch_twice_witness :
  Re.test re_shape (str "user-profile") = true /\
  files (worldWith (userShard defaultOptions) sampleShard) !! userShard defaultOptions =
    Some (File sampleShard) /\
  Js.includes sampleShard (str "}") = true /\
  exists capitalizedName camelName w1 w2 once twice a b,
    toPascalCase (str "user-profile") = Value capitalizedName /\
    toCamelCase (str "user-profile") = Value camelName /\
    addUserShardFunctions (str "user-profile") (userShard defaultOptions)
      (worldWith (userShard defaultOptions) sampleShard) = (Done tt, w1) /\
    files w1 !! userShard defaultOptions = Some (File once) /\
    addUserShardFunctions (str "user-profile") (userShard defaultOptions) w1 =
      (Done tt, w2) /\
    files w2 !! userShard defaultOptions = Some (File twice) /\
    once = patchUserShard (str "user-profile") capitalizedName camelName sampleShard /\
    Js.includes once (functionsToAdd (str "user-profile") capitalizedName) = true /\
    once = a ++ str "}" ++ b /\ ("}"%char ∉ b) /\
    twice = a ++ functionsToAdd (str "user-profile") capitalizedName ++ nl ++
            str "}" ++ b.
Proof.
  assert (H1 : Re.test re_shape (str "user-profile") = true) by (vm_compute; reflexivity).
  assert (Hf : files (worldWith (userShard defaultOptions) sampleShard) !!
                 userShard defaultOptions = Some (File sampleShard))
    by apply lookup_singleton_eq.
  assert (H2 : Js.includes sampleShard (str "}") = true) by (vm_compute; reflexivity).
  split; [exact H1|]. split; [exact Hf|]. split; [exact H2|].
  exact (shard_patch_twice (str "user-profile") (userShard defaultOptions)
           sampleShard _ H1 Hf H2).
Defined.

Lemma type_defaults_to_dashboard_witness :
  isType dynamicOptions "static" = false /\
  isType dynamicOptions "feed" = false /\
  type defaultOptions = str "dashboard" /\
  schemas defaultOptions = schemas dynamicOptions /\
  routes defaultOptions = routes dynamicOptions /\
  userShard defaultOptions = userShard dynamicOptions /\
  files (generate emptyCatalog (str "user-profile") dynamicOptions emptyWorld).2 =
  files (generate emptyCatalog (str "user-profile") defaultOptions emptyWorld).2 /\
  match (generate emptyCatalog (str "user-profile") dynamicOptions emptyWorld).1,
        (generate emptyCatalog (str "user-profile") defaultOptions emptyWorld).1 with
  | Done _, Done _ => True
  | Exited c, Exited c' => c = c'
  | _, _ => False
  end.
Proof.
  assert (H1 : isType dynamicOptions "static" = false) by (vm_compute; reflexivity).
  assert (H2 : isType dynamicOptions "feed" = false) by (vm_compute; reflexivity).
  split; [exact H1|]. split; [exact H2|].
  split; [reflexivity|]. split; [reflexivity|]. split; [reflexivity|].
  split; [reflexivity|].
  exact (type_defaults_to_dashboard emptyCatalog (str "user-profile")
           dynamicOptions defaultOptions emptyWorld H1 H2
           eq_refl eq_refl eq_refl eq_refl).
Defined.

Lemma init_report_by_substring_witness :
  Js.includes (str "fatal: Could not resolve host: github.com")
    (str "github") = true /\
  reportInitError (Some (str "fatal: Could not resolve host: github.com")) [] =
  [ConsoleError (nl ++ str "Error: Git is not installed or not in PATH");
   ConsoleError (str "Please install git and try again: https://git-scm.com/downloads")].
Proof.
  assert (H1 : Js.includes (str "fatal: Could not resolve host: github.com")
                 (str "github") = true) by reflexivity.
  split; [exact H1|].
  exact (proj1 (init_report_by_substring
                  (str "fatal: Could not resolve host: github.com") []) H1).
Defined.

Lemma page_under_a_file_witness :
  acceptable (str "user-profile") = true /\
  toPascalCase (str "user-profile") = Value (str "UserProfile") /\
  files (worldWith (str "src") []) !! pagePath (str "user-profile") = None /\
  files (worldWith (str "src") []) !! str "src" = Some (File []) /\
  yes defaultOptions = true /\
  isType defaultOptions "static" = false /\ isType defaultOptions "feed" = false /\
  exists error,
    createPage emptyCatalog (str "user-profile") defaultOptions
      (worldWith (str "src") []) =
    (Exited 1,
     logged (worldWith (str "src") [])
       [ConsoleLog (banner (str "user-profile") defaultOptions);
        FsPathExists (pagePath (str "user-profile"));
        SpinnerStart (str "Creating dashboard page structure...");
        FsOutputFile (str "src/client/" ++ str "user-profile" ++ str "/index.html")
                     (indexHtml emptyCatalog (str "UserProfile"));
        SpinnerFail (str "Page creation failed");
        ConsoleError (str "Error: " ++ error)]).
Proof.
  assert (H1 : acceptable (str "user-profile") = true) by (vm_compute; reflexivity).
  assert (H2 : toPascalCase (str "user-profile") = Value (str "UserProfile"))
    by (vm_compute; reflexivity).
  assert (H3 : files (worldWith (str "src") []) !! pagePath (str "user-profile") = None).
  { apply lookup_singleton_ne. intros E. vm_compute in E. congruence. }
  assert (H4 : files (worldWith (str "src") []) !! str "src" = Some (File []))
    by apply lookup_singleton_eq.
  assert (H5 : isType defaultOptions "static" = false) by (vm_compute; reflexivity).
  assert (H6 : isType defaultOptions "feed" = false) by (vm_compute; reflexivity).
  split; [exact H1|]. split; [exact H2|]. split; [exact H3|]. split; [exact H4|].
  split; [reflexivity|]. split; [exact H5|]. split; [exact H6|].
  exact (page_under_a_file emptyCatalog (str "user-profile") (str "UserProfile") []
           defaultOptions _ H1 H2 H3 H4 eq_refl H5 H6).
Defined.

Lemma static_page_without_config_witness :
  toPascalCase (str "about") = Value (str "About") /\
  files emptyWorld !! viteConfigPath = None /\
  files emptyWorld !! (str "src/client/" ++ str "about" ++ str "/index.html") <>
    Some Dir /\
  existsb (isFile (files emptyWorld))
    (ancestors (str "src/client/" ++ str "about" ++ str "/index.html")) = false /\
  exists w',
    Static.createStaticPageFlow sampleStaticHtml (str "about") emptyWorld =
      (Done tt, w') /\
    files w' !! (str "src/client/" ++ str "about" ++ str "/index.html") =
      Some (File (sampleStaticHtml (str "About"))) /\
    files w' !! viteConfigPath = None /\
    trace w' = trace emptyWorld ++
      [SpinnerStart (str "Creating static HTML page...");
       FsOutputFile (str "src/client/" ++ str "about" ++ str "/index.html")
                    (sampleStaticHtml (str "About"));
       SpinnerSucceed (str "Created static HTML page");
       SpinnerStart (str "Updating vite.config.ts...");
       FsPathExists viteConfigPath;
       ConsoleWarn (str "vite.config.ts not found. Please manually add the page to your Vite configuration.");
       SpinnerSucceed (str "Updated vite.config.ts")].
Proof.
  assert (H1 : toPascalCase (str "about") = Value (str "About"))
    by (vm_compute; reflexivity).
  assert (H2 : files emptyWorld !! viteConfigPath = None) by apply lookup_empty.
  assert (H3 : files emptyWorld !! (str "src/client/" ++ str "about" ++ str "/index.html")
               <> Some Dir).
  { change (files emptyWorld) with (∅ : gmap text node). by rewrite lookup_empty. }
  assert (H4 : existsb (isFile (files emptyWorld))
                 (ancestors (str "src/client/" ++ str "about" ++ str "/index.html")) = false)
    by reflexivity.
  split; [exact H1|]. split; [exact H2|]. split; [exact H3|]. split; [exact H4|].
  exact (static_page_without_config sampleStaticHtml (str "about") (str "About")
           emptyWorld H1 H2 H3 H4).
Defined.

Lemma status_import_extended_witness :
  Js.includes statusRoutes statusCode = false /\
  Re.exec re_statusImport statusRoutes = Some statusRoutesMatch /\
  ("$"%char ∉ Re.group1 statusRoutesMatch) /\
  exists pre post,
    statusRoutes = pre ++ Re.whole statusRoutesMatch ++ post /\
    length pre = Re.index statusRoutesMatch /\
    addStatusImport statusRoutes statusRoutes =
      pre ++
      str "import { " ++
      Re.replace (Js.trim (Re.group1 statusRoutesMatch)) re_trailingComma [] ++
      str ", ContentfulStatusCode } from " ++ dq ++
      str "hono/utils/http-status" ++ dq ++ str ";" ++
      post.
Proof.
  assert (H1 : Js.includes statusRoutes statusCode = false)
    by (vm_compute; reflexivity).
  assert (H2 : Re.exec re_statusImport statusRoutes = Some statusRoutesMatch)
    by (vm_compute; reflexivity).
  assert (H3 : "$"%char ∉ Re.group1 statusRoutesMatch)
    by (apply no_char; vm_compute; reflexivity).
  split; [exact H1|]. split; [exact H2|]. split; [exact H3|].
  exact (status_import_extended statusRoutes statusRoutesMatch H1 H2 H3).
Defined.

Lemma schema_import_extended_witness :
  Js.includes schemaRoutes statusCode = true /\
  Js.includes schemaRoutes (loadResponseSchema (str "UserProfile")) = false /\
  Re.exec re_schemasImport schemaRoutes = Some schemaRoutesMatch /\
  ("$"%char ∉ Re.group1 schemaRoutesMatch) /\
  ("$"%char ∉ str "UserProfile") /\
  exists pre post,
    schemaRoutes = pre ++ Re.whole schemaRoutesMatch ++ post /\
    length pre = Re.index schemaRoutesMatch /\
    patchRoutes (str "user-profile") (str "UserProfile") schemaRoutes =
      insertRoutes (str "user-profile") (str "UserProfile")
        (pre ++
         schemaImportStatement
           (schemaImportsAppended (str "UserProfile")
              (Re.replace (Js.trim (Re.group1 schemaRoutesMatch))
                 re_trailingComma [])) ++
         post).
Proof.
  assert (H1 : Js.includes schemaRoutes statusCode = true)
    by (vm_compute; reflexivity).
  assert (H2 : Js.includes schemaRoutes (loadResponseSchema (str "UserProfile"))
               = false) by (vm_compute; reflexivity).
  assert (H3 : Re.exec re_schemasImport schemaRoutes = Some schemaRoutesMatch)
    by (vm_compute; reflexivity).
  assert (H4 : "$"%char ∉ Re.group1 schemaRoutesMatch)
    by (apply no_char; vm_compute; reflexivity).
  assert (H5 : "$"%char ∉ str "UserProfile")
    by (apply no_char; vm_compute; reflexivity).
  split; [exact H1|]. split; [exact H2|]. split; [exact H3|].
  split; [exact H4|]. split; [exact H5|].
  exact (schema_import_extended (str "user-profile") (str "UserProfile")
           schemaRoutes schemaRoutesMatch H1 H2 H3 H4 H5).
Defined.

Lemma shard_import_extended_witness :
  Js.includes typedShard (str "Load" ++ str "UserProfile" ++ str "Response")
    = false /\
  Re.exec re_shardSchemasImport typedShard = Some typedShardMatch /\
  ("$"%char ∉ Re.group1 typedShardMatch) /\
  ("$"%char ∉ str "UserProfile") /\
  Js.startsWith (Re.whole typedShardMatch) (str "import type {") = true /\
  exists pre post,
    typedShard = pre ++ Re.whole typedShardMatch ++ post /\
    length pre = Re.index typedShardMatch /\
    addShardSchemaImports (str "UserProfile") typedShard =
      pre ++
      str "import { " ++
      Re.replace (Js.trim (Re.group1 typedShardMatch)) re_trailingComma [] ++
      str ", " ++
      Js.join (str ", ") [str "Load" ++ str "UserProfile" ++ str "Response"] ++
      str " } from " ++ dq ++ schemasModule ++ dq ++ str ";" ++
      post.
Proof.
  assert (H1 : Js.includes typedShard
                 (str "Load" ++ str "UserProfile" ++ str "Response") = false)
    by (vm_compute; reflexivity).
  assert (H2 : Re.exec re_shardSchemasImport typedShard = Some typedShardMatch)
    by (vm_compute; reflexivity).
  assert (H3 : "$"%char ∉ Re.group1 typedShardMatch)
    by (apply no_char; vm_compute; reflexivity).
  assert (H4 : "$"%char ∉ str "UserProfile")
    by (apply no_char; vm_compute; reflexivity).
  split; [exact H1|]. split; [exact H2|]. split; [exact H3|].
  split; [exact H4|]. split; [vm_compute; reflexivity|].
  exact (shard_import_extended (str "UserProfile") typedShard typedShardMatch
           H1 H2 H3 H4).
Defined.

Lemma feed_events_import_extended_witness :
  forallb alnum (str "userProfile") = true /\
  Js.includes feedShard (str "UserProfile" ++ str "Event") = false /\
  Re.exec (re_feedEventsImport (str "userProfile")) feedShard
    = Some feedShardMatch /\
  ("$"%char ∉ Re.group1 feedShardMatch) /\
  ("$"%char ∉ str "UserProfile") /\
  exists pre post,
    feedShard = pre ++ Re.whole feedShardMatch ++ post /\
    length pre = Re.index feedShardMatch /\
    addFeedShardEventImports (str "UserProfile") (str "userProfile") feedShard =
      pre ++
      str "import { " ++
      Re.replace (Js.trim (Re.group1 feedShardMatch)) re_trailingComma [] ++
      str ", " ++ eventNames (str "UserProfile") ++
      str " } from " ++ dq ++ str "@shared/types/" ++ str "userProfile" ++
      str "Events" ++ dq ++ str ";" ++
      post.
Proof.
  assert (H0 : forallb alnum (str "userProfile") = true)
    by (vm_compute; reflexivity).
  assert (H1 : Js.includes feedShard (str "UserProfile" ++ str "Event") = false)
    by (vm_compute; reflexivity).
  assert (H2 : Re.exec (re_feedEventsImport (str "userProfile")) feedShard
               = Some feedShardMatch) by (vm_compute; reflexivity).
  assert (H3 : "$"%char ∉ Re.group1 feedShardMatch)
    by (apply no_char; vm_compute; reflexivity).
  assert (H4 : "$"%char ∉ str "UserProfile")
    by (apply no_char; vm_compute; reflexivity).
  split; [exact H0|]. split; [exact H1|]. split; [exact H2|].
  split; [exact H3|]. split; [exact H4|].
  exact (feed_events_import_extended (str "UserProfile") (str "userProfile")
           feedShard feedShardMatch H0 H1 H2 H3 H4).
Defined.



End MoreWitnesses.
